(** * A shallow embedding of the directory scanner and of the fast-hash
      algorithm of go_reel_docs

    Sources embedded here:
    - [src/实现/testHighPerformance.js]: class [FastDirectoryScanner]
      (bounded-concurrency traversal, stat collection, MD5 fingerprints,
      duplicate index, sorting and queries);
    - [src/实现/hash算法.md]: [fnv1a64] and [calculateFastHash]
      (FNV-1a 64 over sampled bytes, followed by size mixing).

    Conventions.  JavaScript numbers that hold counts, sizes and
    millisecond timestamps are integers of [Z]; the running sum of the
    file sizes, the one quantity of the scanner that can leave the range
    in which doubles are exact, is rounded as a double is; [NaN] and
    [undefined] are [None].
    A [Map] is an insertion-ordered association list, because the
    scanner iterates its maps ([Array.from(this.fileMap.values())],
    [this.duplicateFiles.forEach]).  Wall-clock measurements ([Date.now()]
    differences) and console rendering are left out: no result studied here
    depends on them.  Console warnings are kept, as a log. *)

From Stdlib Require Import ZArith List Strings.String Strings.Ascii Strings.Byte Bool Lia.
From Stdlib Require Import Permutation Sorted Zbitwise.
Import ListNotations.
Set Warnings "-register-all".
Open Scope string_scope.
Open Scope list_scope.
Open Scope Z_scope.

#[local] Abbreviation length := List.length.

(** ** Bytes and buffers *)

Definition Buffer := list byte.

Definition byte_to_Z (b : byte) : Z := Z.of_N (Byte.to_N b).

Definition Z_to_byte (z : Z) : byte :=
  match Byte.of_N (Z.to_N (z mod 256)) with
  | Some b => b
  | None => x00
  end.

(** [Buffer.alloc(n)]: [n] zero bytes. *)
Definition Buffer_alloc (n : Z) : Buffer := repeat x00 (Z.to_nat n).

(** The bytes of a file from offset [start], at most [len] of them: what a
    positioned read of [len] bytes returns (short at end of file). *)
Definition slice (content : Buffer) (start len : Z) : Buffer :=
  firstn (Z.to_nat len) (skipn (Z.to_nat start) content).

(** [n] as [k] little-endian bytes. *)
Fixpoint le_bytes (k : nat) (n : Z) : Buffer :=
  match k with
  | O => []
  | S k' => Z_to_byte (n mod 256) :: le_bytes k' (n / 256)
  end.

(** ** Hexadecimal rendering *)

Definition hex_digit (d : Z) : ascii :=
  nth (Z.to_nat d) (list_ascii_of_string "0123456789abcdef") "0"%char.

(** [Buffer.toString('hex')] of one byte: always two digits. *)
Definition byte_hex (b : byte) : list ascii :=
  [hex_digit (byte_to_Z b / 16); hex_digit (byte_to_Z b mod 16)].

Definition hex_of_bytes (bs : Buffer) : string :=
  string_of_list_ascii (flat_map byte_hex bs).

(** [BigInt.prototype.toString(16)] for a non-negative value: no leading
    zero, and ["0"] for zero.  [fuel] bounds the number of digits. *)
Fixpoint toString16_digits (fuel : nat) (n : Z) : list ascii :=
  match fuel with
  | O => []
  | S f =>
      if n <? 16 then [hex_digit n]
      else toString16_digits f (n / 16) ++ [hex_digit (n mod 16)]
  end.

Definition toString16 (n : Z) : string :=
  string_of_list_ascii (toString16_digits (S (Z.to_nat (Z.log2 n))) n).

(** [String.prototype.padStart(targetLength, padChar)]. *)
Definition padStart (s : string) (target : nat) (c : ascii) : string :=
  string_of_list_ascii
    (repeat c (target - String.length s) ++ list_ascii_of_string s).

Definition is_lower_hex (c : ascii) : bool :=
  existsb (Ascii.eqb c) (list_ascii_of_string "0123456789abcdef").

(** ** MD5, as Node's [crypto.createHash('md5')] computes it (RFC 1321) *)

Module MD5.

Definition mask32 (x : Z) : Z := x mod 2 ^ 32.

Definition rotl32 (x c : Z) : Z :=
  mask32 (Z.lor (Z.shiftl x c) (Z.shiftr x (32 - c))).

Definition not32 (x : Z) : Z := Z.lxor x 0xffffffff.

Definition S_table : list Z :=
  [7; 12; 17; 22; 7; 12; 17; 22; 7; 12; 17; 22; 7; 12; 17; 22;
   5; 9; 14; 20; 5; 9; 14; 20; 5; 9; 14; 20; 5; 9; 14; 20;
   4; 11; 16; 23; 4; 11; 16; 23; 4; 11; 16; 23; 4; 11; 16; 23;
   6; 10; 15; 21; 6; 10; 15; 21; 6; 10; 15; 21; 6; 10; 15; 21].

Definition K_table : list Z :=
  [0xd76aa478; 0xe8c7b756; 0x242070db; 0xc1bdceee;
   0xf57c0faf; 0x4787c62a; 0xa8304613; 0xfd469501;
   0x698098d8; 0x8b44f7af; 0xffff5bb1; 0x895cd7be;
   0x6b901122; 0xfd987193; 0xa679438e; 0x49b40821;
   0xf61e2562; 0xc040b340; 0x265e5a51; 0xe9b6c7aa;
   0xd62f105d; 0x02441453; 0xd8a1e681; 0xe7d3fbc8;
   0x21e1cde6; 0xc33707d6; 0xf4d50d87; 0x455a14ed;
   0xa9e3e905; 0xfcefa3f8; 0x676f02d9; 0x8d2a4c8a;
   0xfffa3942; 0x8771f681; 0x6d9d6122; 0xfde5380c;
   0xa4beea44; 0x4bdecfa9; 0xf6bb4b60; 0xbebfbc70;
   0x289b7ec6; 0xeaa127fa; 0xd4ef3085; 0x04881d05;
   0xd9d4d039; 0xe6db99e5; 0x1fa27cf8; 0xc4ac5665;
   0xf4292244; 0x432aff97; 0xab9423a7; 0xfc93a039;
   0x655b59c3; 0x8f0ccc92; 0xffeff47d; 0x85845dd1;
   0x6fa87e4f; 0xfe2ce6e0; 0xa3014314; 0x4e0811a1;
   0xf7537e82; 0xbd3af235; 0x2ad7d2bb; 0xeb86d391].

Record state := mk { A : Z; B : Z; C : Z; D : Z }.

Definition init : state :=
  mk 0x67452301 0xefcdab89 0x98badcfe 0x10325476.

(** A little-endian 32-bit word from four bytes. *)
Definition word_of (bs : Buffer) : Z :=
  fold_right (fun b acc => byte_to_Z b + 256 * acc) 0 bs.

Fixpoint words (n : nat) (bs : Buffer) : list Z :=
  match n with
  | O => []
  | S n' => word_of (firstn 4 bs) :: words n' (skipn 4 bs)
  end.

Definition round (M : list Z) (st : state) (i : nat) : state :=
  let '(mk a b c d) := st in
  let zi := Z.of_nat i in
  let '(f, g) :=
    if zi <? 16 then
      (Z.lor (Z.land b c) (Z.land (not32 b) d), zi)
    else if zi <? 32 then
      (Z.lor (Z.land d b) (Z.land (not32 d) c), (5 * zi + 1) mod 16)
    else if zi <? 48 then
      (Z.lxor (Z.lxor b c) d, (3 * zi + 5) mod 16)
    else
      (Z.lxor c (Z.lor b (not32 d)), (7 * zi) mod 16) in
  let f' := mask32 (f + a + nth i K_table 0 + nth (Z.to_nat g) M 0) in
  mk d (mask32 (b + rotl32 f' (nth i S_table 0))) b c.

Definition block (st : state) (bs : Buffer) : state :=
  let M := words 16 bs in
  let st' := fold_left (round M) (seq 0 64) st in
  mk (mask32 (A st + A st')) (mask32 (B st + B st'))
     (mask32 (C st + C st')) (mask32 (D st + D st')).

Fixpoint blocks (n : nat) (st : state) (bs : Buffer) : state :=
  match n with
  | O => st
  | S n' => blocks n' (block st (firstn 64 bs)) (skipn 64 bs)
  end.

(** Padding: one [0x80] byte, zeros up to 56 modulo 64, then the bit
    length as 8 little-endian bytes. *)
Definition pad (msg : Buffer) : Buffer :=
  let len := Z.of_nat (length msg) in
  let zeros := (55 - len) mod 64 in
  msg ++ [x80] ++ Buffer_alloc zeros ++ le_bytes 8 ((8 * len) mod 2 ^ 64).

Definition state_bytes (st : state) : Buffer :=
  le_bytes 4 (A st) ++ le_bytes 4 (B st)
    ++ le_bytes 4 (C st) ++ le_bytes 4 (D st).

Definition digest (msg : Buffer) : Buffer :=
  let p := pad msg in
  state_bytes (blocks (length p / 64)%nat init p).

(** [hash.digest('hex')] after the updates that fed [msg]. *)
Definition digest_hex (msg : Buffer) : string := hex_of_bytes (digest msg).

End MD5.


(** ** FNV-1a 64 and [calculateFastHash] ([hash算法.md]) *)

Module FastHash.

(** [CONFIG.THRESHOLD] and [CONFIG.BLOCK_SIZE]. *)
Definition THRESHOLD : Z := 10 * 1024.
Definition BLOCK_SIZE : Z := 2 * 1024.

Definition FNV_OFFSET_BASIS : Z := 0xcbf29ce484222325.
Definition FNV_PRIME : Z := 0x100000001b3.

(** [BigInt.asUintN(64, x)]. *)
Definition asUintN64 (x : Z) : Z := x mod 2 ^ 64.

(** One iteration of the loop of [fnv1a64]: xor, then multiply. *)
Definition fnv_step (hash : Z) (b : byte) : Z :=
  asUintN64 (Z.lxor hash (byte_to_Z b) * FNV_PRIME).

Definition fnv1a64 (buffer : Buffer) (seed : Z) : Z :=
  fold_left fnv_step buffer seed.

(** [fileHandle.read(buffer, offset, BLOCK_SIZE, position)] into a
    zero-filled buffer: the bytes read, then the zeros left untouched
    when the read is short. *)
Definition read_block (content : Buffer) (position : Z) : Buffer :=
  let got := slice content position BLOCK_SIZE in
  got ++ Buffer_alloc (BLOCK_SIZE - Z.of_nat (length got)).

(** The buffer that is hashed: the whole file below the threshold, the
    head, middle and tail blocks otherwise. *)
Definition sample (content : Buffer) : Buffer :=
  let fileSize := Z.of_nat (length content) in
  if fileSize <? THRESHOLD then slice content 0 fileSize
  else
    let midOffset := fileSize / 2 - BLOCK_SIZE / 2 in
    let tailOffset := fileSize - BLOCK_SIZE in
    read_block content 0 ++ read_block content midOffset
      ++ read_block content tailOffset.

(** The two passes: content, then the size as 8 little-endian bytes seeded
    with the content hash. *)
Definition hashVal (buffer : Buffer) (fileSize : Z) : Z :=
  fnv1a64 (le_bytes 8 fileSize) (fnv1a64 buffer FNV_OFFSET_BASIS).

Definition render (h : Z) : string := padStart (toString16 h) 16 "0"%char.

(** [calculateFastHash(filePath)].  The argument is what is behind the
    path: [None] when the file cannot be opened or read.  [None] as a
    result is the rethrown error; [writeBigUInt64LE] throws above 64
    bits. *)
Definition calculateFastHash (file : option Buffer) : option string :=
  match file with
  | None => None
  | Some content =>
      let fileSize := Z.of_nat (length content) in
      if fileSize <? 2 ^ 64
      then Some (render (hashVal (sample content) fileSize))
      else None
  end.

End FastHash.

(** ** JavaScript [Map]: insertion-ordered, one entry per key *)

Module JsMap.
Section Ops.
Context {V : Type}.

Definition t := list (string * V).

Fixpoint get (m : t) (k : string) : option V :=
  match m with
  | [] => None
  | (k', v) :: m' => if String.eqb k' k then Some v else get m' k
  end.

Definition has (m : t) (k : string) : bool :=
  match get m k with Some _ => true | None => false end.

(** [set] overwrites in place when the key is present and appends
    otherwise. *)
Fixpoint set (m : t) (k : string) (v : V) : t :=
  match m with
  | [] => [(k, v)]
  | (k', v') :: m' =>
      if String.eqb k' k then (k, v) :: m' else (k', v') :: set m' k v
  end.

Definition values (m : t) : list V := map snd m.
Definition keys (m : t) : list string := map fst m.
End Ops.
Arguments t : clear implicits.
End JsMap.

(** ** The file system seen by one scan *)

(** [fs.Stats], the fields the scanner reads; times in milliseconds, as
    [Date.prototype.getTime] returns them. *)
Record Stats := { size : Z; birthtime : Z; mtime : Z; atime : Z }.

(** [a + b] on two integers held as JavaScript numbers (IEEE 754
    doubles): the exact sum, rounded to the nearest integer a double
    represents, a tie going to the even significand.  Integers up to
    [2^53] in magnitude are represented exactly; from there on a double
    keeps the 53 leading bits.  (The overflow to [Infinity], at [2^1024],
    is out of the reach of sums of file sizes.) *)
Definition round_double (x : Z) : Z :=
  let a := Z.abs x in
  if a <? 2 ^ 53 then x
  else
    let ulp := 2 ^ (Z.log2 a - 52) in
    let q := a / ulp in
    let r := a mod ulp in
    let q' :=
      if 2 * r <? ulp then q
      else if ulp <? 2 * r then q + 1
      else if Z.even q then q else q + 1 in
    Z.sgn x * (q' * ulp).

Definition Number_add (a b : Z) : Z := round_double (a + b).

(** The three range streams of a sampled hash run concurrently.  Each of
    them delivers the bytes of its window in order, in [data] events of at
    most [highWaterMark] bytes (64 KiB, the default of [fs.ReadStream]);
    which stream delivers next belongs to the environment.  An arrival
    names, event by event, the stream whose next chunk reaches
    [hash.update]: a stream with nothing left is passed over, and what
    the list leaves undelivered arrives head first, then middle, then
    tail. *)
Inductive Stream := Head | Middle | Tail.

Definition Arrival := list Stream.

(** The six orders in which three streams of one chunk each can deliver. *)
Definition HMT : Arrival := [Head; Middle; Tail].
Definition HTM : Arrival := [Head; Tail; Middle].
Definition MHT : Arrival := [Middle; Head; Tail].
Definition MTH : Arrival := [Middle; Tail; Head].
Definition THM : Arrival := [Tail; Head; Middle].
Definition TMH : Arrival := [Tail; Middle; Head].

Definition highWaterMark : Z := 64 * 1024.

(** The [data] events of one stream: the bytes of its range, cut every
    [n] bytes; an empty range gives no event. *)
Fixpoint chunks_of (fuel n : nat) (b : Buffer) : list Buffer :=
  match fuel, b with
  | S fuel', _ :: _ => firstn n b :: chunks_of fuel' n (skipn n b)
  | _, _ => []
  end.

Definition chunks (b : Buffer) : list Buffer :=
  chunks_of (length b) (Z.to_nat highWaterMark) b.

(** The chunks of the three streams in the order of their arrival. *)
Fixpoint interleave (arrival : Arrival) (hs ms ts : list Buffer)
  : list Buffer :=
  match arrival with
  | [] => hs ++ ms ++ ts
  | Head :: rest =>
      match hs with
      | c :: hs' => c :: interleave rest hs' ms ts
      | [] => interleave rest hs ms ts
      end
  | Middle :: rest =>
      match ms with
      | c :: ms' => c :: interleave rest hs ms' ts
      | [] => interleave rest hs ms ts
      end
  | Tail :: rest =>
      match ts with
      | c :: ts' => c :: interleave rest hs ms ts'
      | [] => interleave rest hs ms ts
      end
  end.

(** What [hash.update] has received when the last stream ends: the
    windows [h], [m] and [t], chunk by chunk. *)
Definition delivered (arrival : Arrival) (h m t : Buffer) : Buffer :=
  List.concat (interleave arrival (chunks h) (chunks m) (chunks t)).

(** What is behind a directory entry, as one scan meets it.  [None]
    stands for a failing system call: [stat] for a file's first field,
    reading for its second, [readdir] for a directory (permissions,
    deletion, a missing root).  The third field of a file is the arrival
    of its streams in this scan: another scan of the same files may see
    another. *)
Inductive Node :=
| File (st : option Stats) (content : option Buffer) (arrival : Arrival)
| Dir (listing : option (list (string * Node)))
| Other.

(** [path.join], on paths that need no normalisation. *)
Definition path_join (a b : string) : string :=
  if String.eqb a "" then b else a ++ "/" ++ b.

(** ** [FastDirectoryScanner]: data *)

Record Options := {
  maxConcurrency : Z;
  batchSize : Z;
  hashThreshold : Z;
  hashSampleSize : Z;
  enableHash : bool;
  sortAlgorithm : option string
}.

Definition default_options : Options :=
  {| maxConcurrency := 200; batchSize := 50;
     hashThreshold := 10 * 1024; hashSampleSize := 2 * 1024;
     enableHash := false; sortAlgorithm := None |}.

Record FileInfo := {
  path : string;
  fsize : Z;
  createTime : Z;
  modifyTime : Z;
  accessTime : Z
}.

Inductive Method := full | sampled.

Record HashRecord := { hash : string; method : Method }.

Record ScanStats := {
  directoriesScanned : Z;
  filesScanned : Z;
  concurrentOperations : Z;
  maxConcurrent : Z;
  filesWithHash : Z;
  duplicateCount : Z;
  hashErrors : Z
}.

(** The three [console.warn] calls, with the path each prints. *)
Inductive Warning :=
| CannotReadDirectory (currentPath : string)
| CannotStatFile (relativePath : string)
| HashFailed (relativePath : string).

Record Scanner := {
  options : Options;
  fileMap : JsMap.t FileInfo;
  filesByCreateTime : list FileInfo;
  hashMap : JsMap.t HashRecord;
  duplicateFiles : JsMap.t (list string);
  totalFiles : Z;
  totalSize : Z;
  stats : ScanStats;
  console : list Warning
}.

Definition zero_stats : ScanStats :=
  {| directoriesScanned := 0; filesScanned := 0; concurrentOperations := 0;
     maxConcurrent := 0; filesWithHash := 0; duplicateCount := 0;
     hashErrors := 0 |}.

(** The constructor, with the merged options. *)
Definition new_scanner (o : Options) : Scanner :=
  {| options := o; fileMap := []; filesByCreateTime := []; hashMap := [];
     duplicateFiles := []; totalFiles := 0; totalSize := 0;
     stats := zero_stats; console := [] |}.

Definition with_stats (sc : Scanner) (s : ScanStats) : Scanner :=
  {| options := options sc; fileMap := fileMap sc;
     filesByCreateTime := filesByCreateTime sc; hashMap := hashMap sc;
     duplicateFiles := duplicateFiles sc; totalFiles := totalFiles sc;
     totalSize := totalSize sc; stats := s; console := console sc |}.

Definition console_warn (sc : Scanner) (w : Warning) : Scanner :=
  {| options := options sc; fileMap := fileMap sc;
     filesByCreateTime := filesByCreateTime sc; hashMap := hashMap sc;
     duplicateFiles := duplicateFiles sc; totalFiles := totalFiles sc;
     totalSize := totalSize sc; stats := stats sc;
     console := console sc ++ [w] |}.

Definition _resetStats (sc : Scanner) : Scanner :=
  {| options := options sc; fileMap := []; filesByCreateTime := [];
     hashMap := []; duplicateFiles := []; totalFiles := 0; totalSize := 0;
     stats := zero_stats; console := console sc |}.

(** ** Hash engine of the scanner *)

Definition _calculateFullHash (content : option Buffer) : option string :=
  option_map MD5.digest_hex content.

(** [fs.createReadStream(filePath, {start, end})] with
    [end = start + length - 1]: it throws unless [0 <= start <= end]; the
    stream then delivers the bytes of the range that exist, or fails when
    the file cannot be read. *)
Definition createReadStream (content : option Buffer) (start len : Z)
  : option Buffer :=
  if (0 <=? start) && (start <=? start + len - 1) then
    option_map (fun c => slice c start len) content
  else None.

(** The three windows of [_calculateSampledHash]: [(start, length)]. *)
Definition positions (sampleSize fileSize : Z) : list (Z * Z) :=
  [ (0, Z.min sampleSize fileSize);
    (fileSize / 2 - sampleSize / 2, sampleSize);
    (Z.max 0 (fileSize - sampleSize), Z.min sampleSize fileSize) ].

(** One turn of [positions.forEach]: a window starting at or after the end
    of the file is skipped (no data), the others are streamed. *)
Definition window (content : option Buffer) (fileSize : Z) (pos : Z * Z)
  : option Buffer :=
  if fst pos >=? fileSize then Some []
  else createReadStream content (fst pos) (snd pos).

Definition _calculateSampledHash (sampleSize : Z) (content : option Buffer)
    (arrival : Arrival) (fileSize : Z) : option string :=
  match map (window content fileSize) (positions sampleSize fileSize) with
  | [Some h; Some m; Some t] =>
      Some (MD5.digest_hex (delivered arrival h m t))
  | _ => None
  end.

(** ** Duplicate index and file map *)

Definition _checkDuplicateFiles (sc : Scanner) (filePath h : string)
  : Scanner :=
  let dups :=
    if JsMap.has (duplicateFiles sc) h then duplicateFiles sc
    else JsMap.set (duplicateFiles sc) h [] in
  let duplicateList :=
    match JsMap.get dups h with Some l => l | None => [] end ++ [filePath] in
  let dups' := JsMap.set dups h duplicateList in
  let n := Z.of_nat (length duplicateList) in
  let s := stats sc in
  let count :=
    if n =? 2 then duplicateCount s + 2
    else if n >? 2 then duplicateCount s + 1
    else duplicateCount s in
  {| options := options sc; fileMap := fileMap sc;
     filesByCreateTime := filesByCreateTime sc; hashMap := hashMap sc;
     duplicateFiles := dups'; totalFiles := totalFiles sc;
     totalSize := totalSize sc;
     stats :=
       {| directoriesScanned := directoriesScanned s;
          filesScanned := filesScanned s;
          concurrentOperations := concurrentOperations s;
          maxConcurrent := maxConcurrent s;
          filesWithHash := filesWithHash s;
          duplicateCount := count;
          hashErrors := hashErrors s |};
     console := console sc |}.

Definition _addFileInfo (sc : Scanner) (relativePath : string) (st : Stats)
  : Scanner :=
  let fileInfo :=
    {| path := relativePath; fsize := size st; createTime := birthtime st;
       modifyTime := mtime st; accessTime := atime st |} in
  {| options := options sc;
     fileMap := JsMap.set (fileMap sc) relativePath fileInfo;
     filesByCreateTime := filesByCreateTime sc; hashMap := hashMap sc;
     duplicateFiles := duplicateFiles sc; totalFiles := totalFiles sc + 1;
     totalSize := Number_add (totalSize sc) (size st); stats := stats sc;
     console := console sc |}.

(** ** Traversal: the promise queue of [_scanWithConcurrencyQueue] *)

(** A queued closure [() => this._processDirectory(currentPath,
    relativePath, queue)], with what is behind [currentPath]. *)
Record Task := { currentPath : string; relativePath : string; behind : Node }.

(** An element of [fileStats], with what is behind [itemFullPath]. *)
Record FileStat := {
  itemFullPath : string;
  itemRelativePath : string;
  fstat : option Stats;
  fcontent : option Buffer;
  farrival : Arrival
}.

(** A pending [_getFileStat] promise: waiting for [fs.promises.stat], or
    for [_calculateFileHash]. *)
Inductive Job :=
| AwaitStat (f : FileStat)
| AwaitHash (f : FileStat) (fileSize : Z).

(** Where a started [_processDirectory] call is suspended: at
    [await readdir], at [await Promise.all(promises)] of the batch that
    starts at index [i], or returned (its [finally] callback is due). *)
Inductive Phase :=
| Readdir
| Batches (fileStats : list FileStat) (i : Z) (promises : list Job)
| Returned.

Record Running := { task : Task; phase : Phase }.

(** The closure variables of [_scanWithConcurrencyQueue], the scanner
    itself, and the promises in flight. *)
Record Loop := {
  this : Scanner;
  queue : list Task;
  activePromises : Z;
  running : list Running;
  finished : bool
}.

Definition readdir (n : Node) : option (list (string * Node)) :=
  match n with
  | Dir listing => listing
  | _ => None
  end.

(** The loop over [items]: directories become queued tasks, regular files
    go to [fileStats], anything else is ignored. *)
Definition subdirectories (t : Task) (items : list (string * Node))
  : list Task :=
  flat_map (fun item =>
    match snd item with
    | Dir _ =>
        [ {| currentPath := path_join (currentPath t) (fst item);
             relativePath := path_join (relativePath t) (fst item);
             behind := snd item |} ]
    | _ => []
    end) items.

Definition regular_files (t : Task) (items : list (string * Node))
  : list FileStat :=
  flat_map (fun item =>
    match snd item with
    | File st content arrival =>
        [ {| itemFullPath := path_join (currentPath t) (fst item);
             itemRelativePath := path_join (relativePath t) (fst item);
             fstat := st; fcontent := content; farrival := arrival |} ]
    | _ => []
    end) items.

(** [Array.prototype.slice(from, to)]; negative indices count from the
    end. *)
Definition js_index (len k : Z) : Z :=
  if k <? 0 then Z.max (len + k) 0 else Z.min k len.

Definition js_slice {A : Type} (l : list A) (from to : Z) : list A :=
  let len := Z.of_nat (length l) in
  let a := js_index len from in
  let b := js_index len to in
  firstn (Z.to_nat (b - a)) (skipn (Z.to_nat a) l).

(** The head of the loop of [_processFilesInBatches] at index [i]: either
    the stats of the next batch are issued, or the loop (and with it
    [_processDirectory]) returns. *)
Definition batch_at (o : Options) (fileStats : list FileStat) (i : Z)
  : Phase :=
  if i <? Z.of_nat (length fileStats)
  then Batches fileStats i
         (map AwaitStat (js_slice fileStats i (i + batchSize o)))
  else Returned.

Definition counted (s : ScanStats) (active : Z) : ScanStats :=
  {| directoriesScanned := directoriesScanned s;
     filesScanned := filesScanned s;
     concurrentOperations := active;
     maxConcurrent := Z.max (maxConcurrent s) active;
     filesWithHash := filesWithHash s;
     duplicateCount := duplicateCount s;
     hashErrors := hashErrors s |}.

(** The [while] loop of [processQueue]. *)
Fixpoint processQueue_loop (maxC : Z) (q : list Task) (active : Z)
    (s : ScanStats) (started : list Running)
  : list Task * Z * ScanStats * list Running :=
  match q with
  | [] => (q, active, s, started)
  | t :: q' =>
      if active <? maxC then
        processQueue_loop maxC q' (active + 1) (counted s (active + 1))
          (started ++ [ {| task := t; phase := Readdir |} ])
      else (q, active, s, started)
  end.

Definition processQueue (L : Loop) : Loop :=
  let '(q, active, s, started) :=
    processQueue_loop (maxConcurrency (options (this L))) (queue L)
      (activePromises L) (stats (this L)) (running L) in
  {| this := with_stats (this L) s; queue := q; activePromises := active;
     running := started; finished := finished L |}.

(** [fs.promises.stat] settles inside [_getFileStat]. *)
Definition stat_settled (sc : Scanner) (f : FileStat)
  : Scanner * option Job :=
  match fstat f with
  | None => (console_warn sc (CannotStatFile (itemRelativePath f)), None)
  | Some st =>
      let sc1 := _addFileInfo sc (itemRelativePath f) st in
      let s := stats sc1 in
      let sc2 := with_stats sc1
        {| directoriesScanned := directoriesScanned s;
           filesScanned := filesScanned s + 1;
           concurrentOperations := concurrentOperations s;
           maxConcurrent := maxConcurrent s;
           filesWithHash := filesWithHash s;
           duplicateCount := duplicateCount s;
           hashErrors := hashErrors s |} in
      (sc2, if enableHash (options sc) then Some (AwaitHash f (size st))
            else None)
  end.

(** The digest [_calculateFileHash] awaits: the whole file up to the
    threshold, three windows above it.  [None] is a rejected promise. *)
Definition awaited_digest (o : Options) (f : FileStat) (fileSize : Z)
  : option string :=
  if fileSize <=? hashThreshold o then _calculateFullHash (fcontent f)
  else _calculateSampledHash (hashSampleSize o) (fcontent f) (farrival f)
         fileSize.

(** [_calculateFileHash], from the moment its digest promise settles. *)
Definition _calculateFileHash (sc : Scanner) (f : FileStat) (fileSize : Z)
  : Scanner :=
  let o := options sc in
  let s := stats sc in
  match awaited_digest o f fileSize with
  | Some h =>
      let sc1 :=
        {| options := o; fileMap := fileMap sc;
           filesByCreateTime := filesByCreateTime sc;
           hashMap :=
             JsMap.set (hashMap sc) (itemRelativePath f)
               {| hash := h;
                  method := if fileSize <=? hashThreshold o
                            then full else sampled |};
           duplicateFiles := duplicateFiles sc;
           totalFiles := totalFiles sc; totalSize := totalSize sc;
           stats :=
             {| directoriesScanned := directoriesScanned s;
                filesScanned := filesScanned s;
                concurrentOperations := concurrentOperations s;
                maxConcurrent := maxConcurrent s;
                filesWithHash := filesWithHash s + 1;
                duplicateCount := duplicateCount s;
                hashErrors := hashErrors s |};
           console := console sc |} in
      _checkDuplicateFiles sc1 (itemRelativePath f) h
  | None =>
      with_stats (console_warn sc (HashFailed (itemRelativePath f)))
        {| directoriesScanned := directoriesScanned s;
           filesScanned := filesScanned s;
           concurrentOperations := concurrentOperations s;
           maxConcurrent := maxConcurrent s;
           filesWithHash := filesWithHash s;
           duplicateCount := duplicateCount s;
           hashErrors := hashErrors s + 1 |}
  end.

(** The awaited operation of a job settles. *)
Definition job_settled (sc : Scanner) (j : Job) : Scanner * option Job :=
  match j with
  | AwaitStat f => stat_settled sc f
  | AwaitHash f fileSize => (_calculateFileHash sc f fileSize, None)
  end.

(** [readdir] settles inside [_processDirectory]: the scanner, the tasks
    pushed on the queue, and where the call is suspended next. *)
Definition readdir_settled (sc : Scanner) (t : Task)
  : Scanner * list Task * Phase :=
  match readdir (behind t) with
  | None => (console_warn sc (CannotReadDirectory (currentPath t)), [], Returned)
  | Some items =>
      let s := stats sc in
      let sc1 := with_stats sc
        {| directoriesScanned := directoriesScanned s + 1;
           filesScanned := filesScanned s;
           concurrentOperations := concurrentOperations s;
           maxConcurrent := maxConcurrent s;
           filesWithHash := filesWithHash s;
           duplicateCount := duplicateCount s;
           hashErrors := hashErrors s |} in
      (sc1, subdirectories t items,
       batch_at (options sc) (regular_files t items) 0)
  end.

(** The element of index [i] modulo the length, with what surrounds it. *)
Definition pick {A : Type} (i : nat) (l : list A)
  : option (list A * A * list A) :=
  let k := (i mod length l)%nat in
  match skipn k l with
  | x :: post => Some (firstn k l, x, post)
  | [] => None
  end.

(** The [finally] callback of a returned task. *)
Definition task_settled (L : Loop) (others : list Running) : Loop :=
  let L1 := processQueue
    {| this := this L; queue := queue L;
       activePromises := activePromises L - 1;
       running := others; finished := finished L |} in
  {| this := this L1; queue := queue L1;
     activePromises := activePromises L1; running := running L1;
     finished :=
       finished L1
       || ((activePromises L1 =? 0) && (Z.of_nat (length (queue L1)) =? 0)) |}.

(** One turn of the event loop.  The environment chooses which pending
    operation completes: [fst c] selects a started task and [snd c] one
    of the promises of its current batch. *)
Definition step (c : nat * nat) (L : Loop) : Loop :=
  match pick (fst c) (running L) with
  | None => L
  | Some (pre, r, post) =>
      let continue sc q ph :=
        {| this := sc; queue := q; activePromises := activePromises L;
           running := pre ++ {| task := task r; phase := ph |} :: post;
           finished := finished L |} in
      match phase r with
      | Readdir =>
          let '(sc, pushed, ph) := readdir_settled (this L) (task r) in
          continue sc (queue L ++ pushed) ph
      | Batches fileStats i promises =>
          match pick (snd c) promises with
          | None =>
              continue (this L) (queue L)
                (batch_at (options (this L)) fileStats
                   (i + batchSize (options (this L))))
          | Some (before, j, after) =>
              let '(sc, j') := job_settled (this L) j in
              continue sc (queue L)
                (Batches fileStats i
                   (before ++ match j' with Some x => [x] | None => [] end
                           ++ after))
          end
      | Returned => task_settled L (pre ++ post)
      end
  end.

(** A schedule gives the choice of the environment at every turn. *)
Definition Schedule := nat -> nat * nat.

(** [fuel] turns of the event loop, the first of them being turn [k] of
    the schedule.  Once nothing is in flight a turn changes nothing. *)
Fixpoint run (sched : Schedule) (fuel k : nat) (L : Loop) : Loop :=
  match fuel with
  | O => L
  | S fuel' => run sched fuel' (S k) (step (sched k) L)
  end.

(** What a choice of the environment designates: the pending operation
    that completes at this turn. *)
Inductive Event :=
| ReaddirSettled (t : Task)
| JobSettled (j : Job)
| BatchSettled
| TaskSettled
| Idle.

Definition event (c : nat * nat) (L : Loop) : Event :=
  match pick (fst c) (running L) with
  | None => Idle
  | Some (_, r, _) =>
      match phase r with
      | Readdir => ReaddirSettled (task r)
      | Batches _ _ promises =>
          match pick (snd c) promises with
          | None => BatchSettled
          | Some (_, j, _) => JobSettled j
          end
      | Returned => TaskSettled
      end
  end.

(** The error an event recovers from, as the warning it prints. *)
Definition recovered (o : Options) (e : Event) : option Warning :=
  match e with
  | ReaddirSettled t =>
      match readdir (behind t) with
      | None => Some (CannotReadDirectory (currentPath t))
      | Some _ => None
      end
  | JobSettled (AwaitStat f) =>
      match fstat f with
      | None => Some (CannotStatFile (itemRelativePath f))
      | Some _ => None
      end
  | JobSettled (AwaitHash f fileSize) =>
      match awaited_digest o f fileSize with
      | None => Some (HashFailed (itemRelativePath f))
      | Some _ => None
      end
  | _ => None
  end.

(** The path and digest of the file an event finishes hashing. *)
Definition hashed (o : Options) (e : Event) : option (string * string) :=
  match e with
  | JobSettled (AwaitHash f fileSize) =>
      match awaited_digest o f fileSize with
      | Some h => Some (itemRelativePath f, h)
      | None => None
      end
  | _ => None
  end.

(** The events of [fuel] turns, from turn [k] of the schedule. *)
Fixpoint events (sched : Schedule) (fuel k : nat) (L : Loop) : list Event :=
  match fuel with
  | O => []
  | S fuel' =>
      event (sched k) L :: events sched fuel' (S k) (step (sched k) L)
  end.

(** [queue.push(root task); processQueue()]. *)
Definition start (sc : Scanner) (rootDir : string) (root : Node) : Loop :=
  processQueue
    {| this := sc;
       queue := [ {| currentPath := rootDir; relativePath := "";
                     behind := root |} ];
       activePromises := 0; running := []; finished := false |}.

(** ** Result aggregation *)

(** [Array.prototype.sort(compare)].  ECMAScript requires the sort to be
    stable; for a consistent comparator the outcome is then determined, and
    a stable insertion sort computes it. *)
Section Sort.
Context {A : Type} (compare : A -> A -> Z).

Fixpoint sort_insert (x : A) (l : list A) : list A :=
  match l with
  | [] => [x]
  | y :: l' =>
      if compare x y <=? 0 then x :: l else y :: sort_insert x l'
  end.

Definition Array_sort (l : list A) : list A :=
  fold_right sort_insert [] l.
End Sort.

(** The comparator of both sorts: [a.createTime.getTime() -
    b.createTime.getTime()]. *)
Definition byCreateTime (a b : FileInfo) : Z := createTime a - createTime b.

(** [_quickSortByTime]: it returns a new array and leaves [arr] as it is.
    [fuel] bounds the depth of the recursion. *)
Fixpoint _quickSortByTime_depth (fuel : nat) (arr : list FileInfo)
  : list FileInfo :=
  match fuel with
  | O => arr
  | S fuel' =>
      if (length arr <=? 1)%nat then arr
      else
        match nth_error arr (length arr / 2)%nat with
        | None => arr
        | Some pivot =>
            let left := filter (fun file => byCreateTime file pivot <? 0) arr in
            let right := filter (fun file => byCreateTime file pivot >? 0) arr in
            let equal := filter (fun file => byCreateTime file pivot =? 0) arr in
            _quickSortByTime_depth fuel' left ++ equal
              ++ _quickSortByTime_depth fuel' right
        end
  end.

Definition _quickSortByTime (arr : list FileInfo) : list FileInfo :=
  _quickSortByTime_depth (length arr) arr.

Definition is_quick (o : Options) : bool :=
  match sortAlgorithm o with
  | Some name => String.eqb name "quick"
  | None => false
  end.

(** [_sortFilesByCreateTime].  In the quick branch the sorted copy is
    computed and dropped: [filesArray] itself is what is stored. *)
Definition _sortFilesByCreateTime (sc : Scanner) : Scanner :=
  let filesArray := JsMap.values (fileMap sc) in
  let filesArray' :=
    if is_quick (options sc)
    then let _dropped := _quickSortByTime filesArray in filesArray
    else Array_sort byCreateTime filesArray in
  {| options := options sc; fileMap := fileMap sc;
     filesByCreateTime := filesArray'; hashMap := hashMap sc;
     duplicateFiles := duplicateFiles sc; totalFiles := totalFiles sc;
     totalSize := totalSize sc; stats := stats sc; console := console sc |}.

(** The object [_getScanResults] returns, without its durations and
    formatted strings: the totals and a copy of the counters.  It has no
    other field. *)
Record ScanResult := {
  res_totalFiles : Z;
  res_totalSize : Z;
  res_stats : ScanStats
}.

Definition _getScanResults (sc : Scanner) : ScanResult :=
  {| res_totalFiles := totalFiles sc; res_totalSize := totalSize sc;
     res_stats := stats sc |}.

(** How the promise of [scanDirectory] ends: resolved with the result
    (the scanner is kept for the queries), rejected, or never settled. *)
Inductive Outcome :=
| Resolved (result : ScanResult) (scanner : Scanner)
| Rejected
| Pending.

(** [scanDirectory(rootDir)] on the scanner [sc], under a schedule.  [None]
    means that [fuel] turns of the event loop did not settle the
    traversal.  No path leads to [Rejected]: [_processDirectory] catches
    every error, so [rejectFinish] is never called. *)
Definition scanDirectory (sched : Schedule) (fuel : nat) (sc : Scanner)
    (rootDir : string) (root : Node) : option Outcome :=
  let L := run sched fuel 0 (start (_resetStats sc) rootDir root) in
  if finished L then
    let sc' := _sortFilesByCreateTime (this L) in
    Some (Resolved (_getScanResults sc') sc')
  else
    match running L with
    | [] => Some Pending
    | _ => None
    end.

(** ** Queries *)

(** [getFilesByTimeRange(startTime, endTime)]; the arguments are
    [new Date(startTime).getTime()] and [new Date(endTime).getTime()],
    [None] for [NaN]. *)
Definition getFilesByTimeRange (sc : Scanner) (start end_ : option Z)
  : list FileInfo :=
  filter (fun file =>
    let fileTime := createTime file in
    match start, end_ with
    | Some s, Some e => (fileTime >=? s) && (fileTime <=? e)
    | _, _ => false
    end) (filesByCreateTime sc).

(** [getFileHash(filePath)]; [None] is [undefined]. *)
Definition getFileHash (sc : Scanner) (filePath : string)
  : option HashRecord :=
  JsMap.get (hashMap sc) filePath.

(** [getFilesByHash(hash)]: [this.duplicateFiles.get(hash) || []]; an
    array is never falsy. *)
Definition getFilesByHash (sc : Scanner) (h : string) : list string :=
  match JsMap.get (duplicateFiles sc) h with
  | Some files => files
  | None => []
  end.

(** The groups [getAllDuplicateFiles] reports: more than one member. *)
Definition duplicate_groups (sc : Scanner) : list (string * list string) :=
  filter (fun g => (1 <? length (snd g))%nat) (duplicateFiles sc).

(** ** The event loop as a transition relation *)

Definition after_job (j' : option Job) : list Job :=
  match j' with Some x => [x] | None => [] end.

Definition resume (L : Loop) (sc : Scanner) (q : list Task)
    (pre : list Running) (t : Task) (ph : Phase) (post : list Running)
  : Loop :=
  {| this := sc; queue := q; activePromises := activePromises L;
     running := pre ++ {| task := t; phase := ph |} :: post;
     finished := finished L |}.

(** [turn L L']: some pending operation of [L] completes and its
    continuation runs up to the next [await].  Every schedule is a sequence
    of such turns. *)
Inductive turn (L : Loop) : Loop -> Prop :=
| turn_readdir pre r post sc pushed ph :
    running L = pre ++ r :: post ->
    phase r = Readdir ->
    readdir_settled (this L) (task r) = (sc, pushed, ph) ->
    turn L (resume L sc (queue L ++ pushed) pre (task r) ph post)
| turn_job pre r post fileStats i before j after sc j' :
    running L = pre ++ r :: post ->
    phase r = Batches fileStats i (before ++ j :: after) ->
    job_settled (this L) j = (sc, j') ->
    turn L (resume L sc (queue L) pre (task r)
              (Batches fileStats i (before ++ after_job j' ++ after)) post)
| turn_batch pre r post fileStats i :
    running L = pre ++ r :: post ->
    phase r = Batches fileStats i [] ->
    turn L (resume L (this L) (queue L) pre (task r)
              (batch_at (options (this L)) fileStats
                 (i + batchSize (options (this L)))) post)
| turn_settle pre r post :
    running L = pre ++ r :: post ->
    phase r = Returned ->
    turn L (task_settled L (pre ++ post)).

(** ** Measures used by the proofs *)

(** Turns a queued directory can still cause: its own [readdir] and
    [finally], three per regular file, and those of its subdirectories. *)
Fixpoint weight (n : Node) : nat :=
  match n with
  | Dir (Some items) =>
      5 + (fix entries (l : list (string * Node)) : nat :=
             match l with
             | [] => 0
             | item :: l' =>
                 match snd item with
                 | Dir _ => weight (snd item)
                 | File _ _ _ => 3
                 | Other => 0
                 end + entries l'
             end) items
  | _ => 2
  end%nat.

Definition job_weight (j : Job) : nat :=
  match j with AwaitStat _ => 2 | AwaitHash _ _ => 1 end%nat.

Definition phase_weight (o : Options) (t : Task) (ph : Phase) : nat :=
  match ph with
  | Readdir => weight (behind t)
  | Batches fileStats i promises =>
      list_sum (map job_weight promises) + 2
      + 3 * Z.to_nat (Z.of_nat (length fileStats) - i - batchSize o)
  | Returned => 1
  end%nat.

Definition loop_weight (L : Loop) : nat :=
  (list_sum (map (fun t => weight (behind t)) (queue L))
   + list_sum (map (fun r => phase_weight (options (this L)) (task r)
                               (phase r)) (running L)))%nat.

(** Paths that sit in a group of at least two members. *)
Definition group_weight (files : list string) : Z :=
  if (2 <=? length files)%nat then Z.of_nat (length files) else 0.

Definition duplicate_paths (m : JsMap.t (list string)) : Z :=
  fold_right (fun g acc => group_weight (snd g) + acc) 0 m.

(** Number of failed hashes among the warnings. *)
Definition hash_failures (ws : list Warning) : Z :=
  Z.of_nat (length (filter (fun w =>
    match w with HashFailed _ => true | _ => false end) ws)).

(** Any number of turns. *)
Inductive turns (L : Loop) : Loop -> Prop :=
| turns_refl : turns L L
| turns_step L' L'' : turns L L' -> turn L' L'' -> turns L L''.

(** The pool bound: the counter is the number of promises in flight, and
    neither it nor the recorded peak exceeds [maxConcurrency]. *)
Definition pool_bounded (L : Loop) : Prop :=
  activePromises L = Z.of_nat (length (running L))
  /\ activePromises L <= maxConcurrency (options (this L))
  /\ maxConcurrent (stats (this L)) <= maxConcurrency (options (this L)).

(** ** Reading digests back *)

Definition lower_hex (s : string) : bool :=
  forallb is_lower_hex (list_ascii_of_string s).

Definition digit_value (c : ascii) : Z :=
  (fix index (l : list ascii) (i : Z) : Z :=
     match l with
     | [] => 0
     | c' :: l' => if Ascii.eqb c c' then i else index l' (i + 1)
     end) (list_ascii_of_string "0123456789abcdef") 0.

(** The number a hexadecimal numeral denotes. *)
Definition hex_value (s : string) : Z :=
  fold_left (fun acc c => 16 * acc + digit_value c) (list_ascii_of_string s) 0.
Definition group_of (m : JsMap.t (list string)) (h : string) : list string :=
  match JsMap.get m h with Some files => files | None => [] end.

Definition count_consistent (sc : Scanner) : Prop :=
  duplicateCount (stats sc) = duplicate_paths (duplicateFiles sc).

Definition to_list {A : Type} (o : option A) : list A :=
  match o with Some x => [x] | None => [] end.

(** The warnings a sequence of events prints, in order. *)
Definition warnings_of (o : Options) (evs : list Event) : list Warning :=
  flat_map (fun e => to_list (recovered o e)) evs.

(** The paths a sequence of events hashes to digest [d], in order. *)
Definition hashed_to (o : Options) (d : string) (evs : list Event)
  : list string :=
  flat_map (fun e =>
    match hashed o e with
    | Some (p, h) => if String.eqb h d then [p] else []
    | None => []
    end) evs.

Definition queue_weight (q : list Task) : nat :=
  list_sum (map (fun t => weight (behind t)) q).

Definition running_weight (o : Options) (rs : list Running) : nat :=
  list_sum (map (fun r => phase_weight o (task r) (phase r)) rs).

(** Indices of batches never go negative. *)
Definition phase_ok (ph : Phase) : Prop :=
  match ph with
  | Batches _ i _ => 0 <= i
  | _ => True
  end.

Definition enter (t : Task) : Running := {| task := t; phase := Readdir |}.

(** What the proof of quiescence maintains. *)
Definition live (L : Loop) : Prop :=
  activePromises L = Z.of_nat (length (running L))
  /\ Forall (fun r => phase_ok (phase r)) (running L)
  /\ (running L = [] -> finished L = true).

(** Order by a key, and the order of the sorted listing. *)
Definition ordered_by {A : Type} (key : A -> Z) (a b : A) : Prop :=
  key a <= key b.

Definition earlier : FileInfo -> FileInfo -> Prop := ordered_by createTime.

Definition digits_value (l : list ascii) : Z :=
  fold_left (fun acc c => 16 * acc + digit_value c) l 0.

(** ** What the spec asks of the result, as predicates *)

(** The order the spec describes for the sorted listing: creation time,
    then path. *)
Definition by_time_then_path (a b : FileInfo) : Prop :=
  createTime a < createTime b
  \/ (createTime a = createTime b /\ String.leb (path a) (path b) = true).

(** [warnings] reads, from the returned result alone, the warnings of the
    scan that produced it. *)
Definition result_reports (warnings : ScanResult -> list Warning) : Prop :=
  forall sched fuel o rootDir root result sc',
    scanDirectory sched fuel (new_scanner o) rootDir root
    = Some (Resolved result sc') ->
    warnings result = console sc'.

(** ** Concrete inputs *)

(** The schedule that always serves the oldest pending operation. *)
Definition serial : Schedule := fun _ => (0%nat, 0%nat).

(** A schedule that serves the pending operations in another order. *)
Definition shuffled : Schedule := fun k => (k, 3 * k + 1)%nat.

(** The options of [testHighPerformance()], with the default pool size:
    hashing on. *)
Definition hashing_options : Options :=
  {| maxConcurrency := 200; batchSize := 50;
     hashThreshold := 10 * 1024; hashSampleSize := 2 * 1024;
     enableHash := true; sortAlgorithm := None |}.

Definition quick_options : Options :=
  {| maxConcurrency := 200; batchSize := 50;
     hashThreshold := 10 * 1024; hashSampleSize := 2 * 1024;
     enableHash := false; sortAlgorithm := Some "quick" |}.

(** A readable file of [n] bytes [b], created at time [t]. *)
Definition regular (n : Z) (b : byte) (t : Z) : Node :=
  File (Some {| size := n; birthtime := t; mtime := t; atime := t |})
       (Some (repeat b (Z.to_nat n))) HMT.

(** Three files of 1 KiB, 5 KiB and 50 KiB, and a copy of the first in a
    subdirectory. *)
Definition four_files : Node :=
  Dir (Some [ ("a.bin", regular 1024 "a" 30);
              ("b.bin", regular 5120 "b" 20);
              ("c.bin", regular 51200 "c" 10);
              ("sub", Dir (Some [ ("a_copy.bin", regular 1024 "a" 40) ])) ]).

(** Two files of zeros that differ in size only. *)
Definition zero_file (name : string) (n : Z) (arrival : Arrival) : FileStat :=
  {| itemFullPath := path_join "root" name; itemRelativePath := name;
     fstat := Some {| size := n; birthtime := 0; mtime := 0; atime := 0 |};
     fcontent := Some (Buffer_alloc n); farrival := arrival |}.

Definition two_sizes : Node :=
  Dir (Some [ ("small.bin", regular 20000 x00 1);
              ("large.bin", regular 30000 x00 2) ]).

Definition locked_subdirectory : Node := Dir (Some [ ("locked", Dir None) ]).

Definition empty_directory : Node := Dir (Some []).

Definition same_time : Node :=
  Dir (Some [ ("b.txt", regular 1 "b" 5); ("a.txt", regular 1 "a" 5) ]).

Definition newest_first : Node :=
  Dir (Some [ ("new.txt", regular 1 "n" 2); ("old.txt", regular 1 "o" 1) ]).

Definition one_clip : Node := Dir (Some [ ("clip.mp4", regular 3 "v" 100) ]).

Definition ascii_bytes (s : string) : Buffer := list_byte_of_string s.

(** ** The tree below a directory task *)

(** The task [_scanWithConcurrencyQueue] queues for the root. *)
Definition root_task (rootDir : string) (root : Node) : Task :=
  {| currentPath := rootDir; relativePath := ""; behind := root |}.

(** The directory tasks a traversal that starts at a node creates: the
    one of the node itself and, when the node can be listed, those of the
    directories below it. *)
Fixpoint tasks_below (cur rel : string) (n : Node) : list Task :=
  {| currentPath := cur; relativePath := rel; behind := n |}
  :: match n with
     | Dir (Some items) =>
         (fix entries (l : list (string * Node)) : list Task :=
            match l with
            | [] => []
            | item :: l' =>
                match snd item with
                | Dir _ =>
                    tasks_below (path_join cur (fst item))
                      (path_join rel (fst item)) (snd item)
                | _ => []
                end ++ entries l'
            end) items
     | _ => []
     end.

(** The regular files in the directories that can be listed, as the
    entries of [fileStats] the traversal creates for them. *)
Fixpoint files_below (cur rel : string) (n : Node) : list FileStat :=
  match n with
  | Dir (Some items) =>
      (fix entries (l : list (string * Node)) : list FileStat :=
         match l with
         | [] => []
         | item :: l' =>
             match snd item with
             | Dir _ =>
                 files_below (path_join cur (fst item))
                   (path_join rel (fst item)) (snd item)
             | File st content arrival =>
                 [ {| itemFullPath := path_join cur (fst item);
                      itemRelativePath := path_join rel (fst item);
                      fstat := st; fcontent := content;
                      farrival := arrival |} ]
             | Other => []
             end ++ entries l'
         end) items
  | _ => []
  end.

Definition tasks_under (t : Task) : list Task :=
  tasks_below (currentPath t) (relativePath t) (behind t).

Definition files_under (t : Task) : list FileStat :=
  files_below (currentPath t) (relativePath t) (behind t).

(** The sum of a quantity over a list. *)
Definition total {A : Type} (mu : A -> Z) (l : list A) : Z :=
  fold_right (fun x acc => mu x + acc) 0 l.

(** The operations one file still causes: its [stat] and, when that
    succeeds with hashing on, its digest. *)
Definition job_events (o : Options) (f : FileStat) : list Event :=
  JobSettled (AwaitStat f)
  :: match fstat f with
     | Some st =>
         if enableHash o then [JobSettled (AwaitHash f (size st))] else []
     | None => []
     end.

(** The operations a directory task still causes once queued. *)
Definition work_below (o : Options) (t : Task) : list Event :=
  map ReaddirSettled (tasks_under t) ++ flat_map (job_events o) (files_under t).

Definition pending_job (o : Options) (j : Job) : list Event :=
  match j with
  | AwaitStat f => job_events o f
  | AwaitHash _ _ => [JobSettled j]
  end.

Definition pending_phase (o : Options) (t : Task) (ph : Phase) : list Event :=
  match ph with
  | Readdir => work_below o t
  | Batches fileStats i promises =>
      flat_map (pending_job o) promises
      ++ flat_map (job_events o)
           (skipn (Z.to_nat (i + batchSize o)) fileStats)
  | Returned => []
  end.

(** The operations that have not completed yet. *)
Definition pending (L : Loop) : list Event :=
  flat_map (work_below (options (this L))) (queue L)
  ++ flat_map (fun r => pending_phase (options (this L)) (task r) (phase r))
       (running L).

(** A quantity that only completed operations carry. *)
Definition on_work (mu : Event -> Z) : Prop :=
  mu BatchSettled = 0 /\ mu TaskSettled = 0 /\ mu Idle = 0.

(** The files of the tree whose [stat] succeeds, and the directories that
    can be listed. *)
Definition stat_ok (f : FileStat) : bool :=
  match fstat f with Some _ => true | None => false end.

Definition stat_size (f : FileStat) : Z :=
  match fstat f with Some st => size st | None => 0 end.

Definition listable (t : Task) : bool :=
  match readdir (behind t) with Some _ => true | None => false end.

Definition found_files (rootDir : string) (root : Node) : list FileStat :=
  filter stat_ok (files_under (root_task rootDir root)).

Definition listed_directories (rootDir : string) (root : Node) : list Task :=
  filter listable (tasks_under (root_task rootDir root)).

(** The digest a found file obtains in the scan, when hashing succeeds;
    for a sampled file it depends on the arrival its node records. *)
Definition digest_of (o : Options) (f : FileStat) : option string :=
  awaited_digest o f (stat_size f).

(** A quantity of the completed operations, by kind: the listing of a
    directory, the [stat] of a file, the digest of a file. *)
Definition measure (dir : Task -> Z) (st : FileStat -> Z)
    (hs : FileStat -> Z -> Z) (e : Event) : Z :=
  match e with
  | ReaddirSettled t => dir t
  | JobSettled (AwaitStat f) => st f
  | JobSettled (AwaitHash f fileSize) => hs f fileSize
  | _ => 0
  end.

(** What the digest of a file adds, when the file is hashed at all. *)
Definition when_hashed (o : Options) (hs : FileStat -> Z -> Z) (f : FileStat)
  : Z :=
  match fstat f with
  | Some st => if enableHash o then hs f (size st) else 0
  | None => 0
  end.

Definition indicator (b : bool) : Z := if b then 1 else 0.

Definition is_some {A : Type} (o : option A) : bool :=
  match o with Some _ => true | None => false end.

(** The files whose digest is obtained, and those whose digest fails. *)
Definition hashed_files (o : Options) (rootDir : string) (root : Node)
  : list FileStat :=
  if enableHash o
  then filter (fun f => is_some (digest_of o f)) (found_files rootDir root)
  else [].

Definition unhashed_files (o : Options) (rootDir : string) (root : Node)
  : list FileStat :=
  if enableHash o
  then filter (fun f => negb (is_some (digest_of o f)))
         (found_files rootDir root)
  else [].

(** The warning a directory of the tree causes, and the one a file
    causes. *)
Definition directory_warning (t : Task) : list Warning :=
  if listable t then [] else [CannotReadDirectory (currentPath t)].

Definition file_warning (o : Options) (f : FileStat) : list Warning :=
  match fstat f with
  | None => [CannotStatFile (itemRelativePath f)]
  | Some st =>
      if enableHash o then
        match awaited_digest o f (size st) with
        | Some _ => []
        | None => [HashFailed (itemRelativePath f)]
        end
      else []
  end.

Definition expected_warnings (o : Options) (rootDir : string) (root : Node)
  : list Warning :=
  flat_map directory_warning (tasks_under (root_task rootDir root))
  ++ flat_map (file_warning o) (files_under (root_task rootDir root)).

(** The files of the tree that hash to a given digest. *)
Definition has_digest (o : Options) (d : string) (f : FileStat) : bool :=
  match digest_of o f with
  | Some h => String.eqb h d
  | None => false
  end.

Definition files_with_digest (o : Options) (d : string) (rootDir : string)
    (root : Node) : list FileStat :=
  if enableHash o then filter (has_digest o d) (found_files rootDir root)
  else [].

(** The entry [_addFileInfo] stores for a file, and the one
    [_calculateFileHash] stores. *)
Definition file_entry (f : FileStat) : list (string * FileInfo) :=
  match fstat f with
  | Some st =>
      [ (itemRelativePath f,
         {| path := itemRelativePath f; fsize := size st;
            createTime := birthtime st; modifyTime := mtime st;
            accessTime := atime st |}) ]
  | None => []
  end.

Definition hash_entry (o : Options) (f : FileStat) (fileSize : Z)
  : list (string * HashRecord) :=
  match awaited_digest o f fileSize with
  | Some h =>
      [ (itemRelativePath f,
         {| hash := h;
            method := if fileSize <=? hashThreshold o then full else sampled |}) ]
  | None => []
  end.

Definition expected_fileMap (rootDir : string) (root : Node)
  : list (string * FileInfo) :=
  flat_map file_entry (files_under (root_task rootDir root)).

Definition expected_hashMap (o : Options) (rootDir : string) (root : Node)
  : list (string * HashRecord) :=
  if enableHash o
  then flat_map (fun f => hash_entry o f (stat_size f))
         (found_files rootDir root)
  else [].

(** [map.set] for each entry of a list, in order. *)
Definition set_all {V : Type} (m : JsMap.t V) (l : list (string * V))
  : JsMap.t V :=
  fold_left (fun m e => JsMap.set m (fst e) (snd e)) l m.

(** A tree with two readable files, a file whose [stat] fails, a
    directory that cannot be listed and an entry that is neither a file
    nor a directory. *)
Definition mixed_tree : Node :=
  Dir (Some [ ("a.txt", regular 3 "a" 5);
              ("gone.txt", File None None HMT);
              ("locked", Dir None);
              ("sub", Dir (Some [ ("b.txt", regular 4 "b" 6) ]));
              ("pipe", Other) ]).

(** Two files whose sizes add up to more than [2^53]; their contents are
    not read. *)
Definition huge_files : Node :=
  Dir (Some [ ("huge.bin",
               File (Some {| size := 2 ^ 53; birthtime := 1; mtime := 1;
                             atime := 1 |}) None HMT);
              ("one.bin",
               File (Some {| size := 1; birthtime := 2; mtime := 2;
                             atime := 2 |}) None HMT) ]).

(** What the completed operations contribute to a list, by kind. *)
Definition measure_list {Y : Type} (dir : Task -> list Y)
    (st : FileStat -> list Y) (hs : FileStat -> Z -> list Y) (e : Event)
  : list Y :=
  match e with
  | ReaddirSettled t => dir t
  | JobSettled (AwaitStat f) => st f
  | JobSettled (AwaitHash f fileSize) => hs f fileSize
  | _ => []
  end.

(** Two copies of a three-byte file, in different directories, and a file
    that can be stat'ed but not read. *)
Definition twins : Node :=
  Dir (Some [ ("a.txt", regular 3 "a" 5);
              ("sub", Dir (Some [ ("a2.txt", regular 3 "a" 6) ]));
              ("sealed.txt",
               File (Some {| size := 3; birthtime := 7; mtime := 7;
                             atime := 7 |}) None HMT) ]).

(** Once the traversal has finished nothing is queued or in flight. *)
Definition settled (L : Loop) : Prop :=
  finished L = true -> queue L = [] /\ running L = [].

(** ** File operations in flight *)

(** The [_getFileStat] promises a directory task is waiting for. *)
Definition file_jobs (ph : Phase) : list Job :=
  match ph with
  | Batches _ _ promises => promises
  | _ => []
  end.

Definition jobs_in_flight (L : Loop) : Z :=
  total (fun r => Z.of_nat (length (file_jobs (phase r)))) (running L).

(** Every batch in flight is within [batchSize]. *)
Definition batches_bounded (L : Loop) : Prop :=
  Forall (fun r =>
    phase_ok (phase r)
    /\ Z.of_nat (length (file_jobs (phase r)))
       <= batchSize (options (this L))) (running L).

(** ** Further queries *)

(** The comparator of [getLargestFiles]: [b.size - a.size]. *)
Definition bySizeDescending (a b : FileInfo) : Z := fsize b - fsize a.

(** [getLargestFiles(count = 10)]: a copy of the values of the file map,
    sorted by decreasing size and cut by [slice(0, count)]; [None] is an
    omitted argument.  Each returned object is the record of the file with
    one more field, [formattedSize], a rendering of [size] that is left
    out here. *)
Definition getLargestFiles (sc : Scanner) (count : option Z)
  : list FileInfo :=
  let count := match count with Some c => c | None => 10 end in
  js_slice (Array_sort bySizeDescending (JsMap.values (fileMap sc))) 0 count.

(** An element of [files] in a group of [getAllDuplicateFiles], without
    its [formattedSize]. *)
Record DuplicateEntry := { dpath : string; dsize : Z }.

Record DuplicateGroup := { dhash : string; dfiles : list DuplicateEntry }.

(** All the results of a list of computations, or [None] when one of them
    throws. *)
Fixpoint all_some {A : Type} (l : list (option A)) : option (list A) :=
  match l with
  | [] => Some []
  | None :: _ => None
  | Some x :: l' =>
      match all_some l' with
      | Some xs => Some (x :: xs)
      | None => None
      end
  end.

(** [this.fileMap.get(file).size] throws a [TypeError] when the file map
    has no such path. *)
Definition duplicate_entry (sc : Scanner) (file : string)
  : option DuplicateEntry :=
  match JsMap.get (fileMap sc) file with
  | Some info => Some {| dpath := file; dsize := fsize info |}
  | None => None
  end.

(** [getAllDuplicateFiles()]: one object for each digest with more than
    one path, in the order of the duplicate index; [None] is the
    [TypeError]. *)
Definition getAllDuplicateFiles (sc : Scanner) : option (list DuplicateGroup) :=
  all_some
    (map (fun g =>
            match all_some (map (duplicate_entry sc) (snd g)) with
            | Some files => Some {| dhash := fst g; dfiles := files |}
            | None => None
            end)
       (duplicate_groups sc)).

(** Every path of the duplicate index, and every path whose digest is
    awaited, is a path of the file map. *)
Definition awaited_path (j : Job) : list string :=
  match j with
  | AwaitHash f _ => [itemRelativePath f]
  | AwaitStat _ => []
  end.

Definition indexed_paths_known (L : Loop) : Prop :=
  (forall g p, In g (duplicateFiles (this L)) -> In p (snd g) ->
     JsMap.has (fileMap (this L)) p = true)
  /\ (forall r j p, In r (running L) -> In j (file_jobs (phase r)) ->
        In p (awaited_path j) -> JsMap.has (fileMap (this L)) p = true)
  /\ (forall p r, JsMap.get (hashMap (this L)) p = Some r ->
        In p (getFilesByHash (this L) (hash r))
        /\ String.length (hash r) = 32%nat).

(** The same three facts, on a scanner and the operations in flight. *)
Definition paths_known (sc : Scanner) (rs : list Running) : Prop :=
  (forall g p, In g (duplicateFiles sc) -> In p (snd g) ->
     JsMap.has (fileMap sc) p = true)
  /\ (forall r j p, In r rs -> In j (file_jobs (phase r)) ->
        In p (awaited_path j) -> JsMap.has (fileMap sc) p = true)
  /\ (forall p r, JsMap.get (hashMap sc) p = Some r ->
        In p (getFilesByHash sc (hash r))
        /\ String.length (hash r) = 32%nat).

(** ** What [calculateFastHash] reads *)

(** Whether the byte at offset [i] of a file of [fileSize] bytes is among
    those [calculateFastHash] reads: all of them below the threshold, the
    three blocks otherwise. *)
Definition sampled_offset (fileSize i : Z) : bool :=
  if fileSize <? FastHash.THRESHOLD then true
  else
    let midOffset := fileSize / 2 - FastHash.BLOCK_SIZE / 2 in
    let tailOffset := fileSize - FastHash.BLOCK_SIZE in
    (i <? FastHash.BLOCK_SIZE)
    || ((midOffset <=? i) && (i <? midOffset + FastHash.BLOCK_SIZE))
    || (tailOffset <=? i).

(** Two buffers that differ in exactly one byte. *)
Definition one_byte_apart (x y : Buffer) : Prop :=
  exists pre post b1 b2,
    b1 <> b2 /\ x = pre ++ b1 :: post /\ y = pre ++ b2 :: post.

(** ** What the sampled hash of the scanner reads *)



(** Hashing with a sample size larger than the files it is applied to. *)
Definition small_threshold_options : Options :=
  {| maxConcurrency := 200; batchSize := 50;
     hashThreshold := 10; hashSampleSize := 2 * 1024;
     enableHash := true; sortAlgorithm := None |}.

Definition readable (name : string) (content : Buffer) : FileStat :=
  {| itemFullPath := path_join "root" name; itemRelativePath := name;
     fstat := Some {| size := Z.of_nat (length content); birthtime := 0;
                      mtime := 0; atime := 0 |};
     fcontent := Some content; farrival := HMT |}.

(** ** The description of the fast hash *)

(** The bytes the description of [hash算法.md] hashes: the whole file
    below the threshold, otherwise its first, middle and last 2 KiB. *)
Definition described_bytes (content : Buffer) : Buffer :=
  let fileSize := Z.of_nat (length content) in
  if fileSize <? FastHash.THRESHOLD then content
  else
    firstn 2048 content
    ++ firstn 2048 (skipn (Z.to_nat (fileSize / 2 - 1024)) content)
    ++ skipn (Z.to_nat (fileSize - 2048)) content.

(** The digest the description gives: FNV-1a 64 from the offset basis over
    those bytes followed by the size as eight little-endian bytes, as 16
    hexadecimal digits. *)
Definition described_digest (content : Buffer) : string :=
  FastHash.render
    (FastHash.fnv1a64
       (described_bytes content ++ le_bytes 8 (Z.of_nat (length content)))
       FastHash.FNV_OFFSET_BASIS).

(** ** The root task before any task has completed *)

(** The tasks the root task pushes on the queue when its listing
    arrives. *)
Definition root_subdirectories (rootDir : string) (root : Node) : list Task :=
  match readdir root with
  | Some items => subdirectories (root_task rootDir root) items
  | None => []
  end.

(** The root task is the only one started; the directories it found, if
    its listing has arrived, are all in the queue. *)
Definition root_alone (rootDir : string) (root : Node) (L : Loop) : Prop :=
  exists ph,
    running L = [ {| task := root_task rootDir root; phase := ph |} ]
    /\ activePromises L = 1
    /\ maxConcurrent (stats (this L)) = 1
    /\ ((ph = Readdir /\ queue L = [])
        \/ (ph <> Readdir /\ queue L = root_subdirectories rootDir root)).

(** ** The duplicates of a tree *)

(** A file shares its digest when at least two files of the tree obtain
    it in the scan the tree describes (a node records the outcome of each
    system call of that scan and the arrival of the streams);
    [duplicated_files] are the files that do. *)
Definition shares_digest (o : Options) (rootDir : string) (root : Node)
    (f : FileStat) : bool :=
  match digest_of o f with
  | Some d => (2 <=? length (files_with_digest o d rootDir root))%nat
  | None => false
  end.

Definition duplicated_files (o : Options) (rootDir : string) (root : Node)
  : list FileStat :=
  if enableHash o
  then filter (shares_digest o rootDir root) (found_files rootDir root)
  else [].

(** No digest has two groups in the duplicate index. *)
Definition keys_distinct (sc : Scanner) : Prop :=
  NoDup (JsMap.keys (duplicateFiles sc)).

(** ** The bytes a hash is computed from *)

(** [w] is what the file holds from offset [start] on, over at most [len]
    bytes: its length, and each of its bytes by its offset in the file. *)
Definition bytes_at (content : Buffer) (start len : Z) (w : Buffer) : Prop :=
  Z.of_nat (length w)
  = Z.max 0 (Z.min len (Z.of_nat (length content) - start))
  /\ forall k : nat,
       (k < length w)%nat ->
       nth_error w k = nth_error content (Z.to_nat start + k).

(** Hashing with a threshold of 10 bytes and windows of 4 bytes. *)
Definition tiny_sample_options : Options :=
  {| maxConcurrency := 200; batchSize := 50;
     hashThreshold := 10; hashSampleSize := 4;
     enableHash := true; sortAlgorithm := None |}.

(** A readable file of twenty different bytes, whose tail window arrives
    first and whose head window arrives last. *)
Definition letters : FileStat :=
  {| itemFullPath := path_join "root" "letters.txt";
     itemRelativePath := "letters.txt";
     fstat := Some {| size := 20; birthtime := 0; mtime := 0; atime := 0 |};
     fcontent := Some (ascii_bytes "abcdefghijklmnopqrst");
     farrival := TMH |}.

(** A file of exactly [THRESHOLD] bytes, and the same file with another
    byte at offset 3000, between the head and the middle block. *)
Definition at_threshold (b : byte) : Buffer :=
  Buffer_alloc 3000 ++ b :: Buffer_alloc 7239.

(** Two copies of one file of twenty bytes, each with the arrival of its
    streams. *)
Definition two_copies (a1 a2 : Arrival) : Node :=
  Dir (Some [ ("one.txt",
               File (Some {| size := 20; birthtime := 1; mtime := 1;
                             atime := 1 |})
                    (Some (ascii_bytes "abcdefghijklmnopqrst")) a1);
              ("two.txt",
               File (Some {| size := 20; birthtime := 2; mtime := 2;
                             atime := 2 |})
                    (Some (ascii_bytes "abcdefghijklmnopqrst")) a2) ]).
(** * Properties *)

(** ** Choosing among pending operations *)

Lemma pick_split {A : Type} (i : nat) (l pre post : list A) (x : A) :
  pick i l = Some (pre, x, post) -> l = pre ++ x :: post.
Proof.
  unfold pick. intros H.
  destruct (skipn (i mod length l) l) as [|y rest] eqn:E; inversion H; subst.
  rewrite <- E. symmetry. apply firstn_skipn.
Qed.

Lemma pick_nil {A : Type} (i : nat) : pick i (@nil A) = None.
Proof. unfold pick. now rewrite skipn_nil. Qed.

Lemma pick_some {A : Type} (i : nat) (l : list A) :
  l <> [] -> exists pre x post, pick i l = Some (pre, x, post).
Proof.
  intros Hl. unfold pick.
  assert (Hlt : (i mod length l < length l)%nat).
  { apply Nat.mod_upper_bound. destruct l; [congruence | discriminate]. }
  destruct (skipn (i mod length l) l) as [|y rest] eqn:E.
  - apply (f_equal (@List.length A)) in E. rewrite length_skipn in E.
    simpl in E. lia.
  - eauto.
Qed.

(** Every turn of [step] is a turn of the relation, and [step] idles
    exactly when nothing is in flight. *)
Lemma step_idle (c : nat * nat) (L : Loop) :
  running L = [] -> step c L = L.
Proof. intros H. unfold step. now rewrite H, pick_nil. Qed.

Lemma step_turn (c : nat * nat) (L : Loop) :
  running L <> [] -> turn L (step c L).
Proof.
  intros Hr. unfold step.
  destruct (pick_some (fst c) (running L) Hr) as (pre & r & post & Hp).
  rewrite Hp. apply pick_split in Hp.
  destruct (phase r) as [|fileStats i promises|] eqn:Hph.
  - destruct (readdir_settled (this L) (task r)) as [[sc pushed] ph] eqn:E.
    eapply turn_readdir; eauto.
  - destruct promises as [|j0 ps].
    + rewrite pick_nil. eapply turn_batch; eauto.
    + destruct (pick_some (snd c) (j0 :: ps)) as (b & j & a & Hj);
        [discriminate|].
      rewrite Hj. apply pick_split in Hj.
      destruct (job_settled (this L) j) as [sc j'] eqn:E.
      rewrite Hj in Hph.
      eapply (turn_job L pre r post fileStats i b j a sc j'); eauto.
  - eapply turn_settle; eauto.
Qed.

Lemma run_turns (sched : Schedule) (fuel k : nat) (L : Loop) :
  turns L (run sched fuel k L).
Proof.
  revert k L. induction fuel as [|fuel IH]; intros k L; simpl.
  - constructor.
  - assert (H : forall L1 L2, turns L1 L2 -> forall L0, turns L0 L1 -> turns L0 L2).
    { intros L1 L2 H12. induction H12; intros L0 H0; eauto using turns. }
    apply (H _ _ (IH (S k) (step (sched k) L))).
    destruct (running L) eqn:E.
    + rewrite step_idle by assumption. constructor.
    + eapply turns_step; [constructor|]. apply step_turn. congruence.
Qed.

(** ** What each handler leaves untouched *)

Lemma options_job_settled sc j sc' j' :
  job_settled sc j = (sc', j') -> options sc' = options sc.
Proof.
  destruct j as [f|f fileSize]; simpl.
  - unfold stat_settled. destruct (fstat f); intros H; inversion H; reflexivity.
  - unfold _calculateFileHash.
    destruct (awaited_digest (options sc) f fileSize);
      intros H; inversion H; reflexivity.
Qed.

Lemma options_readdir_settled sc t sc' pushed ph :
  readdir_settled sc t = (sc', pushed, ph) -> options sc' = options sc.
Proof.
  unfold readdir_settled.
  destruct (readdir (behind t)); intros H; inversion H; reflexivity.
Qed.

Lemma options_processQueue L :
  options (this (processQueue L)) = options (this L).
Proof.
  unfold processQueue.
  destruct (processQueue_loop _ _ _ _ _) as [[[q a] s] st]. reflexivity.
Qed.

Lemma options_turn L L' : turn L L' -> options (this L') = options (this L).
Proof.
  intros H. destruct H; simpl.
  - eauto using options_readdir_settled.
  - eauto using options_job_settled.
  - reflexivity.
  - unfold task_settled. simpl. now rewrite options_processQueue.
Qed.

Lemma options_turns L L' : turns L L' -> options (this L') = options (this L).
Proof.
  induction 1; [reflexivity|].
  erewrite options_turn by eassumption. assumption.
Qed.

(** ** The pool bound (C8) *)

Lemma processQueue_loop_bounded maxC q :
  forall a s st q' a' s' st',
    processQueue_loop maxC q a s st = (q', a', s', st') ->
    a = Z.of_nat (length st) -> a <= maxC -> maxConcurrent s <= maxC ->
    a' = Z.of_nat (length st') /\ a' <= maxC /\ maxConcurrent s' <= maxC.
Proof.
  induction q as [|t q IH]; simpl; intros a s st q' a' s' st' H Ha Hle Hs.
  - inversion H; subst. auto.
  - destruct (a <? maxC) eqn:E.
    + apply IH in H; auto.
      * rewrite length_app. simpl. lia.
      * apply Z.ltb_lt in E. lia.
      * simpl. apply Z.ltb_lt in E. lia.
    + inversion H; subst. auto.
Qed.

Lemma stats_job_settled_maxConcurrent sc j sc' j' :
  job_settled sc j = (sc', j') ->
  maxConcurrent (stats sc') = maxConcurrent (stats sc).
Proof.
  destruct j as [f|f fileSize]; simpl.
  - unfold stat_settled. destruct (fstat f); intros H; inversion H; reflexivity.
  - unfold _calculateFileHash, _checkDuplicateFiles.
    destruct (awaited_digest (options sc) f fileSize);
      intros H; inversion H; reflexivity.
Qed.

Lemma stats_readdir_settled_maxConcurrent sc t sc' pushed ph :
  readdir_settled sc t = (sc', pushed, ph) ->
  maxConcurrent (stats sc') = maxConcurrent (stats sc).
Proof.
  unfold readdir_settled.
  destruct (readdir (behind t)); intros H; inversion H; reflexivity.
Qed.

Lemma pool_bounded_processQueue L :
  pool_bounded L -> pool_bounded (processQueue L).
Proof.
  unfold pool_bounded, processQueue. intros (Ha & Hle & Hs).
  destruct (processQueue_loop _ _ _ _ _) as [[[q a] s] st] eqn:E.
  simpl. eapply processQueue_loop_bounded; eauto.
Qed.

Lemma pool_bounded_turn L L' :
  pool_bounded L -> turn L L' -> pool_bounded L'.
Proof.
  intros (Ha & Hle & Hs) H. destruct H as
    [pre r post sc pushed ph Hr Hph E
    |pre r post fs i b j a sc j' Hr Hph E
    |pre r post fs i Hr Hph
    |pre r post Hr Hph].
  - unfold pool_bounded, resume; simpl.
    rewrite (options_readdir_settled _ _ _ _ _ E),
      (stats_readdir_settled_maxConcurrent _ _ _ _ _ E).
    rewrite Hr in Ha. rewrite length_app in *. simpl in *. auto.
  - unfold pool_bounded, resume; simpl.
    rewrite (options_job_settled _ _ _ _ E),
      (stats_job_settled_maxConcurrent _ _ _ _ E).
    rewrite Hr in Ha. rewrite length_app in *. simpl in *. auto.
  - unfold pool_bounded, resume; simpl.
    rewrite Hr in Ha. rewrite length_app in *. simpl in *. auto.
  - unfold task_settled.
    set (L1 := processQueue _).
    assert (H1 : pool_bounded L1).
    { apply pool_bounded_processQueue. unfold pool_bounded; simpl.
      rewrite Hr in Ha. rewrite length_app in *. simpl in *.
      repeat split; lia. }
    exact H1.
Qed.

Lemma pool_bounded_start sc rootDir root :
  0 <= maxConcurrency (options sc) ->
  maxConcurrent (stats sc) <= maxConcurrency (options sc) ->
  pool_bounded (start sc rootDir root).
Proof.
  intros H0 H1. apply pool_bounded_processQueue.
  unfold pool_bounded; simpl. auto.
Qed.

(** ** What a turn of [step] does, by the event it serves *)

Lemma step_spec (c : nat * nat) (L : Loop) :
  match event c L with
  | Idle => step c L = L
  | ReaddirSettled t =>
      exists pre post,
        step c L =
          resume L (fst (fst (readdir_settled (this L) t)))
            (queue L ++ snd (fst (readdir_settled (this L) t))) pre t
            (snd (readdir_settled (this L) t)) post
  | JobSettled j =>
      exists pre t post ph,
        step c L = resume L (fst (job_settled (this L) j)) (queue L)
                     pre t ph post
  | BatchSettled =>
      exists pre t post ph,
        step c L = resume L (this L) (queue L) pre t ph post
  | TaskSettled => exists others, step c L = task_settled L others
  end.
Proof.
  unfold event, step.
  destruct (pick (fst c) (running L)) as [[[pre r] post]|]; [|reflexivity].
  destruct (phase r) as [|fileStats i promises|].
  - destruct (readdir_settled (this L) (task r)) as [[sc pushed] ph].
    exists pre, post. reflexivity.
  - destruct (pick (snd c) promises) as [[[b j] a]|].
    + destruct (job_settled (this L) j) as [sc j']. simpl.
      do 4 eexists. reflexivity.
    + do 4 eexists. reflexivity.
  - eexists. reflexivity.
Qed.

(** Admitting tasks touches only the two concurrency counters. *)
Lemma processQueue_loop_stats maxC q :
  forall a s st q' a' s' st',
    processQueue_loop maxC q a s st = (q', a', s', st') ->
    duplicateCount s' = duplicateCount s /\ hashErrors s' = hashErrors s.
Proof.
  induction q as [|t q IH]; simpl; intros a s st q' a' s' st' H.
  - inversion H; subst. auto.
  - destruct (a <? maxC).
    + apply IH in H. simpl in H. exact H.
    + inversion H; subst. auto.
Qed.

Lemma task_settled_keeps L others :
  fileMap (this (task_settled L others)) = fileMap (this L)
  /\ hashMap (this (task_settled L others)) = hashMap (this L)
  /\ duplicateFiles (this (task_settled L others)) = duplicateFiles (this L)
  /\ console (this (task_settled L others)) = console (this L)
  /\ totalFiles (this (task_settled L others)) = totalFiles (this L)
  /\ duplicateCount (stats (this (task_settled L others)))
     = duplicateCount (stats (this L))
  /\ hashErrors (stats (this (task_settled L others)))
     = hashErrors (stats (this L)).
Proof.
  unfold task_settled, processQueue; simpl.
  destruct (processQueue_loop _ _ _ _ _) as [[[q a] s] st] eqn:E. simpl.
  apply processQueue_loop_stats in E. tauto.
Qed.

(** ** JavaScript maps *)

Lemma JsMap_get_set_same {V : Type} (m : JsMap.t V) k v :
  JsMap.get (JsMap.set m k v) k = Some v.
Proof.
  induction m as [|[k' v'] m IH]; simpl.
  - now rewrite String.eqb_refl.
  - destruct (String.eqb k' k) eqn:E; simpl.
    + now rewrite String.eqb_refl.
    + now rewrite E.
Qed.

Lemma JsMap_get_set_other {V : Type} (m : JsMap.t V) k k' v :
  k <> k' -> JsMap.get (JsMap.set m k v) k' = JsMap.get m k'.
Proof.
  intros Hk. induction m as [|[k0 v0] m IH]; simpl.
  - destruct (String.eqb k k') eqn:E; [|reflexivity].
    apply String.eqb_eq in E. contradiction.
  - destruct (String.eqb k0 k) eqn:E; simpl.
    + apply String.eqb_eq in E. subst k0.
      destruct (String.eqb k k') eqn:E'; [|reflexivity].
      apply String.eqb_eq in E'. contradiction.
    + now rewrite IH.
Qed.

(** ** The duplicate index *)

Lemma duplicate_paths_set m h files :
  duplicate_paths (JsMap.set m h files)
  = duplicate_paths m - group_weight (group_of m h) + group_weight files.
Proof.
  unfold group_of. induction m as [|[k v] m IH]; simpl.
  - change (group_weight []) with 0. lia.
  - destruct (String.eqb k h) eqn:E; simpl.
    + lia.
    + rewrite IH. lia.
Qed.

(** The group after [_checkDuplicateFiles] is the old group with the path
    appended; the other groups are unchanged. *)
Lemma _checkDuplicateFiles_group sc p h d :
  getFilesByHash (_checkDuplicateFiles sc p h) d
  = if String.eqb h d then getFilesByHash sc d ++ [p]
    else getFilesByHash sc d.
Proof.
  unfold getFilesByHash, _checkDuplicateFiles; simpl.
  unfold JsMap.has.
  destruct (String.eqb h d) eqn:E.
  - apply String.eqb_eq in E. subst d.
    rewrite JsMap_get_set_same.
    destruct (JsMap.get (duplicateFiles sc) h) eqn:G.
    + now rewrite G.
    + now rewrite JsMap_get_set_same.
  - assert (Hne : h <> d).
    { intros ->. rewrite String.eqb_refl in E. discriminate. }
    rewrite JsMap_get_set_other by assumption.
    destruct (JsMap.get (duplicateFiles sc) h); [reflexivity|].
    now rewrite JsMap_get_set_other.
Qed.

Lemma group_weight_snoc l (p : string) :
  group_weight (l ++ [p]) - group_weight l
  = if Z.of_nat (length (l ++ [p])) =? 2 then 2
    else if Z.of_nat (length (l ++ [p])) >? 2 then 1 else 0.
Proof.
  unfold group_weight. rewrite length_app. cbn [length].
  rewrite !Z.gtb_ltb.
  destruct (Nat.leb_spec 2 (length l + 1)), (Nat.leb_spec 2 (length l)),
    (Z.eqb_spec (Z.of_nat (length l + 1)) 2),
    (Z.ltb_spec 2 (Z.of_nat (length l + 1))); lia.
Qed.

Lemma _checkDuplicateFiles_count sc p h :
  let sc' := _checkDuplicateFiles sc p h in
  let n := Z.of_nat (length (getFilesByHash sc' h)) in
  duplicateCount (stats sc')
  = duplicateCount (stats sc)
    + (if n =? 2 then 2 else if n >? 2 then 1 else 0)
  /\ duplicate_paths (duplicateFiles sc') - duplicate_paths (duplicateFiles sc)
     = (if n =? 2 then 2 else if n >? 2 then 1 else 0).
Proof.
  intros sc' n. subst n sc'.
  rewrite _checkDuplicateFiles_group, String.eqb_refl.
  unfold getFilesByHash, _checkDuplicateFiles; simpl. unfold JsMap.has.
  destruct (JsMap.get (duplicateFiles sc) h) as [l0|] eqn:G.
  - rewrite G. split.
    + destruct (_ =? 2); [lia|]. destruct (_ >? 2); lia.
    + rewrite duplicate_paths_set. unfold group_of. rewrite G.
      rewrite <- group_weight_snoc. lia.
  - rewrite JsMap_get_set_same. simpl. split; [lia|].
    rewrite !duplicate_paths_set. unfold group_of.
    rewrite G, JsMap_get_set_same.
    change (group_weight []) with 0. change (group_weight [p]) with 0. lia.
Qed.

Lemma count_consistent_job sc j :
  count_consistent sc -> count_consistent (fst (job_settled sc j)).
Proof.
  intros H. destruct j as [f|f fileSize]; cbn [job_settled fst].
  - unfold stat_settled. destruct (fstat f); exact H.
  - unfold _calculateFileHash.
    destruct (awaited_digest (options sc) f fileSize) as [h|]; [|exact H].
    match goal with |- count_consistent (_checkDuplicateFiles ?s ?p ?h) =>
      destruct (_checkDuplicateFiles_count s p h) as [H1 H2] end.
    unfold count_consistent in *. cbn zeta in H1, H2. rewrite H1.
    cbn [stats duplicateCount duplicateFiles] in *. lia.
Qed.

Lemma count_consistent_readdir sc t :
  count_consistent sc -> count_consistent (fst (fst (readdir_settled sc t))).
Proof.
  unfold count_consistent, readdir_settled.
  destruct (readdir (behind t)); simpl; auto.
Qed.

Lemma count_consistent_turn L L' :
  count_consistent (this L) -> turn L L' -> count_consistent (this L').
Proof.
  intros H T. destruct T as
    [pre r post sc pushed ph Hr Hph E
    |pre r post fs i b j a sc j' Hr Hph E
    |pre r post fs i Hr Hph
    |pre r post Hr Hph]; cbn [this resume].
  - change sc with (fst (fst (sc, pushed, ph))). rewrite <- E.
    now apply count_consistent_readdir.
  - change sc with (fst (sc, j')). rewrite <- E.
    now apply count_consistent_job.
  - exact H.
  - unfold count_consistent in *.
    destruct (task_settled_keeps L (pre ++ post))
      as (_ & _ & Hd & _ & _ & Hc & _).
    now rewrite Hd, Hc.
Qed.

Lemma count_consistent_start sc rootDir root :
  count_consistent (this (start (_resetStats sc) rootDir root)).
Proof.
  unfold start, processQueue, count_consistent.
  match goal with |- context [processQueue_loop ?a ?b ?c ?d ?e] =>
    destruct (processQueue_loop a b c d e) as [[[q a'] s] st] eqn:E end.
  apply processQueue_loop_stats in E. simpl in *. now destruct E as [-> _].
Qed.

(** ** Events and what they leave in the scanner *)

Lemma options_step c L : options (this (step c L)) = options (this L).
Proof.
  destruct (running L) eqn:E.
  - now rewrite step_idle.
  - apply options_turn, step_turn. congruence.
Qed.

Lemma getFilesByHash_job sc j d :
  getFilesByHash (fst (job_settled sc j)) d
  = getFilesByHash sc d ++ hashed_to (options sc) d [JobSettled j].
Proof.
  unfold hashed_to, flat_map, hashed. rewrite app_nil_r.
  destruct j as [f|f fileSize]; cbn [job_settled fst].
  - unfold stat_settled. destruct (fstat f); now rewrite app_nil_r.
  - unfold _calculateFileHash.
    destruct (awaited_digest (options sc) f fileSize) as [h|].
    + rewrite _checkDuplicateFiles_group.
      destruct (String.eqb h d); [reflexivity | now rewrite app_nil_r].
    + now rewrite app_nil_r.
Qed.

Lemma getFilesByHash_step c L d :
  getFilesByHash (this (step c L)) d
  = getFilesByHash (this L) d ++ hashed_to (options (this L)) d [event c L].
Proof.
  pose proof (step_spec c L) as H.
  destruct (event c L) as [t|j| | |] eqn:E.
  - destruct H as (pre & post & ->). cbn [this resume].
    unfold hashed_to; simpl. rewrite app_nil_r.
    unfold readdir_settled. destruct (readdir (behind t)); reflexivity.
  - destruct H as (pre & t & post & ph & ->). cbn [this resume].
    apply getFilesByHash_job.
  - destruct H as (pre & t & post & ph & ->).
    unfold hashed_to; simpl. now rewrite app_nil_r.
  - destruct H as (others & ->).
    destruct (task_settled_keeps L others) as (_ & _ & Hd & _).
    unfold getFilesByHash. rewrite Hd.
    unfold hashed_to; simpl. now rewrite app_nil_r.
  - rewrite H. unfold hashed_to; simpl. now rewrite app_nil_r.
Qed.

(** The group of a digest is exactly the paths hashed to it, in the order
    in which their hashes completed. *)
Lemma getFilesByHash_run sched fuel : forall k L d,
  getFilesByHash (this (run sched fuel k L)) d
  = getFilesByHash (this L) d
    ++ hashed_to (options (this L)) d (events sched fuel k L).
Proof.
  induction fuel as [|fuel IH]; intros k L d; simpl.
  - now rewrite app_nil_r.
  - rewrite IH, getFilesByHash_step, options_step.
    unfold hashed_to at 2. simpl. rewrite app_nil_r.
    now rewrite <- app_assoc.
Qed.

Lemma getFileHash_job sc j p :
  getFileHash (fst (job_settled sc j)) p
  = match j with
    | AwaitHash f fileSize =>
        match awaited_digest (options sc) f fileSize with
        | Some h =>
            if String.eqb (itemRelativePath f) p
            then Some {| hash := h;
                         method := if fileSize <=? hashThreshold (options sc)
                                   then full else sampled |}
            else getFileHash sc p
        | None => getFileHash sc p
        end
    | AwaitStat _ => getFileHash sc p
    end.
Proof.
  destruct j as [f|f fileSize]; cbn [job_settled fst].
  - unfold stat_settled. destruct (fstat f); reflexivity.
  - unfold _calculateFileHash.
    destruct (awaited_digest (options sc) f fileSize) as [h|]; [|reflexivity].
    unfold getFileHash, _checkDuplicateFiles. cbn [hashMap].
    destruct (String.eqb (itemRelativePath f) p) eqn:E.
    + apply String.eqb_eq in E. subst p. apply JsMap_get_set_same.
    + apply JsMap_get_set_other. intros Heq.
      rewrite Heq, String.eqb_refl in E. discriminate.
Qed.

Lemma getFileHash_step c L p :
  (forall h, hashed (options (this L)) (event c L) <> Some (p, h)) ->
  getFileHash (this (step c L)) p = getFileHash (this L) p.
Proof.
  intros Hno. pose proof (step_spec c L) as H.
  destruct (event c L) as [t|j| | |] eqn:E.
  - destruct H as (pre & post & ->). cbn [this resume].
    unfold readdir_settled. destruct (readdir (behind t)); reflexivity.
  - destruct H as (pre & t & post & ph & ->). cbn [this resume].
    rewrite getFileHash_job. destruct j as [f|f fileSize]; [reflexivity|].
    cbn [hashed] in Hno. cbn beta iota.
    destruct (awaited_digest (options (this L)) f fileSize) as [h|];
      [|reflexivity].
    destruct (String.eqb (itemRelativePath f) p) eqn:Ep; [|reflexivity].
    apply String.eqb_eq in Ep. subst p. exfalso. now apply (Hno h).
  - destruct H as (pre & t & post & ph & ->). reflexivity.
  - destruct H as (others & ->). unfold getFileHash.
    destruct (task_settled_keeps L others) as (_ & Hh & _).
    now rewrite Hh.
  - now rewrite H.
Qed.

Lemma getFileHash_run sched fuel p : forall k L,
  (forall h, ~ In (Some (p, h))
                (map (hashed (options (this L))) (events sched fuel k L))) ->
  getFileHash (this (run sched fuel k L)) p = getFileHash (this L) p.
Proof.
  induction fuel as [|fuel IH]; intros k L Hno; simpl; [reflexivity|].
  rewrite IH.
  - apply getFileHash_step. intros h Hh. apply (Hno h). simpl. now left.
  - intros h Hh. apply (Hno h). simpl. right. now rewrite options_step in Hh.
Qed.

Lemma hashed_to_nil o d evs :
  (forall p, ~ In (Some (p, d)) (map (hashed o) evs)) -> hashed_to o d evs = [].
Proof.
  induction evs as [|e evs IH]; intros Hno; simpl; [reflexivity|].
  rewrite IH by (intros p Hp; apply (Hno p); simpl; now right).
  rewrite app_nil_r.
  destruct (hashed o e) as [[p h]|] eqn:E; [|reflexivity].
  destruct (String.eqb h d) eqn:Ed; [|reflexivity].
  apply String.eqb_eq in Ed. subst h. exfalso. apply (Hno p). simpl. now left.
Qed.

(** [console.warn] is called once per recovered error, and the counter of
    failed hashes follows the hash warnings. *)
Lemma console_step c L :
  console (this (step c L))
  = console (this L) ++ warnings_of (options (this L)) [event c L]
  /\ hashErrors (stats (this (step c L)))
     = hashErrors (stats (this L))
       + hash_failures (warnings_of (options (this L)) [event c L]).
Proof.
  pose proof (step_spec c L) as H. unfold warnings_of, flat_map.
  rewrite app_nil_r.
  destruct (event c L) as [t|j| | |] eqn:E; cbn [recovered].
  - destruct H as (pre & post & ->). cbn [this resume].
    unfold readdir_settled. destruct (readdir (behind t)); simpl.
    + rewrite app_nil_r. split; [reflexivity | unfold hash_failures; simpl; lia].
    + split; [reflexivity | unfold hash_failures; simpl; lia].
  - destruct H as (pre & t & post & ph & ->). cbn [this resume].
    destruct j as [f|f fileSize]; cbn [job_settled fst].
    + unfold stat_settled. destruct (fstat f); simpl.
      * rewrite app_nil_r. split; [reflexivity|unfold hash_failures; simpl; lia].
      * split; [reflexivity | unfold hash_failures; simpl; lia].
    + unfold _calculateFileHash.
      destruct (awaited_digest (options (this L)) f fileSize); simpl.
      * rewrite app_nil_r. split; [reflexivity|unfold hash_failures; simpl; lia].
      * split; [reflexivity | unfold hash_failures; simpl; lia].
  - destruct H as (pre & t & post & ph & ->). simpl. rewrite app_nil_r.
    split; [reflexivity | unfold hash_failures; simpl; lia].
  - destruct H as (others & ->).
    destruct (task_settled_keeps L others) as (_ & _ & _ & Hc & _ & _ & He).
    rewrite Hc, He. rewrite app_nil_r.
    split; [reflexivity | unfold hash_failures; simpl; lia].
  - rewrite H. simpl. rewrite app_nil_r.
    split; [reflexivity | unfold hash_failures; simpl; lia].
Qed.

Lemma hash_failures_app ws1 ws2 :
  hash_failures (ws1 ++ ws2) = hash_failures ws1 + hash_failures ws2.
Proof.
  unfold hash_failures. rewrite filter_app, length_app. lia.
Qed.

Lemma warnings_of_cons o e evs :
  warnings_of o (e :: evs) = warnings_of o [e] ++ warnings_of o evs.
Proof. unfold warnings_of. simpl. now rewrite app_nil_r. Qed.

Lemma console_run sched fuel : forall k L,
  console (this (run sched fuel k L))
  = console (this L) ++ warnings_of (options (this L)) (events sched fuel k L)
  /\ hashErrors (stats (this (run sched fuel k L)))
     = hashErrors (stats (this L))
       + hash_failures (warnings_of (options (this L)) (events sched fuel k L)).
Proof.
  induction fuel as [|fuel IH]; intros k L; cbn [run events].
  - unfold warnings_of, hash_failures. simpl. rewrite app_nil_r.
    split; [reflexivity|lia].
  - destruct (IH (S k) (step (sched k) L)) as [H1 H2].
    destruct (console_step (sched k) L) as [H3 H4].
    rewrite warnings_of_cons, H1, H2, H3, H4, options_step.
    rewrite hash_failures_app, <- app_assoc. split; [reflexivity|lia].
Qed.

(** ** Quiescence: every schedule settles the traversal *)

Lemma loop_weight_eq L :
  loop_weight L
  = (queue_weight (queue L) + running_weight (options (this L)) (running L))%nat.
Proof. reflexivity. Qed.

Lemma queue_weight_app q1 q2 :
  queue_weight (q1 ++ q2) = (queue_weight q1 + queue_weight q2)%nat.
Proof. unfold queue_weight. now rewrite map_app, list_sum_app. Qed.

Lemma running_weight_app o r1 r2 :
  running_weight o (r1 ++ r2)
  = (running_weight o r1 + running_weight o r2)%nat.
Proof. unfold running_weight. now rewrite map_app, list_sum_app. Qed.

Lemma running_weight_cons o r rs :
  running_weight o (r :: rs)
  = (phase_weight o (task r) (phase r) + running_weight o rs)%nat.
Proof. reflexivity. Qed.

Lemma weight_listing t items :
  weight (Dir (Some items))
  = (5 + queue_weight (subdirectories t items)
     + 3 * length (regular_files t items))%nat.
Proof.
  cbn [weight]. rewrite <- Nat.add_assoc. f_equal.
  unfold subdirectories, regular_files.
  induction items as [|[name n] items IH]; [reflexivity|].
  cbn [flat_map]. rewrite queue_weight_app, length_app, IH.
  destruct n as [st content arrival|listing|];
    unfold queue_weight;
    cbn [snd fst map list_sum fold_right length behind]; lia.
Qed.

Lemma weight_unreadable n : readdir n = None -> weight n = 2%nat.
Proof. destruct n as [? ? ?|[items|]|]; simpl; congruence. Qed.

Lemma readdir_listing n items : readdir n = Some items -> n = Dir (Some items).
Proof. destruct n as [? ? ?|[l|]|]; simpl; congruence. Qed.

Lemma js_slice_length {A : Type} (l : list A) (i n : Z) :
  0 <= i -> 0 <= n ->
  Z.of_nat (length (js_slice l i (i + n)))
  = Z.min (i + n) (Z.of_nat (length l)) - Z.min i (Z.of_nat (length l)).
Proof.
  intros Hi Hn. unfold js_slice, js_index.
  destruct (Z.ltb_spec i 0); [lia|].
  destruct (Z.ltb_spec (i + n) 0); [lia|].
  rewrite length_firstn, length_skipn. lia.
Qed.

Lemma batch_at_weight o fileStats i t :
  0 <= i -> 1 <= batchSize o ->
  (phase_weight o t (batch_at o fileStats i)
   <= 1 + 3 * Z.to_nat (Z.of_nat (length fileStats) - i))%nat.
Proof.
  intros Hi Hb. unfold batch_at.
  destruct (Z.ltb_spec i (Z.of_nat (length fileStats))) as [Hlt|Hge].
  - cbn [phase_weight]. rewrite map_map. cbn [job_weight].
    assert (Hs : list_sum (map (fun _ : FileStat => 2%nat)
                   (js_slice fileStats i (i + batchSize o)))
                 = (2 * length (js_slice fileStats i (i + batchSize o)))%nat).
    { induction (js_slice fileStats i (i + batchSize o)); simpl; lia. }
    rewrite Hs.
    pose proof (js_slice_length fileStats i (batchSize o) Hi ltac:(lia)).
    lia.
  - simpl. lia.
Qed.

Lemma readdir_settled_weight sc t sc' pushed ph :
  1 <= batchSize (options sc) ->
  readdir_settled sc t = (sc', pushed, ph) ->
  (queue_weight pushed + phase_weight (options sc) t ph
   < weight (behind t))%nat.
Proof.
  intros Hb. unfold readdir_settled.
  destruct (readdir (behind t)) as [items|] eqn:E; intros H; inversion H; subst.
  - apply readdir_listing in E. rewrite E, (weight_listing t).
    pose proof (batch_at_weight (options sc) (regular_files t items) 0 t
                  ltac:(lia) Hb).
    lia.
  - rewrite (weight_unreadable _ E). simpl. lia.
Qed.

Lemma batch_at_ok o fileStats i : 0 <= i -> phase_ok (batch_at o fileStats i).
Proof. intros Hi. unfold batch_at. destruct (_ <? _); simpl; auto. Qed.

Lemma readdir_settled_ok sc t sc' pushed ph :
  readdir_settled sc t = (sc', pushed, ph) -> phase_ok ph.
Proof.
  unfold readdir_settled.
  destruct (readdir (behind t)); intros H; inversion H; subst; simpl; auto.
  apply batch_at_ok. lia.
Qed.

Lemma job_settled_weight sc j :
  (list_sum (map job_weight (after_job (snd (job_settled sc j))))
   < job_weight j)%nat.
Proof.
  destruct j as [f|f fileSize]; simpl; [|lia].
  unfold stat_settled. destruct (fstat f); simpl; [|lia].
  destruct (enableHash (options sc)); simpl; lia.
Qed.

Lemma processQueue_loop_shape maxC q :
  forall a s st q' a' s' st',
    processQueue_loop maxC q a s st = (q', a', s', st') ->
    exists adm,
      q = adm ++ q' /\ st' = st ++ map enter adm
      /\ a' = a + Z.of_nat (length adm)
      /\ (q' = [] \/ maxC <= a').
Proof.
  induction q as [|t q IH]; simpl; intros a s st q' a' s' st' H.
  - inversion H; subst. exists []. simpl. rewrite app_nil_r.
    repeat split; auto; lia.
  - destruct (Z.ltb_spec a maxC).
    + apply IH in H. destruct H as (adm & -> & -> & -> & Hq).
      exists (t :: adm). simpl. rewrite <- app_assoc. simpl.
      repeat split; auto; lia.
    + inversion H; subst. exists []. simpl. rewrite app_nil_r.
      repeat split; auto; lia.
Qed.

Lemma running_weight_admit o adm :
  running_weight o (map enter adm) = queue_weight adm.
Proof.
  unfold running_weight, queue_weight. rewrite map_map. reflexivity.
Qed.

Lemma weight_pos n : (2 <= weight n)%nat.
Proof. destruct n as [? ? ?|[items|]|]; simpl; lia. Qed.

Lemma phase_weight_pos o t ph : phase_ok ph -> (1 <= phase_weight o t ph)%nat.
Proof.
  destruct ph; simpl; intros _; try lia.
  pose proof (weight_pos (behind t)). lia.
Qed.

Lemma Forall_replace {A : Type} (P : A -> Prop) pre x y post :
  Forall P (pre ++ x :: post) -> P y -> Forall P (pre ++ y :: post).
Proof.
  rewrite !Forall_app. intros [H1 H2] Hy. inversion H2; subst. auto.
Qed.

Lemma live_resume L sc q pre r post ph :
  live L -> running L = pre ++ r :: post -> phase_ok ph ->
  live (resume L sc q pre (task r) ph post).
Proof.
  intros (Ha & Hok & Hf) Hr Hph. unfold live, resume; simpl.
  rewrite Hr in *. repeat split.
  - rewrite Ha, !length_app. reflexivity.
  - eapply Forall_replace; eauto.
  - intros H. destruct pre; discriminate.
Qed.

Lemma resume_weight L sc q pre r post ph :
  running L = pre ++ r :: post ->
  options sc = options (this L) ->
  (queue_weight q + phase_weight (options (this L)) (task r) ph
   < queue_weight (queue L)
     + phase_weight (options (this L)) (task r) (phase r))%nat ->
  (loop_weight (resume L sc q pre (task r) ph post) < loop_weight L)%nat.
Proof.
  intros Hr Ho Hlt. rewrite !loop_weight_eq. unfold resume; simpl.
  rewrite Hr, Ho, !running_weight_app, !running_weight_cons. simpl. lia.
Qed.

Lemma task_settled_live L pre r post :
  1 <= maxConcurrency (options (this L)) ->
  live L -> running L = pre ++ r :: post -> phase r = Returned ->
  live (task_settled L (pre ++ post))
  /\ (loop_weight (task_settled L (pre ++ post)) < loop_weight L)%nat.
Proof.
  intros Hmax (Ha & Hok & Hf) Hr Hph.
  unfold task_settled, processQueue. cbn [this queue activePromises running finished].
  destruct (processQueue_loop _ _ _ _ _) as [[[q a] s] st] eqn:E.
  apply processQueue_loop_shape in E.
  destruct E as (adm & Hq & -> & -> & Hfull).
  rewrite Hr in Ha, Hok. rewrite length_app in Ha. simpl in Ha.
  split.
  - unfold live; simpl. repeat split.
    + rewrite !length_app, length_map, Ha. lia.
    + rewrite Forall_app in *. destruct Hok as [H1 H2].
      inversion H2; subst. repeat split; auto.
      * rewrite Forall_app; auto.
      * apply Forall_forall. intros x Hx. apply in_map_iff in Hx.
        destruct Hx as (t & <- & _). exact I.
    + intros Hnil. apply app_eq_nil in Hnil. destruct Hnil as [Hpp Hadm].
      apply map_eq_nil in Hadm. subst adm.
      apply app_eq_nil in Hpp. destruct Hpp as [-> ->]. simpl in *.
      destruct Hfull as [-> | Hfull]; [|lia].
      rewrite Ha. simpl. apply orb_true_r.
  - rewrite !loop_weight_eq. cbn [this queue running options with_stats].
    rewrite Hr, Hq, queue_weight_app, !running_weight_app,
      running_weight_cons, running_weight_admit, Hph.
    cbn [phase_weight]. lia.
Qed.

Lemma list_sum_replace before (j : Job) after js :
  (list_sum (map job_weight js) < job_weight j)%nat ->
  (list_sum (map job_weight (before ++ js ++ after))
   < list_sum (map job_weight (before ++ j :: after)))%nat.
Proof.
  intros H. rewrite !map_app, !list_sum_app. simpl. lia.
Qed.

Lemma turn_live L L' :
  1 <= maxConcurrency (options (this L)) ->
  1 <= batchSize (options (this L)) ->
  live L -> turn L L' ->
  live L' /\ (loop_weight L' < loop_weight L)%nat.
Proof.
  intros Hmax Hbs HL T. destruct T as
    [pre r post sc pushed ph Hr Hph E
    |pre r post fs i b j a sc j' Hr Hph E
    |pre r post fs i Hr Hph
    |pre r post Hr Hph].
  - split.
    + eapply live_resume; eauto using readdir_settled_ok.
    + apply resume_weight; eauto using options_readdir_settled.
      rewrite Hph, queue_weight_app. cbn [phase_weight].
      pose proof (readdir_settled_weight _ _ _ _ _ Hbs E). lia.
  - assert (Hi : 0 <= i).
    { destruct HL as (_ & Hok & _). rewrite Hr, Forall_app in Hok.
      destruct Hok as [_ Hok]. inversion Hok; subst.
      rewrite Hph in *. assumption. }
    split.
    + eapply live_resume; eauto.
    + apply resume_weight; eauto using options_job_settled.
      rewrite Hph. cbn [phase_weight].
      pose proof (job_settled_weight (this L) j) as Hj. rewrite E in Hj.
      pose proof (list_sum_replace b j a _ Hj). simpl in *. lia.
  - assert (Hi : 0 <= i).
    { destruct HL as (_ & Hok & _). rewrite Hr, Forall_app in Hok.
      destruct Hok as [_ Hok]. inversion Hok; subst.
      rewrite Hph in *. assumption. }
    split.
    + eapply live_resume; eauto. apply batch_at_ok. lia.
    + apply resume_weight; eauto.
      rewrite Hph. cbn [phase_weight map list_sum].
      pose proof (batch_at_weight (options (this L)) fs
                    (i + batchSize (options (this L))) (task r)
                    ltac:(lia) Hbs).
      cbn [fold_right]. lia.
  - eapply task_settled_live; eauto.
Qed.

Lemma run_idle sched fuel : forall k L,
  running L = [] -> run sched fuel k L = L.
Proof.
  induction fuel as [|fuel IH]; intros k L H; simpl; [reflexivity|].
  rewrite step_idle by assumption. now apply IH.
Qed.

Lemma run_settles sched fuel : forall k L,
  1 <= maxConcurrency (options (this L)) ->
  1 <= batchSize (options (this L)) ->
  live L -> (loop_weight L <= fuel)%nat ->
  finished (run sched fuel k L) = true.
Proof.
  induction fuel as [|fuel IH]; intros k L Hmax Hbs HL Hw.
  - simpl. destruct HL as (_ & Hok & Hf). apply Hf.
    destruct (running L) as [|r rs] eqn:E; [reflexivity|].
    rewrite loop_weight_eq, E, running_weight_cons in Hw.
    inversion Hok; subst.
    pose proof (phase_weight_pos (options (this L)) (task r) (phase r)
                  ltac:(assumption)). lia.
  - simpl. destruct (running L) as [|r rs] eqn:E.
    + rewrite step_idle, run_idle by assumption. now apply HL.
    + assert (T : turn L (step (sched k) L)) by (apply step_turn; congruence).
      destruct (turn_live _ _ Hmax Hbs HL T) as [HL' Hlt].
      apply IH; auto.
      * now rewrite options_step.
      * now rewrite options_step.
      * lia.
Qed.

Lemma start_live sc rootDir root :
  1 <= maxConcurrency (options sc) ->
  live (start sc rootDir root)
  /\ loop_weight (start sc rootDir root) = weight root.
Proof.
  intros Hmax. unfold start, processQueue.
  cbn [this queue activePromises running finished].
  destruct (processQueue_loop _ _ _ _ _) as [[[q a] s] st] eqn:E.
  pose proof E as E'. apply processQueue_loop_shape in E'.
  destruct E' as (adm & Hq & -> & -> & Hfull).
  destruct adm as [|t adm].
  - simpl in Hq. subst q. destruct Hfull as [H|H]; [discriminate|].
    simpl in H. lia.
  - split.
    + unfold live; simpl. repeat split.
      * rewrite length_map. simpl. lia.
      * constructor; [exact I|]. apply Forall_forall. intros x Hx.
        apply in_map_iff in Hx. destruct Hx as (t' & <- & _). exact I.
      * discriminate.
    + rewrite loop_weight_eq. cbn [this queue running options with_stats app].
      rewrite running_weight_admit.
      rewrite Nat.add_comm, <- queue_weight_app, <- Hq.
      unfold queue_weight. simpl. lia.
Qed.

(** ** A scan always returns (C2) *)

Lemma pick_singleton {A : Type} (i : nat) (x : A) :
  pick i [x] = Some ([], x, []).
Proof.
  unfold pick. change (length [x]) with 1%nat. now rewrite Nat.mod_1_r.
Qed.

Lemma start_admits_root sc rootDir root :
  1 <= maxConcurrency (options sc) ->
  start sc rootDir root
  = {| this := with_stats sc (counted (stats sc) 1);
       queue := []; activePromises := 1;
       running := [enter {| currentPath := rootDir; relativePath := "";
                            behind := root |}];
       finished := false |}.
Proof.
  intros Hmax. unfold start, processQueue. simpl.
  destruct (Z.ltb_spec 0 (maxConcurrency (options sc))); [reflexivity|lia].
Qed.

Lemma run_unreadable_root sched sc rootDir root fuel :
  1 <= maxConcurrency (options sc) ->
  readdir root = None -> (2 <= fuel)%nat ->
  run sched fuel 0 (start sc rootDir root)
  = {| this := console_warn (with_stats sc (counted (stats sc) 1))
                 (CannotReadDirectory rootDir);
       queue := []; activePromises := 0; running := [];
       finished := true |}.
Proof.
  intros Hmax Hroot Hfuel.
  destruct fuel as [|[|fuel]]; try lia.
  rewrite start_admits_root by assumption.
  cbn [run]. unfold step at 2. cbn [running fst]. rewrite pick_singleton.
  cbn [phase enter task]. unfold readdir_settled. cbn [behind].
  rewrite Hroot. cbn [resume app this queue activePromises finished currentPath].
  unfold step. cbn [running fst]. rewrite pick_singleton.
  cbn [phase app]. unfold task_settled, processQueue.
  cbn [this queue activePromises running finished processQueue_loop].
  cbn. apply run_idle. reflexivity.
Qed.

Lemma scanDirectory_resolves sched sc rootDir root fuel :
  1 <= maxConcurrency (options sc) -> 1 <= batchSize (options sc) ->
  (weight root <= fuel)%nat ->
  exists L,
    L = run sched fuel 0 (start (_resetStats sc) rootDir root)
    /\ finished L = true
    /\ scanDirectory sched fuel sc rootDir root
       = Some (Resolved (_getScanResults (_sortFilesByCreateTime (this L)))
                 (_sortFilesByCreateTime (this L))).
Proof.
  intros Hmax Hbs Hfuel. eexists. split; [reflexivity|].
  destruct (start_live (_resetStats sc) rootDir root Hmax) as [HL Hw].
  assert (Hfin : finished (run sched fuel 0 (start (_resetStats sc) rootDir root))
                 = true).
  { apply run_settles; auto.
    - pose proof (options_turns _ _ (run_turns sched 0 0 (start (_resetStats sc) rootDir root))) as Ho.
      unfold start. rewrite options_processQueue. exact Hmax.
    - unfold start. rewrite options_processQueue. exact Hbs.
    - lia. }
  split; [exact Hfin|]. unfold scanDirectory. now rewrite Hfin.
Qed.

(** ** Sorting by creation time (C4) *)

Section SortByKey.
Context {A : Type} (key : A -> Z) (compare : A -> A -> Z).
Hypothesis compare_key : forall a b, compare a b = key a - key b.

Lemma sort_insert_perm x l : Permutation (sort_insert compare x l) (x :: l).
Proof.
  induction l as [|y l IH]; simpl; [reflexivity|].
  destruct (compare x y <=? 0); [reflexivity|].
  rewrite IH. apply perm_swap.
Qed.

Lemma Array_sort_perm l : Permutation (Array_sort compare l) l.
Proof.
  induction l as [|x l IH]; simpl; [reflexivity|].
  rewrite sort_insert_perm. now constructor.
Qed.

Lemma sort_insert_sorted x l :
  StronglySorted (ordered_by key) l ->
  StronglySorted (ordered_by key) (sort_insert compare x l).
Proof.
  induction 1 as [|y l Hs IH Hy]; simpl.
  - repeat constructor.
  - destruct (Z.leb_spec (compare x y) 0) as [Hle|Hgt];
      rewrite compare_key in *.
    + constructor; [now constructor|].
      constructor; [unfold ordered_by; lia|].
      eapply Forall_impl; [|exact Hy]. unfold ordered_by.
      intros z Hz. lia.
    + constructor; [assumption|].
      rewrite (sort_insert_perm x l). constructor; [|assumption].
      unfold ordered_by. lia.
Qed.

Lemma Array_sort_sorted l : StronglySorted (ordered_by key) (Array_sort compare l).
Proof.
  induction l as [|x l IH]; simpl; [constructor|].
  now apply sort_insert_sorted.
Qed.

(** Stability: among the elements of one key the order is kept. *)
Lemma sort_insert_stable t x l :
  filter (fun a => key a =? t) (sort_insert compare x l)
  = filter (fun a => key a =? t) (x :: l).
Proof.
  induction l as [|y l IH]; [reflexivity|].
  cbn [sort_insert].
  destruct (Z.leb_spec (compare x y) 0) as [Hle|Hgt]; [reflexivity|].
  rewrite compare_key in Hgt.
  cbn [filter] in *. rewrite IH.
  destruct (Z.eqb_spec (key x) t), (Z.eqb_spec (key y) t);
    try reflexivity.
  lia.
Qed.

Lemma Array_sort_stable t l :
  filter (fun a => key a =? t) (Array_sort compare l)
  = filter (fun a => key a =? t) l.
Proof.
  induction l as [|x l IH]; [reflexivity|].
  cbn [Array_sort fold_right]. fold (Array_sort compare l).
  rewrite sort_insert_stable. cbn [filter]. now rewrite IH.
Qed.

Lemma Array_sort_fixed l :
  StronglySorted (ordered_by key) l -> Array_sort compare l = l.
Proof.
  induction 1 as [|x l Hs IH Hx]; [reflexivity|].
  cbn [Array_sort fold_right]. fold (Array_sort compare l). rewrite IH.
  destruct l as [|y l]; [reflexivity|].
  cbn [sort_insert]. inversion Hx; subst.
  destruct (Z.leb_spec (compare x y) 0) as [Hle|Hgt]; [reflexivity|].
  rewrite compare_key in Hgt. unfold ordered_by in *. lia.
Qed.

Lemma Array_sort_idempotent l :
  Array_sort compare (Array_sort compare l) = Array_sort compare l.
Proof. apply Array_sort_fixed, Array_sort_sorted. Qed.
End SortByKey.

Lemma _sortFilesByCreateTime_again sc :
  _sortFilesByCreateTime (_sortFilesByCreateTime sc) = _sortFilesByCreateTime sc.
Proof. reflexivity. Qed.

Lemma _sortFilesByCreateTime_builtin sc :
  is_quick (options sc) = false ->
  filesByCreateTime (_sortFilesByCreateTime sc)
  = Array_sort byCreateTime (JsMap.values (fileMap sc)).
Proof. intros H. unfold _sortFilesByCreateTime. now rewrite H. Qed.

Lemma options_run sched fuel k L :
  options (this (run sched fuel k L)) = options (this L).
Proof. apply options_turns, run_turns. Qed.

Lemma options_start sc rootDir root :
  options (this (start sc rootDir root)) = options sc.
Proof. unfold start. now rewrite options_processQueue. Qed.

(** What [scanDirectory] returns, when it returns. *)
Lemma scanDirectory_resolved sched fuel sc rootDir root result sc' :
  scanDirectory sched fuel sc rootDir root = Some (Resolved result sc') ->
  finished (run sched fuel 0 (start (_resetStats sc) rootDir root)) = true
  /\ sc' = _sortFilesByCreateTime
             (this (run sched fuel 0 (start (_resetStats sc) rootDir root)))
  /\ result = _getScanResults sc'
  /\ options sc' = options sc.
Proof.
  unfold scanDirectory.
  destruct (finished (run sched fuel 0 (start (_resetStats sc) rootDir root)))
    eqn:E.
  - intros H. inversion H; subst. repeat split.
    unfold _sortFilesByCreateTime; cbn [options].
    now rewrite options_run, options_start.
  - destruct (running _); discriminate.
Qed.

(** ** Time-range query (C7) *)

Lemma getFilesByTimeRange_closed sc s e :
  getFilesByTimeRange sc (Some s) (Some e)
  = filter (fun file => (s <=? createTime file) && (createTime file <=? e))
      (filesByCreateTime sc).
Proof.
  unfold getFilesByTimeRange. apply filter_ext. intros f.
  now rewrite Z.geb_leb.
Qed.

(** ** Digest formats (C6) *)

Lemma length_string_of_list_ascii l :
  String.length (string_of_list_ascii l) = length l.
Proof. induction l; simpl; congruence. Qed.

Lemma length_list_ascii_of_string s :
  length (list_ascii_of_string s) = String.length s.
Proof. induction s; simpl; congruence. Qed.

Lemma hex_digit_lower d : 0 <= d < 16 -> is_lower_hex (hex_digit d) = true.
Proof.
  intros H. unfold hex_digit.
  assert (Hn : (Z.to_nat d < 16)%nat) by lia.
  revert Hn. generalize (Z.to_nat d) as n. intros n Hn.
  do 16 (destruct n as [|n]; [reflexivity|]). lia.
Qed.

Lemma digit_value_hex_digit d : 0 <= d < 16 -> digit_value (hex_digit d) = d.
Proof.
  intros H. unfold hex_digit.
  assert (Hn : (Z.to_nat d < 16)%nat) by lia.
  replace d with (Z.of_nat (Z.to_nat d)) at 2 by lia.
  revert Hn. generalize (Z.to_nat d) as n. intros n Hn.
  do 16 (destruct n as [|n]; [reflexivity|]). lia.
Qed.

Lemma byte_to_Z_range b : 0 <= byte_to_Z b < 256.
Proof.
  unfold byte_to_Z. pose proof (Byte.to_N_bounded b). lia.
Qed.

Lemma byte_hex_lower b : forallb is_lower_hex (byte_hex b) = true.
Proof.
  pose proof (byte_to_Z_range b). unfold byte_hex. cbn [forallb].
  rewrite !hex_digit_lower; [reflexivity| |].
  - apply Z.mod_pos_bound. lia.
  - split; [apply Z.div_pos; lia | apply Z.div_lt_upper_bound; lia].
Qed.

Lemma hex_of_bytes_length bs :
  String.length (hex_of_bytes bs) = (2 * length bs)%nat.
Proof.
  unfold hex_of_bytes. rewrite length_string_of_list_ascii.
  induction bs as [|b bs IH]; simpl; lia.
Qed.

Lemma list_ascii_of_string_of_list l :
  list_ascii_of_string (string_of_list_ascii l) = l.
Proof. induction l; simpl; congruence. Qed.

Lemma hex_of_bytes_lower bs : lower_hex (hex_of_bytes bs) = true.
Proof.
  unfold lower_hex, hex_of_bytes. rewrite list_ascii_of_string_of_list.
  induction bs as [|b bs IH]; [reflexivity|].
  cbn [flat_map]. rewrite forallb_app, IH, byte_hex_lower. reflexivity.
Qed.

Lemma le_bytes_length k n : length (le_bytes k n) = k.
Proof. revert n. induction k; intros n; simpl; congruence. Qed.

Lemma MD5_digest_length msg : length (MD5.digest msg) = 16%nat.
Proof.
  unfold MD5.digest, MD5.state_bytes.
  rewrite !length_app, !le_bytes_length. reflexivity.
Qed.

Lemma MD5_digest_hex_format msg :
  String.length (MD5.digest_hex msg) = 32%nat
  /\ lower_hex (MD5.digest_hex msg) = true.
Proof.
  unfold MD5.digest_hex. rewrite hex_of_bytes_length, MD5_digest_length.
  split; [reflexivity | apply hex_of_bytes_lower].
Qed.

Lemma awaited_digest_format o f fileSize d :
  awaited_digest o f fileSize = Some d ->
  String.length d = 32%nat /\ lower_hex d = true.
Proof.
  unfold awaited_digest, _calculateFullHash, _calculateSampledHash.
  destruct (fileSize <=? hashThreshold o).
  - destruct (fcontent f); simpl; intros H; inversion H.
    apply MD5_digest_hex_format.
  - destruct (map _ _) as [|[h|] [|[m|] [|[t|] [|]]]]; intros H; inversion H.
    apply MD5_digest_hex_format.
Qed.

(** [toString(16)] and [padStart]. *)
Lemma toString16_digits_length fuel : forall n k,
  0 <= n < 16 ^ Z.of_nat k -> (1 <= k)%nat ->
  (length (toString16_digits fuel n) <= k)%nat.
Proof.
  induction fuel as [|fuel IH]; intros n k Hn Hk; cbn [toString16_digits].
  - simpl. lia.
  - destruct (Z.ltb_spec n 16) as [Hlt|Hge]; [simpl; lia|].
    rewrite length_app. cbn [length].
    destruct k as [|[|k]]; [lia | simpl in Hn; lia |].
    assert (H16 : 16 ^ Z.of_nat (S (S k)) = 16 * 16 ^ Z.of_nat (S k)).
    { rewrite <- Z.pow_succ_r by lia. f_equal. lia. }
    specialize (IH (n / 16) (S k)).
    assert (0 <= n / 16 < 16 ^ Z.of_nat (S k)).
    { split; [apply Z.div_pos; lia|]. apply Z.div_lt_upper_bound; lia. }
    specialize (IH ltac:(assumption) ltac:(lia)). lia.
Qed.

Lemma toString16_digits_lower fuel : forall n,
  0 <= n -> forallb is_lower_hex (toString16_digits fuel n) = true.
Proof.
  induction fuel as [|fuel IH]; intros n Hn; cbn [toString16_digits];
    [reflexivity|].
  destruct (Z.ltb_spec n 16) as [Hlt|Hge].
  - cbn [forallb]. rewrite hex_digit_lower by lia. reflexivity.
  - rewrite forallb_app, IH by (apply Z.div_pos; lia).
    cbn [forallb]. rewrite hex_digit_lower; [reflexivity|].
    apply Z.mod_pos_bound. lia.
Qed.

Lemma digits_value_snoc l c :
  digits_value (l ++ [c]) = 16 * digits_value l + digit_value c.
Proof. unfold digits_value. now rewrite fold_left_app. Qed.

Lemma toString16_digits_value fuel : forall n,
  0 <= n < 16 ^ Z.of_nat fuel -> digits_value (toString16_digits fuel n) = n.
Proof.
  induction fuel as [|fuel IH]; intros n Hn; cbn [toString16_digits].
  - simpl in Hn. unfold digits_value. simpl. lia.
  - destruct (Z.ltb_spec n 16) as [Hlt|Hge].
    + unfold digits_value. cbn [fold_left].
      rewrite digit_value_hex_digit by lia. lia.
    + rewrite digits_value_snoc, digit_value_hex_digit
        by (apply Z.mod_pos_bound; lia).
      rewrite IH.
      * pose proof (Z.div_mod n 16 ltac:(lia)). lia.
      * assert (H16 : 16 ^ Z.of_nat (S fuel) = 16 * 16 ^ Z.of_nat fuel).
        { rewrite <- Z.pow_succ_r by lia. f_equal. lia. }
        split; [apply Z.div_pos; lia|]. apply Z.div_lt_upper_bound; lia.
Qed.

Lemma toString16_fuel n :
  0 <= n -> n < 16 ^ Z.of_nat (S (Z.to_nat (Z.log2 n))).
Proof.
  intros Hn. pose proof (Z.log2_nonneg n) as Hl.
  assert (H2 : n < 2 ^ Z.succ (Z.log2 n)).
  { destruct (Z.eq_dec n 0) as [->|Hne]; [reflexivity|].
    apply Z.log2_spec. lia. }
  replace (Z.of_nat (S (Z.to_nat (Z.log2 n)))) with (Z.succ (Z.log2 n)) by lia.
  eapply Z.lt_le_trans; [exact H2|].
  apply Z.pow_le_mono_l. lia.
Qed.

Lemma digits_value_zeros k l :
  digits_value (repeat "0"%char k ++ l) = digits_value l.
Proof.
  unfold digits_value. rewrite fold_left_app. f_equal.
  induction k as [|k IH]; [reflexivity|]. simpl. exact IH.
Qed.

Lemma render_format h :
  0 <= h < 2 ^ 64 ->
  String.length (FastHash.render h) = 16%nat
  /\ lower_hex (FastHash.render h) = true
  /\ hex_value (FastHash.render h) = h.
Proof.
  intros Hh. unfold FastHash.render, padStart, toString16, lower_hex, hex_value.
  rewrite !length_string_of_list_ascii, !list_ascii_of_string_of_list.
  set (ds := toString16_digits (S (Z.to_nat (Z.log2 h))) h).
  assert (Hlen : (length ds <= 16)%nat).
  { apply toString16_digits_length; [|lia].
    change (16 ^ Z.of_nat 16) with (2 ^ 64). exact Hh. }
  repeat split.
  - rewrite length_app, repeat_length. lia.
  - rewrite forallb_app. unfold ds at 2.
    rewrite toString16_digits_lower by lia.
    rewrite andb_true_r. induction (16 - length ds)%nat; [reflexivity|].
    simpl. assumption.
  - fold (digits_value (repeat "0"%char (16 - length ds) ++ ds)).
    rewrite digits_value_zeros. apply toString16_digits_value.
    split; [lia | apply toString16_fuel; lia].
Qed.

Lemma fnv_step_range h b : 0 <= FastHash.fnv_step h b < 2 ^ 64.
Proof. unfold FastHash.fnv_step, FastHash.asUintN64. apply Z.mod_pos_bound. lia. Qed.

Lemma fnv1a64_range buffer : forall seed,
  buffer <> [] -> 0 <= FastHash.fnv1a64 buffer seed < 2 ^ 64.
Proof.
  unfold FastHash.fnv1a64.
  induction buffer as [|b buffer IH]; intros seed Hne; [congruence|].
  cbn [fold_left]. destruct buffer as [|b' buffer].
  - apply fnv_step_range.
  - apply IH. discriminate.
Qed.

Lemma hashVal_range buffer fileSize :
  0 <= FastHash.hashVal buffer fileSize < 2 ^ 64.
Proof. unfold FastHash.hashVal. apply fnv1a64_range. discriminate. Qed.

(** ** Size mixing in [calculateFastHash] *)

Section SizeMixing.
Import FastHash.

#[local] Abbreviation P := FNV_PRIME.
#[local] Abbreviation M := (2 ^ 64).

(** Xor with a byte moves a value by less than 256. *)
Lemma lxor_byte_delta h b :
  0 <= h -> 0 <= b < 256 ->
  - 255 <= Z.lxor h b - h <= 255 /\ 0 <= Z.lxor h b.
Proof.
  intros Hh Hb.
  pose proof (Zbitwise.Z.add_lxor_2land h b) as Hx.
  assert (H0 : 0 <= Z.land b h) by (apply Z.land_nonneg; lia).
  assert (H1 : 0 <= Z.land b (Z.lnot h)) by (apply Z.land_nonneg; lia).
  pose proof (Zbitwise.Z.sub_land_same_l b h) as Hs.
  rewrite (Z.land_comm h b) in Hx.
  split; [lia|]. apply Z.lxor_nonneg. lia.
Qed.

Lemma lxor_byte_inj h b c : Z.lxor h b = Z.lxor h c -> b = c.
Proof.
  intros H. apply Z.lxor_eq.
  replace (Z.lxor b c) with (Z.lxor (Z.lxor h b) (Z.lxor h c)).
  - rewrite H. apply Z.lxor_nilpotent.
  - rewrite Z.lxor_assoc, <- (Z.lxor_assoc b h c), (Z.lxor_comm b h),
      Z.lxor_assoc, <- Z.lxor_assoc, Z.lxor_nilpotent, Z.lxor_0_l.
    reflexivity.
Qed.

(** Multiplication by the prime is invertible modulo [2^64]. *)
Lemma prime_cancel d k : d * P = M * k -> exists k', d = M * k'.
Proof.
  intros H.
  exists (k * 0xce965057aff6957b - 887285111055 * d).
  unfold FNV_PRIME in *. lia.
Qed.

(** No short combination of powers of the prime vanishes modulo
    [2^64]: each of the six relations below is the given one multiplied
    by a constant and reduced, and is too small to be a nonzero multiple
    of [2^64]. *)
Lemma no_short_relation e1 e2 e3 e4 e5 e6 m :
  - 510 <= e1 <= 510 -> - 510 <= e2 <= 510 -> - 510 <= e3 <= 510 ->
  - 510 <= e4 <= 510 -> - 510 <= e5 <= 510 -> - 510 <= e6 <= 510 ->
  e1 * P ^ 5 + e2 * P ^ 4 + e3 * P ^ 3 + e4 * P ^ 2 + e5 * P + e6 = M * m ->
  e1 = 0 /\ e2 = 0 /\ e3 = 0 /\ e4 = 0 /\ e5 = 0 /\ e6 = 0.
Proof.
  intros H1 H2 H3 H4 H5 H6 Heq.
  assert (Hv : e1 * 1606938047437756339251907615453285773121308785567455066942051 + e2 * 1461501639643759632241992381230392390794884791441 + e3 * 1329227997362564068125063396651957931 + e4 * 1208925820571204291060521 + e5 * 1099511628211 + e6 * 1 = M * m).
  { rewrite <- Heq. unfold FNV_PRIME. ring. }
  clear Heq.
  assert (R1 : e1 * 4482579670404340 + e2 * (-5247281785750212) + e3 * (-1973864442898476) + e4 * (-1178876700584228) + e5 * (-4977183758088268) + e6 * 5046382459189116 = 0).
  { assert (HW : exists W, e1 * 4482579670404340 + e2 * (-5247281785750212) + e3 * (-1973864442898476) + e4 * (-1178876700584228) + e5 * (-4977183758088268) + e6 * 5046382459189116 = 2 ^ 64 * W)
      by (exists (5046382459189116 * m - (e1 * 439601912575500658274432237615738685828025937253258435311 + e2 * 399815610218484714850448096199937721377003098 + e3 * 363630179035958996764571504725017 + e4 * 330719721107103321704 + e5 * 300787834 + e6 * 0)); lia).
    destruct HW as (W & HW). assert (W = 0) by lia. lia. }
  assert (R2 : e1 * (-1150927258463695) + e2 * 6373219910648459 + e3 * (-2407835907481655) + e4 * (-7420022407511405) + e5 * (-521531150890079) + e6 * 2434785518635867 = 0).
  { assert (HW : exists W, e1 * (-1150927258463695) + e2 * 6373219910648459 + e3 * (-2407835907481655) + e4 * (-7420022407511405) + e5 * (-521531150890079) + e6 * 2434785518635867 = 2 ^ 64 * W)
      by (exists (2434785518635867 * m - (e1 * 212099732701482105532209101439470295276446354089651308482 + e2 * 192903583063133780251287959827241168342512943 + e3 * 175444786679522892923792370679977 + e4 * 159566103875578517307 + e5 * 145124526 + e6 * 0)); lia).
    destruct HW as (W & HW). assert (W = 0) by lia. lia. }
  assert (R3 : e1 * 6302646686563376 + e2 * (-1535281643037936) + e3 * 5452110822838448 + e4 * (-559839306353520) + e5 * 5164142811992368 + e6 * 4410605614494224 = 0).
  { assert (HW : exists W, e1 * 6302646686563376 + e2 * (-1535281643037936) + e3 * 5452110822838448 + e4 * (-559839306353520) + e5 * 5164142811992368 + e6 * 4410605614494224 = 2 ^ 64 * W)
      by (exists (4410605614494224 * m - (e1 * 384217938182089035810311076370456136121925096246984576578 + e2 * 349444178964477776353999837425786797067947045 + e3 * 317817629207845227618770116725156 + e4 * 289053449780210009489 + e5 * 262892581 + e6 * 0)); lia).
    destruct HW as (W & HW). assert (W = 0) by lia. lia. }
  assert (R4 : e1 * (-10117495039556816) + e2 * 644476066068496 + e3 * 7704392091402160 + e4 * (-4253954618046064) + e5 * (-3431600937981904) + e6 * 2518874921680656 = 0).
  { assert (HW : exists W, e1 * (-10117495039556816) + e2 * 644476066068496 + e3 * 7704392091402160 + e4 * (-4253954618046064) + e5 * (-3431600937981904) + e6 * 2518874921680656 = 2 ^ 64 * W)
      by (exists (2518874921680656 * m - (e1 * 219424952837841186934017777148116322311659279016890179067 + e2 * 199565831963836944878265700141192376350082300 + e3 * 181504066754207702470180583592686 + e4 * 165076986997882352740 + e5 * 150136645 + e6 * 0)); lia).
    destruct HW as (W & HW). assert (W = 0) by lia. lia. }
  assert (R5 : e1 * 10753435092956894 + e2 * 1503490379027114 + e3 * 2833942984976814 + e4 * (-84464088609638) + e5 * (-3509890893664258) + e6 * (-8107455562062582) = 0).
  { assert (HW : exists W, e1 * 10753435092956894 + e2 * 1503490379027114 + e3 * 2833942984976814 + e4 * (-84464088609638) + e5 * (-3509890893664258) + e6 * (-8107455562062582) = 2 ^ 64 * W)
      by (exists (18438636618147489034 * m - (e1 * 1606231788449257816720703323241625102037094189745807226373615 + e2 * 1460859300835894847166026979470555821505879437055 + e3 * 1328643793620299035811692100553472990 + e4 * 1208394490363068537138822 + e5 * 1099028386202 + e6 * 1)); lia).
    destruct HW as (W & HW). assert (W = 0) by lia. lia. }
  assert (R6 : e1 * (-964417354571113) + e2 * 6415703093100941 + e3 * (-1237812376006721) + e4 * 6915764390345669 + e5 * (-1040540266766169) + e6 * 8671412534092605 = 0).
  { assert (HW : exists W, e1 * (-964417354571113) + e2 * 6415703093100941 + e3 * (-1237812376006721) + e4 * 6915764390345669 + e5 * (-1040540266766169) + e6 * 8671412534092605 = 2 ^ 64 * W)
      by (exists (8671412534092605 * m - (e1 * 755386569596393383093048125311990274587258628747398130448 + e2 * 687020082566541211396363631460710253033402904 + e3 * 624841124858662917252190948107461 + e4 * 568289692283958084871 + e5 * 516856464 + e6 * 0)); lia).
    destruct HW as (W & HW). assert (W = 0) by lia. lia. }
  clear Hv. lia.
Qed.

Lemma byte_to_Z_inj b c : byte_to_Z b = byte_to_Z c -> b = c.
Proof.
  unfold byte_to_Z. intros H. apply N2Z.inj in H.
  pose proof (Byte.of_to_N b) as Hb. rewrite H, Byte.of_to_N in Hb.
  congruence.
Qed.

(** How far apart two states are after one more byte each. *)
Lemma fnv_step_difference x y b c :
  0 <= x -> 0 <= y ->
  exists e k,
    - 510 <= e <= 510
    /\ fnv_step x b - fnv_step y c = (x - y + e) * P - M * k
    /\ (x = y -> e = 0 -> b = c).
Proof.
  intros Hx Hy. unfold fnv_step, asUintN64.
  destruct (lxor_byte_delta x (byte_to_Z b) Hx (byte_to_Z_range b)) as [Hb _].
  destruct (lxor_byte_delta y (byte_to_Z c) Hy (byte_to_Z_range c)) as [Hc _].
  set (u := Z.lxor x (byte_to_Z b)) in *.
  set (v := Z.lxor y (byte_to_Z c)) in *.
  exists ((u - x) - (v - y)), (u * P / M - v * P / M).
  split; [lia|]. split.
  - pose proof (Z.div_mod (u * P) M ltac:(lia)).
    pose proof (Z.div_mod (v * P) M ltac:(lia)).
    lia.
  - intros -> He. apply byte_to_Z_inj, (lxor_byte_inj y). subst u v. lia.
Qed.

(** Six bytes fed from a common state cannot bring two runs together
    again unless they are the same six bytes. *)
Lemma six_bytes_injective seed b1 b2 b3 b4 b5 b6 c1 c2 c3 c4 c5 c6 :
  0 <= seed ->
  fnv1a64 [b1; b2; b3; b4; b5; b6] seed
  = fnv1a64 [c1; c2; c3; c4; c5; c6] seed ->
  [b1; b2; b3; b4; b5; b6] = [c1; c2; c3; c4; c5; c6].
Proof.
  intros Hseed. unfold fnv1a64. cbn [fold_left].
  set (x1 := fnv_step seed b1). set (y1 := fnv_step seed c1).
  set (x2 := fnv_step x1 b2). set (y2 := fnv_step y1 c2).
  set (x3 := fnv_step x2 b3). set (y3 := fnv_step y2 c3).
  set (x4 := fnv_step x3 b4). set (y4 := fnv_step y3 c4).
  set (x5 := fnv_step x4 b5). set (y5 := fnv_step y4 c5).
  intros Hend.
  assert (R : forall h b, 0 <= fnv_step h b) by (intros; apply fnv_step_range).
  destruct (fnv_step_difference seed seed b1 c1 Hseed Hseed)
    as (e1 & k1 & B1 & D1 & I1).
  destruct (fnv_step_difference x1 y1 b2 c2 (R _ _) (R _ _))
    as (e2 & k2 & B2 & D2 & I2).
  destruct (fnv_step_difference x2 y2 b3 c3 (R _ _) (R _ _))
    as (e3 & k3 & B3 & D3 & I3).
  destruct (fnv_step_difference x3 y3 b4 c4 (R _ _) (R _ _))
    as (e4 & k4 & B4 & D4 & I4).
  destruct (fnv_step_difference x4 y4 b5 c5 (R _ _) (R _ _))
    as (e5 & k5 & B5 & D5 & I5).
  destruct (fnv_step_difference x5 y5 b6 c6 (R _ _) (R _ _))
    as (e6 & k6 & B6 & D6 & I6).
  fold x1 y1 in D1. fold x2 y2 in D2. fold x3 y3 in D3.
  fold x4 y4 in D4. fold x5 y5 in D5.
  rewrite Hend, Z.sub_diag in D6.
  destruct (prime_cancel (x5 - y5 + e6) k6 ltac:(lia)) as (k' & D6').
  assert (Hrel : e1 * P ^ 5 + e2 * P ^ 4 + e3 * P ^ 3 + e4 * P ^ 2
                 + e5 * P + e6
                 = M * (k' + k5 + k4 * P + k3 * P ^ 2 + k2 * P ^ 3
                        + k1 * P ^ 4)).
  { replace e6 with (M * k' - (x5 - y5)) by lia.
    rewrite D5, D4, D3, D2, D1. ring. }
  destruct (no_short_relation _ _ _ _ _ _ _ B1 B2 B3 B4 B5 B6 Hrel)
    as (-> & -> & -> & -> & -> & ->).
  assert (E1 : b1 = c1) by auto. subst c1.
  assert (E2 : b2 = c2) by auto. subst c2.
  assert (E3 : b3 = c3) by auto. subst c3.
  assert (E4 : b4 = c4) by auto. subst c4.
  assert (E5 : b5 = c5) by auto. subst c5.
  assert (E6 : b6 = c6) by auto. subst c6.
  reflexivity.
Qed.

Lemma lxor_byte_below h b : 0 <= h < M -> 0 <= b < 256 -> Z.lxor h b < M.
Proof.
  intros Hh Hb.
  destruct (Z.eq_dec (Z.lxor h b) 0) as [->|Hne]; [lia|].
  assert (Hpos : 0 < Z.lxor h b).
  { destruct (lxor_byte_delta h b ltac:(lia) Hb). lia. }
  apply Z.log2_lt_pow2; [assumption|].
  pose proof (Z.log2_lxor h b ltac:(lia) ltac:(lia)) as Hl.
  assert (Z.log2 h < 64).
  { destruct (Z.eq_dec h 0) as [->|]; [simpl; lia|].
    apply Z.log2_lt_pow2; lia. }
  assert (Z.log2 b < 64).
  { destruct (Z.eq_dec b 0) as [->|]; [simpl; lia|].
    apply Z.log2_lt_pow2; lia. }
  lia.
Qed.

(** One byte fed to two different states keeps them different. *)
Lemma fnv_step_injective x y b :
  0 <= x < M -> 0 <= y < M -> fnv_step x b = fnv_step y b -> x = y.
Proof.
  intros Hx Hy. unfold fnv_step, asUintN64.
  pose proof (byte_to_Z_range b) as Hb.
  pose proof (lxor_byte_below x _ Hx Hb).
  pose proof (lxor_byte_below y _ Hy Hb).
  destruct (lxor_byte_delta x _ ltac:(lia) Hb) as [_ Hu].
  destruct (lxor_byte_delta y _ ltac:(lia) Hb) as [_ Hv].
  set (u := Z.lxor x (byte_to_Z b)) in *.
  set (v := Z.lxor y (byte_to_Z b)) in *.
  intros Heq.
  pose proof (Z.div_mod (u * P) M ltac:(lia)).
  pose proof (Z.div_mod (v * P) M ltac:(lia)).
  destruct (prime_cancel (u - v) (u * P / M - v * P / M) ltac:(lia))
    as (k & Hk).
  assert (k = 0) by lia.
  assert (Huv : u = v) by lia. subst u v.
  rewrite (Z.lxor_comm x), (Z.lxor_comm y) in Huv.
  now apply lxor_byte_inj in Huv.
Qed.

Lemma Z_to_byte_value z : byte_to_Z (Z_to_byte z) = z mod 256.
Proof.
  unfold Z_to_byte, byte_to_Z.
  pose proof (Z.mod_pos_bound z 256 ltac:(lia)) as Hz.
  destruct (Byte.of_N (Z.to_N (z mod 256))) as [b|] eqn:E.
  - apply Byte.to_of_N in E. rewrite E. lia.
  - apply Byte.of_N_None_iff in E. lia.
Qed.

Lemma le_bytes_injective k : forall s1 s2,
  le_bytes k s1 = le_bytes k s2 ->
  s1 mod 256 ^ Z.of_nat k = s2 mod 256 ^ Z.of_nat k.
Proof.
  induction k as [|k IH]; intros s1 s2 H.
  - simpl. now rewrite !Z.mod_1_r.
  - cbn [le_bytes] in H. inversion H as [[H0 Hrest]].
    apply (f_equal byte_to_Z) in H0. rewrite !Z_to_byte_value in H0.
    rewrite !Z.mod_mod in H0 by lia.
    apply IH in Hrest.
    replace (256 ^ Z.of_nat (S k)) with (256 * 256 ^ Z.of_nat k)
      by (rewrite <- Z.pow_succ_r by lia; f_equal; lia).
    rewrite !Z.rem_mul_r by lia. lia.
Qed.

Lemma le_bytes_app k : forall j n,
  le_bytes (k + j) n = le_bytes k n ++ le_bytes j (n / 256 ^ Z.of_nat k).
Proof.
  induction k as [|k IH]; intros j n.
  - simpl. now rewrite Z.div_1_r.
  - cbn [le_bytes Nat.add app]. rewrite IH. do 2 f_equal.
    replace (256 ^ Z.of_nat (S k)) with (256 * 256 ^ Z.of_nat k)
      by (rewrite <- Z.pow_succ_r by lia; f_equal; lia).
    rewrite Z.div_div by lia. reflexivity.
Qed.

(** The second pass separates any two sizes below [2^48]. *)
Lemma size_pass_injective seed s1 s2 :
  0 <= seed < M -> 0 <= s1 < 2 ^ 48 -> 0 <= s2 < 2 ^ 48 ->
  fnv1a64 (le_bytes 8 s1) seed = fnv1a64 (le_bytes 8 s2) seed ->
  s1 = s2.
Proof.
  intros Hseed H1 H2.
  rewrite !(le_bytes_app 6 2).
  change (256 ^ Z.of_nat 6) with (2 ^ 48).
  rewrite !Z.div_small by assumption.
  unfold fnv1a64. rewrite !fold_left_app.
  change (le_bytes 2 0) with [Z_to_byte 0; Z_to_byte 0].
  cbn [fold_left]. intros H.
  assert (R : forall l h, 0 <= h < M -> 0 <= fold_left fnv_step l h < M).
  { induction l as [|b l IH]; intros h Hh; [exact Hh|].
    cbn [fold_left]. apply IH, fnv_step_range. }
  apply fnv_step_injective in H; try apply fnv_step_range.
  apply fnv_step_injective in H; try (apply R; assumption).
  assert (Hsix : le_bytes 6 s1 = le_bytes 6 s2).
  { revert H. cbn [le_bytes]. apply six_bytes_injective. lia. }
  apply le_bytes_injective in Hsix.
  change (256 ^ Z.of_nat 6) with (2 ^ 48) in Hsix.
  rewrite !Z.mod_small in Hsix by assumption. exact Hsix.
Qed.
End SizeMixing.

Lemma render_injective h1 h2 :
  0 <= h1 < 2 ^ 64 -> 0 <= h2 < 2 ^ 64 ->
  FastHash.render h1 = FastHash.render h2 -> h1 = h2.
Proof.
  intros H1 H2 H.
  destruct (render_format h1 H1) as (_ & _ & <-).
  destruct (render_format h2 H2) as (_ & _ & <-).
  now rewrite H.
Qed.

Lemma fnv1a64_seed_range buffer :
  0 <= FastHash.fnv1a64 buffer FastHash.FNV_OFFSET_BASIS < 2 ^ 64.
Proof.
  destruct buffer as [|b buffer].
  - unfold FastHash.fnv1a64, FastHash.FNV_OFFSET_BASIS. simpl. lia.
  - apply fnv1a64_range. discriminate.
Qed.

Lemma calculateFastHash_value content d :
  FastHash.calculateFastHash (Some content) = Some d ->
  d = FastHash.render
        (FastHash.hashVal (FastHash.sample content) (Z.of_nat (length content))).
Proof.
  unfold FastHash.calculateFastHash.
  destruct (Z.of_nat (length content) <? 2 ^ 64); congruence.
Qed.

Lemma hashVal_injective buffer s1 s2 :
  0 <= s1 < 2 ^ 48 -> 0 <= s2 < 2 ^ 48 ->
  FastHash.hashVal buffer s1 = FastHash.hashVal buffer s2 -> s1 = s2.
Proof.
  intros H1 H2. unfold FastHash.hashVal.
  apply size_pass_injective; [apply fnv1a64_seed_range | assumption..].
Qed.

Lemma hashVal_render_injective buffer s1 s2 :
  0 <= s1 < 2 ^ 48 -> 0 <= s2 < 2 ^ 48 ->
  FastHash.render (FastHash.hashVal buffer s1)
  = FastHash.render (FastHash.hashVal buffer s2) -> s1 = s2.
Proof.
  intros H1 H2 H. apply (hashVal_injective buffer); [assumption..|].
  apply render_injective; [apply hashVal_range..|exact H].
Qed.

(** [calculateFastHash] tells apart two files that agree on every sampled
    byte and differ in size, up to 256 TiB. *)
Lemma calculateFastHash_separates_sizes content1 content2 d1 d2 :
  FastHash.sample content1 = FastHash.sample content2 ->
  length content1 <> length content2 ->
  Z.of_nat (length content1) < 2 ^ 48 ->
  Z.of_nat (length content2) < 2 ^ 48 ->
  FastHash.calculateFastHash (Some content1) = Some d1 ->
  FastHash.calculateFastHash (Some content2) = Some d2 ->
  d1 <> d2.
Proof.
  intros Hs Hne Hl1 Hl2 E1 E2 Heq.
  apply calculateFastHash_value in E1, E2. rewrite E1, E2, Hs in Heq.
  apply hashVal_render_injective in Heq.
  - apply Nat2Z.inj in Heq. contradiction.
  - split; [apply Nat2Z.is_nonneg | assumption].
  - split; [apply Nat2Z.is_nonneg | assumption].
Qed.

(** ** Streams: chunks and their interleaving *)

Lemma chunks_of_concat (n : nat) : forall fuel b,
  (1 <= n)%nat -> (length b <= fuel)%nat ->
  List.concat (chunks_of fuel n b) = b.
Proof.
  induction fuel as [|fuel IH]; intros b Hn Hl.
  - destruct b; [reflexivity|simpl in Hl; lia].
  - destruct b as [|x b]; [reflexivity|].
    cbn [chunks_of List.concat]. rewrite IH.
    + apply firstn_skipn.
    + exact Hn.
    + rewrite length_skipn. cbn [length] in *. lia.
Qed.

Lemma concat_chunks (b : Buffer) : List.concat (chunks b) = b.
Proof.
  unfold chunks. apply chunks_of_concat; [|lia].
  unfold highWaterMark. lia.
Qed.

Lemma chunks_nil : chunks [] = [].
Proof. reflexivity. Qed.

(** A window of at most [highWaterMark] bytes arrives in one event. *)
Lemma chunks_single (b : Buffer) :
  b <> [] -> Z.of_nat (length b) <= highWaterMark -> chunks b = [b].
Proof.
  intros Hb Hl. unfold chunks.
  destruct b as [|x b]; [contradiction|].
  cbn [length chunks_of].
  rewrite firstn_all2 by lia.
  rewrite skipn_all2 by lia.
  destruct (length b); reflexivity.
Qed.

Lemma interleave_perm (arrival : Arrival) : forall hs ms ts,
  Permutation (interleave arrival hs ms ts) (hs ++ ms ++ ts).
Proof.
  induction arrival as [|s rest IH]; intros hs ms ts; cbn [interleave].
  - apply Permutation_refl.
  - destruct s.
    + destruct hs as [|c hs]; [apply IH|].
      cbn [app]. apply perm_skip, IH.
    + destruct ms as [|c ms]; [apply IH|].
      eapply perm_trans; [apply perm_skip, IH|].
      apply Permutation_middle.
    + destruct ts as [|c ts]; [apply IH|].
      eapply perm_trans; [apply perm_skip, IH|].
      rewrite !app_assoc. apply Permutation_middle.
Qed.

Lemma length_concat_perm (l1 l2 : list Buffer) :
  Permutation l1 l2 ->
  length (List.concat l1) = length (List.concat l2).
Proof.
  induction 1; cbn [List.concat]; rewrite ?length_app; lia.
Qed.

(** Nothing is lost and nothing is added on the way to [hash.update]. *)
Lemma delivered_length (arrival : Arrival) (h m t : Buffer) :
  length (delivered arrival h m t) = (length h + length m + length t)%nat.
Proof.
  unfold delivered.
  rewrite (length_concat_perm _ _ (interleave_perm arrival _ _ _)).
  rewrite !concat_app, !length_app, !concat_chunks. lia.
Qed.

Lemma Forall_same_repeat {A : Type} (c : A) (l : list A) :
  Forall (eq c) l -> l = repeat c (length l).
Proof.
  induction 1 as [|x l Hx _ IH]; [reflexivity|].
  cbn [length repeat]. now rewrite <- Hx, <- IH.
Qed.

(** Three equal windows of one chunk each: the order of arrival does not
    show. *)
Lemma delivered_same (arrival : Arrival) (c : Buffer) :
  c <> [] -> Z.of_nat (length c) <= highWaterMark ->
  delivered arrival c c c = c ++ c ++ c.
Proof.
  intros Hc Hl. unfold delivered. rewrite (chunks_single c Hc Hl).
  pose proof (interleave_perm arrival [c] [c] [c]) as P.
  assert (F : Forall (eq c) (interleave arrival [c] [c] [c])).
  { eapply Permutation_Forall; [apply Permutation_sym, P|].
    repeat constructor. }
  apply Forall_same_repeat in F.
  apply Permutation_length in P. cbn [app length] in P.
  rewrite F, P. cbn [repeat List.concat]. now rewrite app_nil_r.
Qed.

(** Windows of at most [highWaterMark] bytes reach [hash.update] whole, in
    one of the six orders. *)
Lemma delivered_whole (arrival : Arrival) (h m t : Buffer) :
  Z.of_nat (length h) <= highWaterMark ->
  Z.of_nat (length m) <= highWaterMark ->
  Z.of_nat (length t) <= highWaterMark ->
  exists ws,
    Permutation ws [h; m; t]
    /\ delivered arrival h m t = List.concat ws.
Proof.
  intros Hh Hm Ht. unfold delivered.
  assert (C : forall b, Z.of_nat (length b) <= highWaterMark ->
                (b = [] /\ chunks b = []) \/ chunks b = [b]).
  { intros b Hb. destruct b as [|x b]; [left; split; reflexivity|].
    right. apply chunks_single; [discriminate|exact Hb]. }
  destruct (C h Hh) as [[-> ->]| ->], (C m Hm) as [[-> ->]| ->],
    (C t Ht) as [[-> ->]| ->];
    match goal with
    | |- context [interleave arrival ?hs ?ms ?ts] =>
        pose proof (interleave_perm arrival hs ms ts) as P
    end; cbn [app] in P.
  - exists [[]; []; []]. split; [apply Permutation_refl|].
    apply Permutation_sym, Permutation_nil in P. now rewrite P.
  - exists ([] :: [] :: interleave arrival [] [] [t]).
    split; [now do 2 apply perm_skip|reflexivity].
  - exists ([] :: [] :: interleave arrival [] [m] []).
    split; [|reflexivity].
    eapply perm_trans; [do 2 apply perm_skip; exact P|].
    eapply perm_trans; [apply perm_skip, perm_swap|apply Permutation_refl].
  - exists ([] :: interleave arrival [] [m] [t]).
    split; [now apply perm_skip|reflexivity].
  - exists ([] :: [] :: interleave arrival [h] [] []).
    split; [|reflexivity].
    eapply perm_trans; [do 2 apply perm_skip; exact P|].
    eapply perm_trans; [apply perm_skip, perm_swap|]. apply perm_swap.
  - exists ([] :: interleave arrival [h] [] [t]).
    split; [|reflexivity].
    eapply perm_trans; [apply perm_skip; exact P|]. apply perm_swap.
  - exists ([] :: interleave arrival [h] [m] []).
    split; [|reflexivity].
    eapply perm_trans; [apply perm_skip; exact P|].
    eapply perm_trans; [apply perm_swap|]. apply perm_skip, perm_swap.
  - exists (interleave arrival [h] [m] [t]). split; [exact P|reflexivity].
Qed.

(** The digest of a sampled file, from its windows. *)
Lemma sampled_digest ss content arrival fileSize h m t :
  map (window content fileSize) (positions ss fileSize)
  = [Some h; Some m; Some t] ->
  _calculateSampledHash ss content arrival fileSize
  = Some (MD5.digest_hex (delivered arrival h m t)).
Proof. unfold _calculateSampledHash. now intros ->. Qed.

Lemma chunks_of_two (n fuel : nat) (b : Buffer) :
  (1 <= n)%nat -> (n < length b <= 2 * n)%nat -> (length b <= fuel)%nat ->
  chunks_of fuel n b = [firstn n b; skipn n b].
Proof.
  intros Hn Hb Hf.
  destruct fuel as [|fuel]; [lia|].
  destruct b as [|x b]; [cbn [length] in Hb; lia|].
  cbn [chunks_of]. f_equal.
  assert (Hl : length (skipn n (x :: b)) = (length (x :: b) - n)%nat)
    by apply length_skipn.
  destruct (skipn n (x :: b)) as [|y r] eqn:E;
    [cbn [length] in *; lia|].
  destruct fuel as [|fuel]; [cbn [length] in *; lia|].
  cbn [chunks_of].
  rewrite firstn_all2 by (cbn [length] in *; lia).
  rewrite skipn_all2 by (cbn [length] in *; lia).
  destruct fuel; reflexivity.
Qed.

(** Windows of more than 64 KiB arrive in several events each, and the
    events of the three streams mix: served in turn, three windows of two
    chunks reach [hash.update] as the three first chunks followed by the
    three second chunks, which is none of the six orders of the whole
    windows. *)
Lemma delivered_in_turn (h m t : Buffer) :
  highWaterMark < Z.of_nat (length h) <= 2 * highWaterMark ->
  highWaterMark < Z.of_nat (length m) <= 2 * highWaterMark ->
  highWaterMark < Z.of_nat (length t) <= 2 * highWaterMark ->
  delivered HMT h m t
  = firstn (Z.to_nat highWaterMark) h ++ firstn (Z.to_nat highWaterMark) m
    ++ firstn (Z.to_nat highWaterMark) t
    ++ skipn (Z.to_nat highWaterMark) h ++ skipn (Z.to_nat highWaterMark) m
    ++ skipn (Z.to_nat highWaterMark) t.
Proof.
  intros Hh Hm Ht. unfold delivered, chunks.
  assert (Hn : (1 <= Z.to_nat highWaterMark)%nat)
    by (unfold highWaterMark; lia).
  rewrite !chunks_of_two by lia.
  set (n := Z.to_nat highWaterMark).
  cbn [HMT interleave app List.concat]. now rewrite app_nil_r.
Qed.

(** ** Test vectors *)

Example md5_empty :
  MD5.digest_hex [] = "d41d8cd98f00b204e9800998ecf8427e".
Proof. vm_compute. reflexivity. Qed.

Example md5_abc :
  MD5.digest_hex (ascii_bytes "abc") = "900150983cd24fb0d6963f7d28e17f72".
Proof. vm_compute. reflexivity. Qed.

Example md5_a100 :
  MD5.digest_hex (repeat "a"%byte 100) = "36a92cc94a9e0fa21f625f8bfb007adf".
Proof. vm_compute. reflexivity. Qed.

Example fast_hash_empty :
  FastHash.calculateFastHash (Some []) = Some "a8c7f832281a39c5".
Proof. vm_compute. reflexivity. Qed.

Example fast_hash_1k :
  FastHash.calculateFastHash (Some (repeat "a"%byte 1024))
  = Some "cab602b8316c4259".
Proof. vm_compute. reflexivity. Qed.

(** ** The claims *)

(** Evaluation of the scanner on two files of zeros, 20000 and 30000 bytes
    long, for C1.  Whatever the order in which the sampled windows arrive,
    the windows of the two files are the same bytes, the scanner gives both
    files the same digest and a scan groups them as duplicates; the size
    takes no part in the digest.  [calculateFastHash] gives the same two
    files different digests. *)
Theorem C1_scanner_digest_ignores_size (a1 a2 : Arrival) :
  map (window (fcontent (zero_file "small.bin" 20000 a1)) 20000)
      (positions 2048 20000)
  = map (window (fcontent (zero_file "large.bin" 30000 a2)) 30000)
      (positions 2048 30000)
  /\ awaited_digest hashing_options (zero_file "small.bin" 20000 a1) 20000
     = Some "ff1ce2018aa17fe600fca636b126dbe4"
  /\ awaited_digest hashing_options (zero_file "large.bin" 30000 a2) 30000
     = Some "ff1ce2018aa17fe600fca636b126dbe4"
  /\ (exists result sc',
        scanDirectory serial 16 (new_scanner hashing_options) "root" two_sizes
        = Some (Resolved result sc')
        /\ getFilesByHash sc' "ff1ce2018aa17fe600fca636b126dbe4"
           = ["small.bin"; "large.bin"]
        /\ duplicateCount (res_stats result) = 2)
  /\ FastHash.calculateFastHash (Some (Buffer_alloc 20000))
     = Some "87ff348f604896eb"
  /\ FastHash.calculateFastHash (Some (Buffer_alloc 30000))
     = Some "bba80980bc5be27e".
Proof.
  assert (Hw : forall fileSize,
             map (window (Some (Buffer_alloc fileSize)) fileSize)
                 (positions 2048 fileSize)
             = [Some (Buffer_alloc 2048); Some (Buffer_alloc 2048);
                Some (Buffer_alloc 2048)] ->
             forall arrival,
               _calculateSampledHash 2048 (Some (Buffer_alloc fileSize))
                 arrival fileSize
               = Some "ff1ce2018aa17fe600fca636b126dbe4").
  { intros fileSize E arrival. rewrite (sampled_digest _ _ _ _ _ _ _ E).
    rewrite delivered_same by (vm_compute; discriminate).
    vm_compute. reflexivity. }
  split; [vm_compute; reflexivity|].
  split; [exact (Hw 20000 ltac:(vm_compute; reflexivity) a1)|].
  split; [exact (Hw 30000 ltac:(vm_compute; reflexivity) a2)|].
  split.
  - eexists. eexists. split; [vm_compute; reflexivity|].
    split; vm_compute; reflexivity.
  - split; vm_compute; reflexivity.
Qed.

(** The digest of the scanner is a function of the sampled windows and of
    their order of arrival alone. *)
Lemma _calculateSampledHash_windows_only ss c1 c2 s1 s2 arrival :
  map (window c1 s1) (positions ss s1) = map (window c2 s2) (positions ss s2) ->
  _calculateSampledHash ss c1 arrival s1 = _calculateSampledHash ss c2 arrival s2.
Proof. unfold _calculateSampledHash. now intros ->. Qed.

(** Counterexample to C2 as stated: a scan whose root cannot be read does
    not abort; it resolves with an empty result. *)
Lemma C2_unreadable_root_yields_a_result :
  readdir (Dir None) = None
  /\ exists result sc',
       scanDirectory serial 2 (new_scanner default_options) "missing" (Dir None)
       = Some (Resolved result sc')
       /\ res_totalFiles result = 0
       /\ console sc' = [CannotReadDirectory "missing"].
Proof.
  split; [reflexivity|]. eexists. eexists.
  split; [vm_compute; reflexivity|]. split; reflexivity.
Qed.

(** C2, amended: with a pool of at least one slot and batches of at least
    one file, every scan resolves with a result, under every schedule, once
    the event loop has run long enough; no failure of any item prevents it.
    A root that cannot be read is no exception: the scan resolves with no
    file, no directory counted, and one warning naming the root. *)
Theorem C2_every_scan_returns_a_result
    (sched : Schedule) (fuel : nat) (sc : Scanner) (rootDir : string)
    (root : Node) :
  1 <= maxConcurrency (options sc) ->
  1 <= batchSize (options sc) ->
  (weight root <= fuel)%nat ->
  exists result sc',
    scanDirectory sched fuel sc rootDir root = Some (Resolved result sc')
    /\ (readdir root = None ->
        res_totalFiles result = 0
        /\ res_totalSize result = 0
        /\ directoriesScanned (res_stats result) = 0
        /\ filesByCreateTime sc' = []
        /\ console sc' = console sc ++ [CannotReadDirectory rootDir]).
Proof.
  intros Hmax Hbs Hfuel.
  destruct (scanDirectory_resolves sched sc rootDir root fuel Hmax Hbs Hfuel)
    as (L & HL & Hfin & Hres).
  do 2 eexists. split; [exact Hres|].
  intros Hroot.
  assert (H2 : (2 <= fuel)%nat).
  { pose proof (weight_pos root). lia. }
  rewrite (run_unreadable_root sched (_resetStats sc) rootDir root fuel
             Hmax Hroot H2) in HL.
  subst L. cbn.
  repeat split; try reflexivity.
  unfold _sortFilesByCreateTime. cbn.
  destruct (is_quick (options sc)); reflexivity.
Qed.

Lemma C2_every_scan_returns_a_result_witness :
  exists result sc',
    scanDirectory shuffled 40 (new_scanner hashing_options) "root" four_files
    = Some (Resolved result sc')
    /\ (readdir four_files = None ->
        res_totalFiles result = 0
        /\ res_totalSize result = 0
        /\ directoriesScanned (res_stats result) = 0
        /\ filesByCreateTime sc' = []
        /\ console sc'
           = console (new_scanner hashing_options)
             ++ [CannotReadDirectory "root"]).
Proof.
  apply (C2_every_scan_returns_a_result shuffled 40
           (new_scanner hashing_options) "root" four_files).
  - vm_compute. discriminate.
  - vm_compute. discriminate.
  - vm_compute. lia.
Defined.

(** Counterexample to C3 as stated: no reading of the returned result
    gives the warnings of the scan.  A scan that meets an unreadable
    subdirectory and a scan of an empty directory return the same result;
    only the console tells them apart. *)
Lemma C3_result_carries_no_warning :
  ~ exists warnings, result_reports warnings.
Proof.
  intros (warnings & H).
  pose proof (H serial 8%nat default_options "root" locked_subdirectory
                _ _ eq_refl) as H1.
  pose proof (H serial 8%nat default_options "root" empty_directory
                _ _ eq_refl) as H2.
  vm_compute in H1, H2. rewrite H2 in H1. discriminate.
Qed.

(** C3, amended: every recovered error is printed as a console warning
    that names its kind and path, one warning per error and in the order
    of recovery; of these errors the returned result holds only the number
    of failed hashes, in [stats.hashErrors]. *)
Theorem C3_recovered_errors_are_console_warnings
    (sched : Schedule) (fuel : nat) (sc : Scanner) (rootDir : string)
    (root : Node) (result : ScanResult) (sc' : Scanner) :
  scanDirectory sched fuel sc rootDir root = Some (Resolved result sc') ->
  console sc'
  = console sc
    ++ warnings_of (options sc)
         (events sched fuel 0 (start (_resetStats sc) rootDir root))
  /\ hashErrors (res_stats result)
     = hash_failures
         (warnings_of (options sc)
            (events sched fuel 0 (start (_resetStats sc) rootDir root))).
Proof.
  intros H. apply scanDirectory_resolved in H.
  destruct H as (_ & -> & -> & _).
  destruct (console_run sched fuel 0 (start (_resetStats sc) rootDir root))
    as [Hc He].
  rewrite options_start in Hc, He. cbn [options _resetStats] in Hc, He.
  unfold _getScanResults, _sortFilesByCreateTime.
  cbn [console res_stats stats]. rewrite Hc, He. split.
  - f_equal. unfold start, processQueue. cbn.
    destruct (0 <? maxConcurrency (options sc)); reflexivity.
  - unfold start, processQueue. cbn.
    destruct (0 <? maxConcurrency (options sc)); reflexivity.
Qed.

Lemma C3_recovered_errors_are_console_warnings_witness :
  console (_sortFilesByCreateTime
             (this (run serial 8 0
                      (start (_resetStats (new_scanner default_options))
                         "root" locked_subdirectory))))
  = console (new_scanner default_options)
    ++ warnings_of (options (new_scanner default_options))
         (events serial 8 0
            (start (_resetStats (new_scanner default_options)) "root"
               locked_subdirectory))
  /\ hashErrors
       (res_stats
          (_getScanResults
             (_sortFilesByCreateTime
                (this (run serial 8 0
                         (start (_resetStats (new_scanner default_options))
                            "root" locked_subdirectory))))))
     = hash_failures
         (warnings_of (options (new_scanner default_options))
            (events serial 8 0
               (start (_resetStats (new_scanner default_options)) "root"
                  locked_subdirectory))).
Proof.
  apply (C3_recovered_errors_are_console_warnings serial 8
           (new_scanner default_options) "root" locked_subdirectory).
  vm_compute. reflexivity.
Defined.

(** Counterexample to C4 as stated: two files created at the same time
    stay in the order of discovery, here ["b.txt"] before ["a.txt"]; the
    listing is not ordered by creation time and then path. *)
Lemma C4_ties_are_not_broken_by_path :
  exists result sc',
    scanDirectory serial 8 (new_scanner default_options) "root" same_time
    = Some (Resolved result sc')
    /\ map path (filesByCreateTime sc') = ["b.txt"; "a.txt"]
    /\ map createTime (filesByCreateTime sc') = [5; 5]
    /\ ~ StronglySorted by_time_then_path (filesByCreateTime sc').
Proof.
  do 2 eexists. split; [vm_compute; reflexivity|].
  split; [reflexivity|]. split; [reflexivity|].
  intros H. inversion H as [|a l _ Hall]; subst.
  inversion Hall as [|b l' Hab _]; subst.
  destruct Hab as [Hlt | [_ Hle]]; [cbn in Hlt; lia|].
  vm_compute in Hle. discriminate.
Qed.

(** With [sortAlgorithm: 'quick'] the sorted copy is dropped: the listing
    is the file map in insertion order, sorted or not. *)
Lemma quick_sort_result_is_dropped sc :
  is_quick (options sc) = true ->
  filesByCreateTime (_sortFilesByCreateTime sc) = JsMap.values (fileMap sc).
Proof. intros H. unfold _sortFilesByCreateTime. now rewrite H. Qed.

Example quick_sort_leaves_newest_first :
  exists result sc',
    scanDirectory serial 8 (new_scanner quick_options) "root" newest_first
    = Some (Resolved result sc')
    /\ map createTime (filesByCreateTime sc') = [2; 1]
    /\ map createTime (_quickSortByTime (filesByCreateTime sc')) = [1; 2].
Proof.
  do 2 eexists. split; [vm_compute; reflexivity|]. split; reflexivity.
Qed.

(** C4, amended: for every completed scan under the built-in sort (the
    default configuration), the sorted file list holds the files of the
    file map in non-decreasing order of creation time; files created at
    the same time keep their order of insertion in the file map; sorting
    the list again, or running the sort step again, changes nothing. *)
Theorem C4_sorted_by_creation_time_and_stable
    (sched : Schedule) (fuel : nat) (sc : Scanner) (rootDir : string)
    (root : Node) (result : ScanResult) (sc' : Scanner) :
  is_quick (options sc) = false ->
  scanDirectory sched fuel sc rootDir root = Some (Resolved result sc') ->
  StronglySorted earlier (filesByCreateTime sc')
  /\ Permutation (filesByCreateTime sc') (JsMap.values (fileMap sc'))
  /\ (forall t,
        filter (fun file => createTime file =? t) (filesByCreateTime sc')
        = filter (fun file => createTime file =? t)
            (JsMap.values (fileMap sc')))
  /\ Array_sort byCreateTime (filesByCreateTime sc') = filesByCreateTime sc'
  /\ _sortFilesByCreateTime sc' = sc'.
Proof.
  intros Hq H. apply scanDirectory_resolved in H.
  destruct H as (_ & -> & _ & Ho).
  set (s := this (run sched fuel 0 (start (_resetStats sc) rootDir root))) in *.
  assert (Hs : is_quick (options s) = false).
  { unfold is_quick in *. unfold _sortFilesByCreateTime in Ho.
    cbn [options] in Ho. now rewrite Ho. }
  assert (Hk : forall a b, byCreateTime a b = createTime a - createTime b)
    by reflexivity.
  rewrite _sortFilesByCreateTime_again.
  rewrite (_sortFilesByCreateTime_builtin s Hs).
  change (fileMap (_sortFilesByCreateTime s)) with (fileMap s).
  repeat split.
  - apply (Array_sort_sorted createTime byCreateTime Hk).
  - apply Array_sort_perm.
  - intros t. apply (Array_sort_stable createTime byCreateTime Hk).
  - apply (Array_sort_idempotent createTime byCreateTime Hk).
Qed.

Lemma C4_sorted_by_creation_time_and_stable_witness :
  is_quick (options (new_scanner hashing_options)) = false
  /\ map path
       (filesByCreateTime
          (_sortFilesByCreateTime
             (this (run shuffled 40 0
                      (start (_resetStats (new_scanner hashing_options))
                         "root" four_files)))))
     = ["c.bin"; "b.bin"; "a.bin"; "sub/a_copy.bin"]
  /\ StronglySorted earlier
       (filesByCreateTime
          (_sortFilesByCreateTime
             (this (run shuffled 40 0
                      (start (_resetStats (new_scanner hashing_options))
                         "root" four_files))))).
Proof.
  split; [reflexivity|]. split; [vm_compute; reflexivity|].
  apply (C4_sorted_by_creation_time_and_stable shuffled 40
           (new_scanner hashing_options) "root" four_files
           (_getScanResults
              (_sortFilesByCreateTime
                 (this (run shuffled 40 0
                          (start (_resetStats (new_scanner hashing_options))
                             "root" four_files)))))).
  - reflexivity.
  - vm_compute. reflexivity.
Defined.

(** The scenario of C5: three files of 1 KiB, 5 KiB and 50 KiB and a copy
    of the first, hashing on, default threshold and sample size. *)
Lemma four_files_scenario :
  exists result sc',
    scanDirectory serial 40 (new_scanner hashing_options) "root" four_files
    = Some (Resolved result sc')
    /\ res_totalFiles result = 4
    /\ option_map method (getFileHash sc' "a.bin") = Some full
    /\ option_map method (getFileHash sc' "sub/a_copy.bin") = Some full
    /\ option_map method (getFileHash sc' "b.bin") = Some full
    /\ option_map method (getFileHash sc' "c.bin") = Some sampled
    /\ duplicate_groups sc'
       = [("c9a34cfc85d982698c6ac89f76071abd", ["a.bin"; "sub/a_copy.bin"])].
Proof.
  do 2 eexists. split; [vm_compute; reflexivity|].
  repeat split; vm_compute; reflexivity.
Qed.

(** Counterexample to C6 as stated: the digest the scanner computes for
    the empty file has 32 characters, not 16. *)
Lemma C6_scanner_digest_has_32_characters :
  exists d,
    _calculateFullHash (Some []) = Some d /\ String.length d <> 16%nat.
Proof.
  exists "d41d8cd98f00b204e9800998ecf8427e".
  split; [vm_compute; reflexivity | vm_compute; discriminate].
Qed.

(** C6, amended: the digest returned by [calculateFastHash] is a lowercase
    hexadecimal string of exactly 16 characters, the 64-bit hash value
    written in base 16 and padded with zeros on the left; the digest the
    scanner computes (full or sampled) is a lowercase hexadecimal string of
    exactly 32 characters, an MD5 digest. *)
Theorem C6_digest_widths
    (file : option Buffer) (o : Options) (f : FileStat) (fileSize : Z)
    (d1 d2 : string) :
  FastHash.calculateFastHash file = Some d1 ->
  awaited_digest o f fileSize = Some d2 ->
  (String.length d1 = 16%nat
   /\ lower_hex d1 = true
   /\ 0 <= hex_value d1 < 2 ^ 64
   /\ d1 = padStart (toString16 (hex_value d1)) 16 "0"%char)
  /\ (String.length d2 = 32%nat /\ lower_hex d2 = true).
Proof.
  intros H1 H2. split; [|exact (awaited_digest_format _ _ _ _ H2)].
  destruct file as [content|]; [|discriminate].
  apply calculateFastHash_value in H1. subst d1.
  pose proof (hashVal_range (FastHash.sample content)
                (Z.of_nat (length content))) as Hr.
  destruct (render_format _ Hr) as (Hlen & Hlow & Hval).
  rewrite Hval. repeat split; try assumption; apply Hr.
Qed.

Lemma C6_digest_widths_witness :
  FastHash.calculateFastHash (Some (repeat "a"%byte 1024))
  = Some "cab602b8316c4259"
  /\ awaited_digest hashing_options (zero_file "large.bin" 30000 HMT) 30000
     = Some "ff1ce2018aa17fe600fca636b126dbe4"
  /\ String.length "cab602b8316c4259" = 16%nat
  /\ String.length "ff1ce2018aa17fe600fca636b126dbe4" = 32%nat.
Proof.
  assert (H1 : FastHash.calculateFastHash (Some (repeat "a"%byte 1024))
               = Some "cab602b8316c4259") by (vm_compute; reflexivity).
  assert (H2 : awaited_digest hashing_options
                 (zero_file "large.bin" 30000 HMT) 30000
               = Some "ff1ce2018aa17fe600fca636b126dbe4")
    by (vm_compute; reflexivity).
  split; [exact H1|]. split; [exact H2|].
  destruct (C6_digest_widths _ _ _ _ _ _ H1 H2) as [(Ha & _) (Hb & _)].
  split; assumption.
Defined.

(** Counterexample to C7 as stated: a file whose creation time equals the
    upper bound of the query is returned. *)
Lemma C7_upper_bound_is_included :
  exists result sc' file,
    scanDirectory serial 8 (new_scanner default_options) "root" one_clip
    = Some (Resolved result sc')
    /\ getFilesByTimeRange sc' (Some 0) (Some 100) = [file]
    /\ path file = "clip.mp4"
    /\ createTime file = 100.
Proof.
  do 3 eexists. split; [vm_compute; reflexivity|].
  split; [vm_compute; reflexivity|]. split; reflexivity.
Qed.

(** C7, amended: for every session and every pair of bounds, the
    time-range query returns exactly the files of the sorted list whose
    creation time lies in the closed interval from [start] to [end], in
    the order of that list; a file created at [end] is included.  A bound
    that is not a date (NaN) selects no file. *)
Theorem C7_time_range_is_closed (sc : Scanner) (s e : Z) :
  getFilesByTimeRange sc (Some s) (Some e)
  = filter (fun file => (s <=? createTime file) && (createTime file <=? e))
      (filesByCreateTime sc)
  /\ (forall file,
        In file (getFilesByTimeRange sc (Some s) (Some e))
        <-> In file (filesByCreateTime sc) /\ s <= createTime file <= e)
  /\ (forall bound,
        getFilesByTimeRange sc None bound = []
        /\ getFilesByTimeRange sc bound None = []).
Proof.
  split; [apply getFilesByTimeRange_closed|]. split.
  - intros file. rewrite getFilesByTimeRange_closed, filter_In.
    rewrite andb_true_iff, !Z.leb_le. tauto.
  - intros bound. unfold getFilesByTimeRange. split.
    + induction (filesByCreateTime sc); simpl; auto.
    + induction (filesByCreateTime sc) as [|x l IH]; simpl; auto.
      destruct bound; assumption.
Qed.

(** C8: throughout every scan, under every schedule and after any number
    of turns of the event loop, the number of directory tasks in flight
    (which the counter [activePromises] equals) is at most
    [maxConcurrency], and so is the recorded peak; hence the peak of the
    returned result is at most [maxConcurrency].  The pool counts directory
    tasks; [maxConcurrency] is taken non-negative. *)
Theorem C8_active_tasks_never_exceed_the_pool
    (sched : Schedule) (fuel : nat) (sc : Scanner) (rootDir : string)
    (root : Node) :
  0 <= maxConcurrency (options sc) ->
  (Z.of_nat (length (running (run sched fuel 0
                                (start (_resetStats sc) rootDir root))))
   <= maxConcurrency (options sc)
   /\ activePromises (run sched fuel 0 (start (_resetStats sc) rootDir root))
      = Z.of_nat (length (running (run sched fuel 0
                                     (start (_resetStats sc) rootDir root))))
   /\ maxConcurrent
        (stats (this (run sched fuel 0 (start (_resetStats sc) rootDir root))))
      <= maxConcurrency (options sc))
  /\ (forall result sc',
        scanDirectory sched fuel sc rootDir root = Some (Resolved result sc') ->
        maxConcurrent (res_stats result) <= maxConcurrency (options sc)).
Proof.
  intros Hmax.
  assert (Hb : pool_bounded (run sched fuel 0
                               (start (_resetStats sc) rootDir root))).
  { assert (H0 : pool_bounded (start (_resetStats sc) rootDir root)).
    { apply pool_bounded_start; cbn; [exact Hmax | lia]. }
    generalize (run_turns sched fuel 0 (start (_resetStats sc) rootDir root)).
    induction 1 as [|L' L'' _ IH T]; [exact H0|].
    eapply pool_bounded_turn; eauto. }
  destruct Hb as (Ha & Hle & Hpeak).
  rewrite options_run, options_start in Hle, Hpeak.
  cbn [options _resetStats] in Hle, Hpeak.
  split; [repeat split; [lia | exact Ha | exact Hpeak]|].
  intros result sc' H. apply scanDirectory_resolved in H.
  destruct H as (_ & -> & -> & _). exact Hpeak.
Qed.

Lemma C8_active_tasks_never_exceed_the_pool_witness :
  0 <= maxConcurrency (options (new_scanner hashing_options))
  /\ maxConcurrent
       (stats (this (run shuffled 5 0
                       (start (_resetStats (new_scanner hashing_options))
                          "root" four_files))))
     <= 200.
Proof.
  split; [vm_compute; discriminate|].
  apply (C8_active_tasks_never_exceed_the_pool shuffled 5
           (new_scanner hashing_options) "root" four_files).
  vm_compute. discriminate.
Defined.

(** C9: at every moment of every scan the counter [duplicateCount] is the
    number of paths held by the groups of the duplicate index that have at
    least two members; an insertion appends the path to the group of its
    digest, adds 2 to the counter when it brings the group to two members,
    1 when the group already had two or more, and nothing when it opens
    the group. *)
Theorem C9_duplicate_count_is_the_number_of_grouped_paths
    (sc : Scanner) (rootDir : string) (root : Node) (L : Loop) :
  turns (start (_resetStats sc) rootDir root) L ->
  duplicateCount (stats (this L)) = duplicate_paths (duplicateFiles (this L))
  /\ (forall p h,
        getFilesByHash (_checkDuplicateFiles (this L) p h) h
        = getFilesByHash (this L) h ++ [p]
        /\ duplicateCount (stats (_checkDuplicateFiles (this L) p h))
           = duplicateCount (stats (this L))
             + (if Z.of_nat (length (getFilesByHash (this L) h)) =? 1 then 2
                else if Z.of_nat (length (getFilesByHash (this L) h)) >? 1
                     then 1 else 0)
        /\ duplicateCount (stats (_checkDuplicateFiles (this L) p h))
           = duplicate_paths
               (duplicateFiles (_checkDuplicateFiles (this L) p h))).
Proof.
  intros HT.
  assert (Hc : count_consistent (this L)).
  { induction HT as [|L' L'' _ IH T].
    - apply count_consistent_start.
    - eapply count_consistent_turn; eauto. }
  split; [exact Hc|]. intros p h.
  destruct (_checkDuplicateFiles_count (this L) p h) as [H1 H2].
  cbn zeta in H1, H2.
  pose proof (_checkDuplicateFiles_group (this L) p h h) as Hg.
  rewrite String.eqb_refl in Hg. rewrite Hg in H1, H2.
  rewrite length_app in H1, H2. cbn [length] in H1, H2.
  split; [exact Hg|].
  assert (Hn : forall n : nat,
             (if Z.of_nat (n + 1) =? 2 then 2
              else if Z.of_nat (n + 1) >? 2 then 1 else 0)
             = (if Z.of_nat n =? 1 then 2
                else if Z.of_nat n >? 1 then 1 else 0)).
  { intros n. rewrite !Z.gtb_ltb.
    destruct (Z.eqb_spec (Z.of_nat (n + 1)) 2), (Z.eqb_spec (Z.of_nat n) 1),
      (Z.ltb_spec 2 (Z.of_nat (n + 1))), (Z.ltb_spec 1 (Z.of_nat n)); lia. }
  rewrite Hn in H1, H2. split; [exact H1|].
  unfold count_consistent in Hc. lia.
Qed.

Lemma C9_duplicate_count_is_the_number_of_grouped_paths_witness :
  duplicateCount
    (stats (this (run shuffled 40 0
                    (start (_resetStats (new_scanner hashing_options))
                       "root" four_files))))
  = duplicate_paths
      (duplicateFiles
         (this (run shuffled 40 0
                  (start (_resetStats (new_scanner hashing_options))
                     "root" four_files))))
  /\ duplicate_paths
       (duplicateFiles
          (this (run shuffled 40 0
                   (start (_resetStats (new_scanner hashing_options))
                      "root" four_files))))
     = 2.
Proof.
  split; [|vm_compute; reflexivity].
  exact (proj1 (C9_duplicate_count_is_the_number_of_grouped_paths
                  (new_scanner hashing_options) "root" four_files _
                  (run_turns shuffled 40 0
                     (start (_resetStats (new_scanner hashing_options))
                        "root" four_files)))).
Defined.

(** C10: at every moment of every scan, a digest that no file was hashed
    to so far has the empty list as its paths ([getFilesByHash] returns an
    array, never [undefined]), and a path that was not hashed so far has no
    digest ([getFileHash] returns [undefined]).  The sort that ends the
    scan does not touch either map. *)
Theorem C10_unknown_digest_and_unhashed_path
    (sched : Schedule) (fuel : nat) (sc : Scanner) (rootDir : string)
    (root : Node) (d p : string) :
  ((forall q,
      ~ In (Some (q, d))
           (map (hashed (options sc))
              (events sched fuel 0 (start (_resetStats sc) rootDir root)))) ->
   getFilesByHash
     (this (run sched fuel 0 (start (_resetStats sc) rootDir root))) d = []
   /\ getFilesByHash
        (_sortFilesByCreateTime
           (this (run sched fuel 0 (start (_resetStats sc) rootDir root)))) d
      = [])
  /\ ((forall h,
         ~ In (Some (p, h))
              (map (hashed (options sc))
                 (events sched fuel 0 (start (_resetStats sc) rootDir root)))) ->
      getFileHash
        (this (run sched fuel 0 (start (_resetStats sc) rootDir root))) p
      = None
      /\ getFileHash
           (_sortFilesByCreateTime
              (this (run sched fuel 0 (start (_resetStats sc) rootDir root))))
           p
         = None).
Proof.
  assert (Ho : options (this (start (_resetStats sc) rootDir root)) = options sc)
    by (now rewrite options_start).
  assert (Hd0 : getFilesByHash (this (start (_resetStats sc) rootDir root)) d
                = []).
  { unfold start, processQueue. cbn.
    destruct (0 <? maxConcurrency (options sc)); reflexivity. }
  assert (Hp0 : getFileHash (this (start (_resetStats sc) rootDir root)) p
                = None).
  { unfold start, processQueue. cbn.
    destruct (0 <? maxConcurrency (options sc)); reflexivity. }
  split.
  - intros Hno.
    assert (H : getFilesByHash
                  (this (run sched fuel 0
                           (start (_resetStats sc) rootDir root))) d = []).
    { rewrite getFilesByHash_run, Hd0, Ho. now apply hashed_to_nil. }
    split; exact H.
  - intros Hno.
    assert (H : getFileHash
                  (this (run sched fuel 0
                           (start (_resetStats sc) rootDir root))) p = None).
    { rewrite getFileHash_run; [exact Hp0|]. now rewrite Ho. }
    split; exact H.
Qed.

(** ** Conservation of work: what a scan finds does not depend on the
       schedule *)

Lemma total_app {A : Type} (mu : A -> Z) l1 l2 :
  total mu (l1 ++ l2) = total mu l1 + total mu l2.
Proof. induction l1 as [|x l1 IH]; simpl; [reflexivity | rewrite IH; lia]. Qed.

Lemma total_cons {A : Type} (mu : A -> Z) x l :
  total mu (x :: l) = mu x + total mu l.
Proof. reflexivity. Qed.

Lemma total_flat_map {A B : Type} (mu : B -> Z) (f : A -> list B) l :
  total mu (flat_map f l) = total (fun x => total mu (f x)) l.
Proof.
  induction l as [|x l IH]; simpl; [reflexivity|].
  now rewrite total_app, IH.
Qed.

Lemma total_map {A B : Type} (mu : B -> Z) (f : A -> B) l :
  total mu (map f l) = total (fun x => mu (f x)) l.
Proof. induction l as [|x l IH]; simpl; [reflexivity | now rewrite IH]. Qed.

Lemma total_ext {A : Type} (mu nu : A -> Z) l :
  (forall x, mu x = nu x) -> total mu l = total nu l.
Proof. intros H. induction l as [|x l IH]; simpl; [reflexivity | now rewrite H, IH]. Qed.

Lemma total_filter {A : Type} (mu : A -> Z) (p : A -> bool) l :
  total mu (filter p l) = total (fun x => if p x then mu x else 0) l.
Proof.
  induction l as [|x l IH]; simpl; [reflexivity|].
  destruct (p x); simpl; rewrite IH; reflexivity.
Qed.

Lemma total_length {A : Type} (l : list A) :
  total (fun _ => 1) l = Z.of_nat (length l).
Proof.
  induction l as [|x l IH]; [reflexivity|].
  cbn [total fold_right length] in *. fold (total (fun _ : A => 1) l).
  rewrite IH. lia.
Qed.

Lemma tasks_under_listing t items :
  readdir (behind t) = Some items ->
  tasks_under t = t :: flat_map tasks_under (subdirectories t items).
Proof.
  intros H. apply readdir_listing in H. destruct t as [cur rel n].
  simpl in H. subst n. unfold tasks_under. cbn [currentPath relativePath behind].
  cbn [tasks_below]. f_equal.
  unfold subdirectories. cbn [currentPath relativePath].
  induction items as [|item items IH]; [reflexivity|].
  cbn [flat_map]. rewrite flat_map_app, <- IH.
  destruct item as [name n]. cbn [fst snd].
  destruct n as [st c a|l|]; cbn [flat_map app]; try reflexivity.
  now rewrite app_nil_r.
Qed.

Lemma tasks_under_unreadable t :
  readdir (behind t) = None -> tasks_under t = [t].
Proof.
  destruct t as [cur rel n]. unfold tasks_under. simpl.
  destruct n as [st c a|[l|]|]; simpl; intros H; try reflexivity; discriminate.
Qed.

Lemma files_under_listing (mu : FileStat -> Z) t items :
  readdir (behind t) = Some items ->
  total mu (files_under t)
  = total mu (regular_files t items)
    + total (fun t' => total mu (files_under t')) (subdirectories t items).
Proof.
  intros H. apply readdir_listing in H. destruct t as [cur rel n].
  simpl in H. subst n. unfold files_under. cbn [currentPath relativePath behind].
  cbn [files_below]. unfold subdirectories, regular_files.
  cbn [currentPath relativePath].
  induction items as [|item items IH]; [reflexivity|].
  cbn [flat_map]. rewrite !total_app, IH.
  destruct item as [name n]. cbn [fst snd].
  destruct n as [st c a|l|]; cbn [total fold_right currentPath relativePath behind]; lia.
Qed.

Lemma files_under_unreadable t :
  readdir (behind t) = None -> files_under t = [].
Proof.
  destruct t as [cur rel n]. unfold files_under. simpl.
  destruct n as [st c a|[l|]|]; simpl; intros H; try reflexivity; discriminate.
Qed.

Lemma work_below_listing (mu : Event -> Z) o t items :
  readdir (behind t) = Some items ->
  total mu (work_below o t)
  = mu (ReaddirSettled t)
    + total (fun t' => total mu (work_below o t')) (subdirectories t items)
    + total (fun f => total mu (job_events o f)) (regular_files t items).
Proof.
  intros H. unfold work_below at 1.
  rewrite total_app, total_flat_map, (files_under_listing _ _ _ H).
  rewrite (tasks_under_listing _ _ H). cbn [map].
  rewrite total_cons, total_map, total_flat_map.
  assert (E : total (fun t' => total mu (work_below o t')) (subdirectories t items)
              = total (fun x => total (fun x0 => mu (ReaddirSettled x0)) (tasks_under x))
                  (subdirectories t items)
                + total (fun t' => total (fun x => total mu (job_events o x)) (files_under t'))
                    (subdirectories t items)).
  { induction (subdirectories t items) as [|t' l IH]; [reflexivity|].
    rewrite !total_cons, IH. unfold work_below at 1.
    rewrite total_app, total_map, total_flat_map. lia. }
  rewrite E. lia.
Qed.

Lemma work_below_unreadable (mu : Event -> Z) o t :
  readdir (behind t) = None ->
  total mu (work_below o t) = mu (ReaddirSettled t).
Proof.
  intros H. unfold work_below.
  rewrite (tasks_under_unreadable _ H), (files_under_unreadable _ H).
  simpl. lia.
Qed.

(** One turn of the event loop, with the operation that completes. *)
Lemma pick_none {A : Type} (i : nat) (l : list A) : pick i l = None -> l = [].
Proof.
  intros H. destruct l as [|x l]; [reflexivity|].
  destruct (pick_some i (x :: l)) as (pre & y & post & E); [discriminate|].
  congruence.
Qed.

Lemma step_cases (c : nat * nat) (L : Loop) :
  (running L = [] /\ event c L = Idle /\ step c L = L)
  \/ exists pre r post,
       running L = pre ++ r :: post
       /\ ((phase r = Readdir
            /\ event c L = ReaddirSettled (task r)
            /\ step c L
               = resume L (fst (fst (readdir_settled (this L) (task r))))
                   (queue L ++ snd (fst (readdir_settled (this L) (task r))))
                   pre (task r) (snd (readdir_settled (this L) (task r)))
                   post)
           \/ (exists fileStats i before j after,
                 phase r = Batches fileStats i (before ++ j :: after)
                 /\ event c L = JobSettled j
                 /\ step c L
                    = resume L (fst (job_settled (this L) j)) (queue L) pre
                        (task r)
                        (Batches fileStats i
                           (before ++ after_job (snd (job_settled (this L) j))
                                   ++ after))
                        post)
           \/ (exists fileStats i,
                 phase r = Batches fileStats i []
                 /\ event c L = BatchSettled
                 /\ step c L
                    = resume L (this L) (queue L) pre (task r)
                        (batch_at (options (this L)) fileStats
                           (i + batchSize (options (this L))))
                        post)
           \/ (phase r = Returned
               /\ event c L = TaskSettled
               /\ step c L = task_settled L (pre ++ post))).
Proof.
  unfold step, event.
  destruct (pick (fst c) (running L)) as [[[pre r] post]|] eqn:Hp.
  - right. exists pre, r, post. split; [now apply pick_split in Hp|].
    destruct (phase r) as [|fileStats i promises|] eqn:Hph.
    + left. destruct (readdir_settled (this L) (task r)) as [[sc pushed] ph].
      auto.
    + destruct (pick (snd c) promises) as [[[before j] after]|] eqn:Hj.
      * right. left. apply pick_split in Hj. subst promises.
        exists fileStats, i, before, j, after.
        destruct (job_settled (this L) j) as [sc j']. auto.
      * right. right. left. apply pick_none in Hj. subst promises.
        exists fileStats, i. auto.
    + right. right. right. auto.
  - left. apply pick_none in Hp. auto.
Qed.

Lemma js_slice_batch {A : Type} (l : list A) (i n : Z) :
  0 <= i -> 1 <= n ->
  js_slice l i (i + n) ++ skipn (Z.to_nat (i + n)) l = skipn (Z.to_nat i) l.
Proof.
  intros Hi Hn. unfold js_slice, js_index.
  destruct (i <? 0) eqn:E1; [apply Z.ltb_lt in E1; lia|].
  destruct (i + n <? 0) eqn:E2; [apply Z.ltb_lt in E2; lia|].
  set (len := Z.of_nat (length l)).
  assert (Hlen : 0 <= len) by (unfold len; lia).
  destruct (Z.le_gt_cases len i) as [Hle|Hgt].
  - rewrite !skipn_all2 by (fold len in Hle |- *; unfold len in *; lia).
    rewrite firstn_nil. reflexivity.
  - rewrite (Z.min_l i len) by lia.
    destruct (Z.le_gt_cases (i + n) len) as [Hle'|Hgt'].
    + rewrite (Z.min_l (i + n) len) by lia.
      replace (Z.to_nat (i + n)) with (Z.to_nat (i + n - i) + Z.to_nat i)%nat by lia.
      rewrite <- skipn_skipn. apply firstn_skipn.
    + rewrite (Z.min_r (i + n) len) by lia.
      rewrite (skipn_all2 (n := Z.to_nat (i + n))) by (unfold len in *; lia).
      rewrite app_nil_r. apply firstn_all2.
      rewrite length_skipn. unfold len. lia.
Qed.

Lemma pending_batch_at (mu : Event -> Z) o t fileStats i :
  0 <= i -> 1 <= batchSize o ->
  total mu (pending_phase o t (batch_at o fileStats i))
  = total (fun f => total mu (job_events o f)) (skipn (Z.to_nat i) fileStats).
Proof.
  intros Hi Hb. unfold batch_at.
  destruct (i <? Z.of_nat (length fileStats)) eqn:E.
  - cbn [pending_phase]. rewrite total_app, !total_flat_map, total_map.
    cbn [pending_job]. rewrite <- total_app, js_slice_batch by assumption.
    reflexivity.
  - apply Z.ltb_ge in E. rewrite skipn_all2 by lia. reflexivity.
Qed.

Lemma pending_job_settled (mu : Event -> Z) sc j :
  total mu (pending_job (options sc) j)
  = mu (JobSettled j)
    + total mu (flat_map (pending_job (options sc))
                  (after_job (snd (job_settled sc j)))).
Proof.
  destruct j as [f|f fileSize]; cbn [job_settled pending_job].
  - unfold stat_settled, job_events.
    destruct (fstat f) as [st|]; cbn [snd after_job flat_map];
      [|rewrite !total_cons; reflexivity].
    destruct (enableHash (options sc)); cbn [flat_map after_job pending_job app];
      rewrite !total_cons; reflexivity.
  - cbn [snd after_job flat_map]. rewrite !total_cons. reflexivity.
Qed.

Lemma pending_split (mu : Event -> Z) L :
  total mu (pending L)
  = total (fun t => total mu (work_below (options (this L)) t)) (queue L)
    + total (fun r => total mu (pending_phase (options (this L)) (task r)
                                  (phase r))) (running L).
Proof. unfold pending. now rewrite total_app, !total_flat_map. Qed.

Lemma pending_processQueue (mu : Event -> Z) L :
  total mu (pending (processQueue L)) = total mu (pending L).
Proof.
  rewrite !pending_split, options_processQueue. unfold processQueue.
  destruct (processQueue_loop _ _ _ _ _) as [[[q a] s] st] eqn:E.
  apply processQueue_loop_shape in E. destruct E as (adm & Hq & Hst & _).
  cbn [queue running]. rewrite Hq, Hst, !total_app, total_map.
  cbn [enter task phase pending_phase]. lia.
Qed.

Lemma pending_resume (mu : Event -> Z) L sc q pre r post ph :
  running L = pre ++ r :: post ->
  options sc = options (this L) ->
  total mu (pending (resume L sc q pre (task r) ph post))
  - total mu (pending L)
  = total (fun t => total mu (work_below (options (this L)) t)) q
    - total (fun t => total mu (work_below (options (this L)) t)) (queue L)
    + total mu (pending_phase (options (this L)) (task r) ph)
    - total mu (pending_phase (options (this L)) (task r) (phase r)).
Proof.
  intros Hr Ho. rewrite !pending_split. unfold resume.
  cbn [this queue running]. rewrite Ho, Hr, !total_app, !total_cons.
  cbn [task phase]. lia.
Qed.

(** The operation that completes leaves the list of pending operations;
    nothing else enters or leaves it. *)
Lemma pending_step (mu : Event -> Z) c L :
  on_work mu ->
  1 <= batchSize (options (this L)) ->
  Forall (fun r => phase_ok (phase r)) (running L) ->
  mu (event c L) + total mu (pending (step c L)) = total mu (pending L).
Proof.
  intros (Hb & Ht & Hi) Hbs Hok.
  destruct (step_cases c L) as
    [(Hr & -> & ->)
    |(pre & r & post & Hr &
      [(Hph & -> & ->)
      |[(fs & i & before & j & after & Hph & -> & ->)
       |[(fs & i & Hph & -> & ->)
        |(Hph & -> & ->)]]])]; [lia| | | |].
  - pose proof (pending_resume mu L
                  (fst (fst (readdir_settled (this L) (task r))))
                  (queue L ++ snd (fst (readdir_settled (this L) (task r))))
                  pre r post (snd (readdir_settled (this L) (task r))) Hr) as E.
    rewrite Hph in E. cbn [pending_phase] in E.
    unfold readdir_settled in *.
    destruct (readdir (behind (task r))) as [items|] eqn:Hd;
      cbn [fst snd] in *.
    + rewrite total_app, (work_below_listing _ _ _ _ Hd) in E.
      rewrite pending_batch_at in E by lia. cbn [skipn Z.to_nat] in E.
      specialize (E eq_refl). lia.
    + rewrite (work_below_unreadable _ _ _ Hd) in E.
      rewrite app_nil_r in E. cbn [pending_phase] in E.
      change (total mu []) with 0 in E. specialize (E eq_refl).
      rewrite app_nil_r. lia.
  - pose proof (pending_resume mu L (fst (job_settled (this L) j)) (queue L)
                  pre r post
                  (Batches fs i
                     (before ++ after_job (snd (job_settled (this L) j))
                             ++ after)) Hr) as E.
    rewrite Hph in E. cbn [pending_phase] in E.
    assert (Ho : options (fst (job_settled (this L) j)) = options (this L)).
    { destruct (job_settled (this L) j) as [sc j'] eqn:Ej.
      eapply options_job_settled; eauto. }
    specialize (E Ho).
    rewrite !total_app, !flat_map_app, !total_app in E.
    cbn [flat_map] in E. rewrite total_app in E.
    pose proof (pending_job_settled mu (this L) j). lia.
  - pose proof (pending_resume mu L (this L) (queue L) pre r post
                  (batch_at (options (this L)) fs
                     (i + batchSize (options (this L)))) Hr eq_refl) as E.
    rewrite Hph in E. cbn [pending_phase flat_map app] in E.
    assert (0 <= i).
    { rewrite Hr in Hok. apply Forall_elt in Hok. now rewrite Hph in Hok. }
    rewrite pending_batch_at in E by lia.
    rewrite total_flat_map in E. lia.
  - unfold task_settled.
    set (L1 := {| this := this L; queue := queue L;
                  activePromises := activePromises L - 1;
                  running := pre ++ post; finished := finished L |}).
    assert (E : total mu (pending
                  {| this := this (processQueue L1);
                     queue := queue (processQueue L1);
                     activePromises := activePromises (processQueue L1);
                     running := running (processQueue L1);
                     finished :=
                       finished (processQueue L1)
                       || ((activePromises (processQueue L1) =? 0)
                           && (Z.of_nat (length (queue (processQueue L1)))
                               =? 0)) |})
                = total mu (pending (processQueue L1))) by reflexivity.
    rewrite E, pending_processQueue, !pending_split. subst L1.
    cbn [this queue running]. rewrite Hr, !total_app, total_cons, Hph.
    cbn [pending_phase]. change (total mu []) with 0. lia.
Qed.

Lemma live_step c L :
  1 <= maxConcurrency (options (this L)) ->
  1 <= batchSize (options (this L)) ->
  live L -> live (step c L).
Proof.
  intros Hm Hb HL. destruct (running L) as [|r rs] eqn:E.
  - now rewrite step_idle.
  - eapply turn_live; eauto. apply step_turn. congruence.
Qed.

Lemma pending_run (mu : Event -> Z) sched fuel : forall k L,
  on_work mu ->
  1 <= maxConcurrency (options (this L)) ->
  1 <= batchSize (options (this L)) ->
  live L ->
  total mu (events sched fuel k L)
  + total mu (pending (run sched fuel k L))
  = total mu (pending L).
Proof.
  induction fuel as [|fuel IH]; intros k L Hmu Hm Hb HL.
  - reflexivity.
  - cbn [events run]. rewrite total_cons.
    pose proof (pending_step mu (sched k) L Hmu Hb (proj1 (proj2 HL))) as Hs.
    specialize (IH (S k) (step (sched k) L) Hmu).
    rewrite options_step in IH.
    specialize (IH Hm Hb (live_step _ _ Hm Hb HL)). lia.
Qed.

Lemma processQueue_finished L : finished (processQueue L) = finished L.
Proof.
  unfold processQueue.
  destruct (processQueue_loop _ _ _ _ _) as [[[q a] s] st]. reflexivity.
Qed.

Lemma settled_step c L :
  1 <= maxConcurrency (options (this L)) ->
  1 <= batchSize (options (this L)) ->
  live L -> settled L -> settled (step c L).
Proof.
  intros Hm Hb HL HS.
  pose proof (live_step c L Hm Hb HL) as HL'.
  destruct (step_cases c L) as
    [(Hr & _ & ->)
    |(pre & r & post & Hr &
      [(Hph & _ & E)
      |[(fs & i & before & j & after & Hph & _ & E)
       |[(fs & i & Hph & _ & E)
        |(Hph & _ & E)]]])]; [assumption| | | |].
  1-3: rewrite E; intros Hf; cbn [resume finished] in Hf;
       destruct (HS Hf) as [_ Hn]; rewrite Hn in Hr;
       destruct pre; discriminate.
  rewrite E in *. intros Hf.
  assert (Hnf : finished L = false).
  { destruct (finished L) eqn:Ef; [|reflexivity].
    destruct (HS Ef) as [_ Hn]. rewrite Hn in Hr.
    destruct pre; discriminate. }
  destruct HL' as (Ha & _ & _).
  unfold task_settled in *. cbn [finished queue running activePromises] in *.
  rewrite processQueue_finished in Hf. cbn [finished] in Hf.
  rewrite Hnf in Hf, Ha |- *. cbn [orb] in Hf.
  apply andb_true_iff in Hf. destruct Hf as [H0 Hq].
  apply Z.eqb_eq in H0. apply Z.eqb_eq in Hq.
  match goal with |- queue ?X = [] /\ _ => set (L1 := X) in * end.
  clearbody L1. split.
  - destruct (queue L1); [reflexivity|]. cbn [length] in Hq. lia.
  - rewrite H0 in Ha. destruct (running L1); [reflexivity|].
    cbn [length] in Ha. lia.
Qed.

Lemma settled_run sched fuel : forall k L,
  1 <= maxConcurrency (options (this L)) ->
  1 <= batchSize (options (this L)) ->
  live L -> settled L -> settled (run sched fuel k L).
Proof.
  induction fuel as [|fuel IH]; intros k L Hm Hb HL HS; [assumption|].
  cbn [run]. apply IH.
  - now rewrite options_step.
  - now rewrite options_step.
  - now apply live_step.
  - now apply settled_step.
Qed.

Lemma pending_start (mu : Event -> Z) sc rootDir root :
  total mu (pending (start sc rootDir root))
  = total mu (work_below (options sc) (root_task rootDir root)).
Proof.
  unfold start. rewrite pending_processQueue, pending_split.
  cbn [this queue running]. rewrite total_cons.
  change (total _ []) with 0. unfold root_task. lia.
Qed.

(** A scan that resolves had a pool of at least one slot. *)
Lemma finished_pool sched fuel sc rootDir root :
  finished (run sched fuel 0 (start sc rootDir root)) = true ->
  1 <= maxConcurrency (options sc).
Proof.
  intros Hf. destruct (Z.le_gt_cases 1 (maxConcurrency (options sc)))
    as [|Hlt]; [assumption|].
  assert (E : start sc rootDir root
              = {| this := sc;
                   queue := [root_task rootDir root];
                   activePromises := 0; running := [];
                   finished := false |}).
  { unfold start, processQueue. cbn.
    destruct (0 <? maxConcurrency (options sc)) eqn:E0;
      [apply Z.ltb_lt in E0; lia|].
    destruct sc; reflexivity. }
  rewrite E, run_idle in Hf by reflexivity. discriminate.
Qed.

(** The operations of a finished traversal are those of the tree, each
    once: whatever is summed over them does not depend on the schedule. *)
Lemma scan_trace (mu : Event -> Z) sched fuel sc rootDir root :
  on_work mu ->
  1 <= batchSize (options sc) ->
  finished (run sched fuel 0 (start sc rootDir root)) = true ->
  total mu (events sched fuel 0 (start sc rootDir root))
  = total mu (work_below (options sc) (root_task rootDir root)).
Proof.
  intros Hmu Hb Hf.
  pose proof (finished_pool _ _ _ _ _ Hf) as Hm.
  destruct (start_live sc rootDir root Hm) as [HL _].
  assert (Ho : options (this (start sc rootDir root)) = options sc)
    by apply options_start.
  pose proof (pending_run mu sched fuel 0 (start sc rootDir root) Hmu) as E.
  rewrite Ho in E. specialize (E Hm Hb HL).
  assert (HS : settled (start sc rootDir root)).
  { intros H. exfalso. revert H. unfold start. rewrite processQueue_finished.
    discriminate. }
  pose proof (settled_run sched fuel 0 (start sc rootDir root)) as HS'.
  rewrite Ho in HS'. specialize (HS' Hm Hb HL HS Hf).
  destruct HS' as [Hq Hr].
  rewrite pending_split, Hq, Hr in E. change (total _ []) with 0 in E.
  rewrite pending_start in E. lia.
Qed.

Lemma total_job_events (mu : Event -> Z) o f :
  total mu (job_events o f)
  = mu (JobSettled (AwaitStat f))
    + when_hashed o (fun f n => mu (JobSettled (AwaitHash f n))) f.
Proof.
  unfold job_events, when_hashed. rewrite total_cons.
  destruct (fstat f) as [st|]; [|reflexivity].
  destruct (enableHash o); [|reflexivity].
  rewrite total_cons. change (total mu []) with 0. lia.
Qed.

Lemma total_work_below (mu : Event -> Z) o t :
  total mu (work_below o t)
  = total (fun t' => mu (ReaddirSettled t')) (tasks_under t)
    + total (fun f => mu (JobSettled (AwaitStat f))
                      + when_hashed o
                          (fun f n => mu (JobSettled (AwaitHash f n))) f)
        (files_under t).
Proof.
  unfold work_below. rewrite total_app, total_map, total_flat_map.
  f_equal. apply total_ext. intros f. apply total_job_events.
Qed.

Lemma on_work_measure dir st hs : on_work (measure dir st hs).
Proof. repeat split. Qed.

Lemma total_plus {A : Type} (mu nu : A -> Z) l :
  total (fun x => mu x + nu x) l = total mu l + total nu l.
Proof.
  induction l as [|x l IH]; [reflexivity|]. rewrite !total_cons, IH. lia.
Qed.

Lemma total_indicator {A : Type} (p : A -> bool) l :
  total (fun x => indicator (p x)) l = Z.of_nat (length (filter p l)).
Proof.
  rewrite <- total_length, total_filter. apply total_ext.
  intros x. unfold indicator. reflexivity.
Qed.

Lemma total_zero {A : Type} (l : list A) : total (fun _ => 0) l = 0.
Proof. induction l as [|x l IH]; [reflexivity|]. rewrite total_cons, IH. lia. Qed.

(** ** Quantities of the scanner that follow the completed operations *)

Lemma processQueue_loop_counts maxC q :
  forall a s st q' a' s' st',
    processQueue_loop maxC q a s st = (q', a', s', st') ->
    directoriesScanned s' = directoriesScanned s
    /\ filesScanned s' = filesScanned s
    /\ filesWithHash s' = filesWithHash s.
Proof.
  induction q as [|t q IH]; simpl; intros a s st q' a' s' st' H.
  - inversion H; subst. auto.
  - destruct (a <? maxC); [|inversion H; subst; auto].
    apply IH in H. exact H.
Qed.

Section Tracking.
Variable q : Scanner -> Z.
Variable mu : Options -> Event -> Z.
Hypothesis mu_work : forall o, on_work (mu o).
Hypothesis q_readdir : forall sc t,
  q (fst (fst (readdir_settled sc t)))
  = q sc + mu (options sc) (ReaddirSettled t).
Hypothesis q_job : forall sc j,
  q (fst (job_settled sc j)) = q sc + mu (options sc) (JobSettled j).
Hypothesis q_pool : forall L, q (this (processQueue L)) = q (this L).
Hypothesis q_sort : forall sc, q (_sortFilesByCreateTime sc) = q sc.

Lemma tracked_step c L :
  q (this (step c L)) = q (this L) + mu (options (this L)) (event c L).
Proof.
  destruct (mu_work (options (this L))) as (Hb & Ht & Hi).
  destruct (step_cases c L) as
    [(Hr & -> & ->)
    |(pre & r & post & Hr &
      [(Hph & -> & ->)
      |[(fs & i & before & j & after & Hph & -> & ->)
       |[(fs & i & Hph & -> & ->)
        |(Hph & -> & ->)]]])]; cbn [resume this].
  - lia.
  - apply q_readdir.
  - apply q_job.
  - lia.
  - unfold task_settled. cbn [this]. rewrite q_pool. cbn [this]. lia.
Qed.

Lemma tracked_run sched fuel : forall k L,
  q (this (run sched fuel k L))
  = q (this L) + total (mu (options (this L))) (events sched fuel k L).
Proof.
  induction fuel as [|fuel IH]; intros k L.
  - change (total _ _) with 0. cbn [run]. lia.
  - cbn [run events]. rewrite IH, tracked_step, options_step, total_cons. lia.
Qed.

Lemma tracked_scan sched fuel sc rootDir root result sc' :
  1 <= batchSize (options sc) ->
  scanDirectory sched fuel sc rootDir root = Some (Resolved result sc') ->
  q sc'
  = q (_resetStats sc)
    + total (mu (options sc)) (work_below (options sc) (root_task rootDir root)).
Proof.
  intros Hb H. apply scanDirectory_resolved in H.
  destruct H as (Hf & -> & _ & _).
  rewrite q_sort, tracked_run, options_start.
  cbn [_resetStats options].
  rewrite (scan_trace (mu (options sc)) sched fuel (_resetStats sc) rootDir root
             (mu_work _) Hb Hf).
  unfold start. rewrite q_pool. reflexivity.
Qed.

End Tracking.

Lemma q_pool_scanner (q : Scanner -> Z) :
  (forall sc s,
     directoriesScanned s = directoriesScanned (stats sc) ->
     filesScanned s = filesScanned (stats sc) ->
     filesWithHash s = filesWithHash (stats sc) ->
     duplicateCount s = duplicateCount (stats sc) ->
     hashErrors s = hashErrors (stats sc) ->
     q (with_stats sc s) = q sc) ->
  forall L, q (this (processQueue L)) = q (this L).
Proof.
  intros H L. unfold processQueue.
  destruct (processQueue_loop _ _ _ _ _) as [[[q' a] s] st] eqn:E.
  cbn [this].
  destruct (processQueue_loop_counts _ _ _ _ _ _ _ _ _ E) as (H1 & H2 & H3).
  destruct (processQueue_loop_stats _ _ _ _ _ _ _ _ _ E) as (H4 & H5).
  now apply H.
Qed.

Ltac settle_operations :=
  intros;
  repeat match goal with
         | j : Job |- _ => destruct j
         end;
  cbn [job_settled fst snd];
  unfold readdir_settled, stat_settled, _calculateFileHash,
    _checkDuplicateFiles, _addFileInfo, with_stats, console_warn, measure,
    indicator, stat_ok, stat_size, listable, is_some;
  repeat match goal with
         | |- context [match ?x with Some _ => _ | None => _ end] =>
             destruct x eqn:?
         | |- context [if ?x then _ else _] => destruct x eqn:?
         end;
  cbn [fst snd totalFiles totalSize stats filesScanned directoriesScanned
       filesWithHash hashErrors duplicateCount options];
  try lia; try congruence.

Lemma totalFiles_scan sched fuel sc rootDir root result sc' :
  1 <= batchSize (options sc) ->
  scanDirectory sched fuel sc rootDir root = Some (Resolved result sc') ->
  totalFiles sc' = Z.of_nat (length (found_files rootDir root))
  /\ filesScanned (stats sc') = Z.of_nat (length (found_files rootDir root)).
Proof.
  intros Hb H.
  assert (E0 : total (fun f => indicator (stat_ok f)
                               + when_hashed (options sc) (fun _ _ => 0) f)
                 (files_under (root_task rootDir root))
               = Z.of_nat (length (found_files rootDir root))).
  { rewrite total_plus, total_indicator. unfold when_hashed.
    rewrite (total_ext _ (fun _ => 0)), total_zero;
      [unfold found_files; lia|].
    intros f. destruct (fstat f); [destruct (enableHash _)|]; reflexivity. }
  split.
  - pose proof (tracked_scan totalFiles
                  (fun _ => measure (fun _ => 0)
                              (fun f => indicator (stat_ok f)) (fun _ _ => 0))
                  (fun _ => on_work_measure _ _ _)
                  ltac:(settle_operations) ltac:(settle_operations)
                  (q_pool_scanner totalFiles ltac:(reflexivity)) (fun _ => eq_refl)
                  sched fuel sc rootDir root result sc' Hb H) as E.
    rewrite total_work_below in E. cbn [measure _resetStats totalFiles] in E.
    rewrite total_zero, E0 in E. lia.
  - pose proof (tracked_scan (fun sc => filesScanned (stats sc))
                  (fun _ => measure (fun _ => 0)
                              (fun f => indicator (stat_ok f)) (fun _ _ => 0))
                  (fun _ => on_work_measure _ _ _)
                  ltac:(settle_operations) ltac:(settle_operations)
                  (q_pool_scanner (fun sc => filesScanned (stats sc))
                     ltac:(intros; cbn; assumption))
                  (fun _ => eq_refl)
                  sched fuel sc rootDir root result sc' Hb H) as E.
    rewrite total_work_below in E.
    cbn [measure _resetStats stats zero_stats filesScanned] in E.
    rewrite total_zero, E0 in E. lia.
Qed.

(** Doubles add integers exactly as long as the sum stays within [2^53]. *)
Lemma round_double_exact (x : Z) : Z.abs x <= 2 ^ 53 -> round_double x = x.
Proof.
  intros H. unfold round_double. cbv zeta.
  destruct (Z.ltb_spec (Z.abs x) (2 ^ 53)) as [_|Hge]; [reflexivity|].
  assert (E : Z.abs x = 2 ^ 53) by lia.
  destruct (Z.abs_eq_or_opp x) as [Ex|Ex]; rewrite Ex in E.
  - rewrite E. reflexivity.
  - assert (Ex' : x = - 2 ^ 53) by lia. rewrite Ex'. reflexivity.
Qed.

(** What the size of a completed [stat] adds to [totalSize]. *)
Lemma totalSize_step c L :
  totalSize (this (step c L))
  = match event c L with
    | JobSettled (AwaitStat f) =>
        match fstat f with
        | Some st => Number_add (totalSize (this L)) (size st)
        | None => totalSize (this L)
        end
    | _ => totalSize (this L)
    end.
Proof.
  destruct (step_cases c L) as
    [(Hr & -> & ->)
    |(pre & r & post & Hr &
      [(Hph & -> & ->)
      |[(fs & i & before & j & after & Hph & -> & ->)
       |[(fs & i & Hph & -> & ->)
        |(Hph & -> & ->)]]])]; cbn [resume this].
  - reflexivity.
  - unfold readdir_settled. destruct (readdir (behind (task r))); reflexivity.
  - destruct j as [f|f n]; cbn [job_settled fst].
    + unfold stat_settled. destruct (fstat f); reflexivity.
    + unfold _calculateFileHash.
      destruct (awaited_digest (options (this L)) f n); reflexivity.
  - reflexivity.
  - unfold task_settled. cbn [this].
    now rewrite (q_pool_scanner totalSize ltac:(reflexivity)).
Qed.

Lemma totalSize_run sched fuel : forall k L,
  Z.abs (totalSize (this L))
  + total (fun e => Z.abs (measure (fun _ => 0) stat_size (fun _ _ => 0) e))
      (events sched fuel k L) <= 2 ^ 53 ->
  totalSize (this (run sched fuel k L))
  = totalSize (this L)
    + total (measure (fun _ => 0) stat_size (fun _ _ => 0))
        (events sched fuel k L).
Proof.
  induction fuel as [|fuel IH]; intros k L Hle.
  - change (total _ _) with 0. cbn [run]. lia.
  - cbn [run events] in *. rewrite !total_cons in *.
    pose proof (totalSize_step (sched k) L) as Es.
    assert (Hs : totalSize (this (step (sched k) L))
                 = totalSize (this L)
                   + measure (fun _ => 0) stat_size (fun _ _ => 0)
                       (event (sched k) L)).
    { rewrite Es. unfold measure, stat_size in Hle |- *.
      destruct (event (sched k) L) as [t|[f|f n]| | |]; try lia.
      destruct (fstat f) as [st|] eqn:Ef; [|lia].
      unfold Number_add. apply round_double_exact.
      assert (0 <= total (fun e =>
                 Z.abs match e with
                       | JobSettled (AwaitStat f0) =>
                           match fstat f0 with
                           | Some st0 => size st0
                           | None => 0
                           end
                       | _ => 0
                       end)
                (events sched fuel (S k) (step (sched k) L))).
      { clear. induction (events _ _ _ _) as [|e l IHl];
          [reflexivity|rewrite total_cons; lia]. }
      lia. }
    rewrite IH; [lia|]. rewrite Hs.
    assert (0 <= total (fun e =>
               Z.abs (measure (fun _ => 0) stat_size (fun _ _ => 0) e))
              (events sched fuel (S k) (step (sched k) L))) by
      (clear; induction (events _ _ _ _) as [|e l IHl];
         [reflexivity|rewrite total_cons; lia]).
    lia.
Qed.

Lemma totalSize_scan sched fuel sc rootDir root result sc' :
  1 <= batchSize (options sc) ->
  scanDirectory sched fuel sc rootDir root = Some (Resolved result sc') ->
  total (fun f => Z.abs (stat_size f)) (found_files rootDir root) <= 2 ^ 53 ->
  totalSize sc' = total stat_size (found_files rootDir root).
Proof.
  intros Hb H Hle. apply scanDirectory_resolved in H.
  destruct H as (Hf & -> & _ & _).
  change (totalSize (_sortFilesByCreateTime ?s)) with (totalSize s).
  assert (E0 : totalSize (this (start (_resetStats sc) rootDir root)) = 0).
  { unfold start.
    now rewrite (q_pool_scanner totalSize ltac:(reflexivity)). }
  assert (Ew : forall g : Z -> Z, g 0 = 0 ->
             total (fun e => g (measure (fun _ => 0) stat_size
                                  (fun _ _ => 0) e))
               (work_below (options sc) (root_task rootDir root))
             = total (fun f => g (stat_size f)) (found_files rootDir root)).
  { intros g Hg. rewrite total_work_below. cbn [measure]. rewrite Hg.
    rewrite total_zero, total_plus. unfold when_hashed.
    rewrite (total_ext (fun f => match fstat f with
                                 | Some _ =>
                                     if enableHash (options sc) then 0 else 0
                                 | None => 0
                                 end) (fun _ => 0)), total_zero.
    - unfold found_files. rewrite total_filter.
      rewrite (total_ext (fun f => if stat_ok f then g (stat_size f) else 0)
                 (fun f => g (stat_size f))); [lia|].
      intros f. unfold stat_ok, stat_size.
      destruct (fstat f); [reflexivity|now rewrite Hg].
    - intros f. destruct (fstat f); [destruct (enableHash _)|]; reflexivity. }
  rewrite totalSize_run.
  - rewrite E0.
    rewrite (scan_trace _ sched fuel (_resetStats sc) rootDir root
               (on_work_measure _ _ _) Hb Hf).
    cbn [_resetStats options].
    rewrite Z.add_0_l. exact (Ew (fun z => z) eq_refl).
  - rewrite E0.
    rewrite (scan_trace
               (fun e => Z.abs (measure (fun _ => 0) stat_size
                                  (fun _ _ => 0) e))
               sched fuel (_resetStats sc) rootDir root
               ltac:(repeat split) Hb Hf).
    cbn [_resetStats options].
    change (Z.abs 0) with 0. rewrite Z.add_0_l.
    eapply Z.le_trans; [|exact Hle].
    apply Z.eq_le_incl. exact (Ew Z.abs eq_refl).
Qed.

Lemma directoriesScanned_scan sched fuel sc rootDir root result sc' :
  1 <= batchSize (options sc) ->
  scanDirectory sched fuel sc rootDir root = Some (Resolved result sc') ->
  directoriesScanned (stats sc')
  = Z.of_nat (length (listed_directories rootDir root)).
Proof.
  intros Hb H.
  pose proof (tracked_scan (fun sc => directoriesScanned (stats sc))
                (fun _ => measure (fun t => indicator (listable t))
                            (fun _ => 0) (fun _ _ => 0))
                (fun _ => on_work_measure _ _ _)
                ltac:(settle_operations) ltac:(settle_operations)
                (q_pool_scanner (fun sc => directoriesScanned (stats sc))
                   ltac:(intros; cbn; assumption))
                (fun _ => eq_refl)
                sched fuel sc rootDir root result sc' Hb H) as E.
  rewrite total_work_below in E.
  cbn [measure _resetStats stats zero_stats directoriesScanned] in E.
  rewrite total_indicator, total_plus, total_zero in E. unfold when_hashed in E.
  rewrite (total_ext (fun f => match fstat f with
                               | Some _ => if enableHash (options sc) then 0 else 0
                               | None => 0
                               end) (fun _ => 0)), total_zero in E.
  - unfold listed_directories. lia.
  - intros f. destruct (fstat f); [destruct (enableHash _)|]; reflexivity.
Qed.

Lemma when_hashed_indicator o (p : FileStat -> Z -> bool) l :
  total (when_hashed o (fun f n => indicator (p f n))) l
  = if enableHash o
    then Z.of_nat (length (filter (fun f => p f (stat_size f))
                             (filter stat_ok l)))
    else 0.
Proof.
  destruct (enableHash o) eqn:E.
  - rewrite <- total_indicator, total_filter. apply total_ext. intros f.
    unfold when_hashed, stat_ok, stat_size. rewrite E.
    destruct (fstat f); reflexivity.
  - rewrite (total_ext _ (fun _ => 0)); [apply total_zero|].
    intros f. unfold when_hashed. rewrite E. destruct (fstat f); reflexivity.
Qed.

Lemma filesWithHash_scan sched fuel sc rootDir root result sc' :
  1 <= batchSize (options sc) ->
  scanDirectory sched fuel sc rootDir root = Some (Resolved result sc') ->
  filesWithHash (stats sc')
  = Z.of_nat (length (hashed_files (options sc) rootDir root)).
Proof.
  intros Hb H.
  pose proof (tracked_scan (fun sc => filesWithHash (stats sc))
                (fun o => measure (fun _ => 0) (fun _ => 0)
                            (fun f n => indicator
                                          (is_some (awaited_digest o f n))))
                (fun _ => on_work_measure _ _ _)
                ltac:(settle_operations) ltac:(settle_operations)
                (q_pool_scanner (fun sc => filesWithHash (stats sc))
                   ltac:(intros; cbn; assumption))
                (fun _ => eq_refl)
                sched fuel sc rootDir root result sc' Hb H) as E.
  rewrite total_work_below in E.
  cbn [measure _resetStats stats zero_stats filesWithHash] in E.
  rewrite total_zero, total_plus, total_zero, when_hashed_indicator in E.
  unfold hashed_files, found_files, digest_of.
  destruct (enableHash (options sc)); cbn [length]; lia.
Qed.

Lemma hashErrors_scan sched fuel sc rootDir root result sc' :
  1 <= batchSize (options sc) ->
  scanDirectory sched fuel sc rootDir root = Some (Resolved result sc') ->
  hashErrors (stats sc')
  = Z.of_nat (length (unhashed_files (options sc) rootDir root)).
Proof.
  intros Hb H.
  pose proof (tracked_scan (fun sc => hashErrors (stats sc))
                (fun o => measure (fun _ => 0) (fun _ => 0)
                            (fun f n => indicator
                                          (negb (is_some
                                                   (awaited_digest o f n)))))
                (fun _ => on_work_measure _ _ _)
                ltac:(settle_operations) ltac:(settle_operations)
                (q_pool_scanner (fun sc => hashErrors (stats sc))
                   ltac:(intros; cbn; assumption))
                (fun _ => eq_refl)
                sched fuel sc rootDir root result sc' Hb H) as E.
  rewrite total_work_below in E.
  cbn [measure _resetStats stats zero_stats hashErrors] in E.
  rewrite total_zero, total_plus, total_zero, when_hashed_indicator in E.
  unfold unhashed_files, found_files, digest_of.
  destruct (enableHash (options sc)); cbn [length]; lia.
Qed.

Lemma filter_partition_length {A : Type} (p : A -> bool) l :
  (length (filter p l) + length (filter (fun x => negb (p x)) l))%nat
  = length l.
Proof.
  induction l as [|x l IH]; [reflexivity|]. cbn [filter].
  destruct (p x); cbn [negb length]; lia.
Qed.

(** ** Lists of the scanner that follow the completed operations *)

Lemma count_occ_flat_map {X Y : Type} (dec : forall a b : Y, {a = b} + {a <> b})
    (g : X -> list Y) l y :
  Z.of_nat (count_occ dec (flat_map g l) y)
  = total (fun x => Z.of_nat (count_occ dec (g x) y)) l.
Proof.
  induction l as [|x l IH]; [reflexivity|].
  cbn [flat_map]. rewrite count_occ_app, total_cons, <- IH. lia.
Qed.

(** What every operation of a finished traversal contributes is, up to
    order, what the operations of the tree contribute. *)
Lemma scan_trace_permutation {Y : Type}
    (dec : forall a b : Y, {a = b} + {a <> b}) (g : Event -> list Y)
    sched fuel sc rootDir root :
  g BatchSettled = [] -> g TaskSettled = [] -> g Idle = [] ->
  1 <= batchSize (options sc) ->
  finished (run sched fuel 0 (start sc rootDir root)) = true ->
  Permutation (flat_map g (events sched fuel 0 (start sc rootDir root)))
    (flat_map g (work_below (options sc) (root_task rootDir root))).
Proof.
  intros Hb Ht Hi Hbs Hf. apply (Permutation_count_occ dec). intros y.
  apply Nat2Z.inj. rewrite !count_occ_flat_map.
  apply scan_trace; [|assumption|assumption].
  repeat split; [rewrite Hb | rewrite Ht | rewrite Hi]; reflexivity.
Qed.

Lemma flat_map_work_below {Y : Type} (g : Event -> list Y) o t :
  flat_map g (work_below o t)
  = flat_map (fun t' => g (ReaddirSettled t')) (tasks_under t)
    ++ flat_map (fun f => flat_map g (job_events o f)) (files_under t).
Proof.
  unfold work_below. rewrite flat_map_app. f_equal.
  - induction (tasks_under t) as [|t' l IH]; [reflexivity|].
    cbn [map flat_map]. now rewrite IH.
  - induction (files_under t) as [|f l IH]; [reflexivity|].
    cbn [flat_map]. now rewrite flat_map_app, IH.
Qed.

Lemma Warning_eq_dec (a b : Warning) : {a = b} + {a <> b}.
Proof. decide equality; apply string_dec. Defined.

Lemma console_scan sched fuel sc rootDir root result sc' :
  1 <= batchSize (options sc) ->
  scanDirectory sched fuel sc rootDir root = Some (Resolved result sc') ->
  Permutation (console sc')
    (console sc ++ expected_warnings (options sc) rootDir root).
Proof.
  intros Hb H. apply scanDirectory_resolved in H.
  destruct H as (Hf & -> & _ & _).
  change (console (_sortFilesByCreateTime ?s)) with (console s).
  destruct (console_run sched fuel 0 (start (_resetStats sc) rootDir root))
    as [E _].
  rewrite E, options_start. cbn [_resetStats options].
  assert (E0 : console (this (start (_resetStats sc) rootDir root))
               = console sc).
  { unfold start, processQueue.
    destruct (processQueue_loop _ _ _ _ _) as [[[q a] s] st]. reflexivity. }
  rewrite E0. apply Permutation_app_head. unfold warnings_of.
  rewrite (scan_trace_permutation Warning_eq_dec
             (fun e => to_list (recovered (options sc) e))
             sched fuel (_resetStats sc) rootDir root
             eq_refl eq_refl eq_refl Hb Hf).
  cbn [_resetStats options]. rewrite flat_map_work_below.
  unfold expected_warnings. apply Permutation_app.
  - erewrite flat_map_ext; [reflexivity|]. intros t.
    unfold directory_warning, listable. cbn [recovered].
    destruct (readdir (behind t)); reflexivity.
  - erewrite flat_map_ext; [reflexivity|]. intros f.
    unfold file_warning, job_events. cbn [flat_map recovered].
    destruct (fstat f) as [st|]; [|reflexivity].
    destruct (enableHash (options sc)); [|reflexivity].
    cbn [flat_map recovered to_list app].
    destruct (awaited_digest _ _ _); reflexivity.
Qed.

Lemma flat_map_if {A B : Type} (p : A -> bool) (g : A -> B) l :
  flat_map (fun x => if p x then [g x] else []) l = map g (filter p l).
Proof.
  induction l as [|x l IH]; [reflexivity|]. cbn [flat_map filter].
  destruct (p x); cbn [map app]; now rewrite IH.
Qed.

Lemma filter_filter {A : Type} (p q : A -> bool) l :
  filter p (filter q l) = filter (fun x => q x && p x) l.
Proof.
  induction l as [|x l IH]; [reflexivity|]. cbn [filter].
  destruct (q x); cbn [filter andb]; [destruct (p x)|]; now rewrite IH.
Qed.

Lemma filter_false {A : Type} (l : list A) : filter (fun _ => false) l = [].
Proof. induction l; auto. Qed.

Lemma group_entry o d f :
  flat_map (fun e => match hashed o e with
                     | Some (p, h) => if String.eqb h d then [p] else []
                     | None => []
                     end) (job_events o f)
  = if enableHash o && (stat_ok f && has_digest o d f)
    then [itemRelativePath f] else [].
Proof.
  unfold job_events, stat_ok, has_digest, digest_of, stat_size.
  cbn [flat_map hashed app].
  destruct (fstat f) as [st|]; [|now rewrite andb_false_r].
  destruct (enableHash o); [|reflexivity].
  cbn [flat_map hashed app andb].
  destruct (awaited_digest o f (size st)) as [h|]; [|reflexivity].
  destruct (String.eqb h d); reflexivity.
Qed.

Lemma groups_scan sched fuel sc rootDir root result sc' d :
  1 <= batchSize (options sc) ->
  scanDirectory sched fuel sc rootDir root = Some (Resolved result sc') ->
  Permutation (getFilesByHash sc' d)
    (map itemRelativePath (files_with_digest (options sc) d rootDir root)).
Proof.
  intros Hb H. apply scanDirectory_resolved in H.
  destruct H as (Hf & -> & _ & _).
  change (getFilesByHash (_sortFilesByCreateTime ?s) d)
    with (getFilesByHash s d).
  rewrite getFilesByHash_run, options_start. cbn [_resetStats options].
  assert (E0 : getFilesByHash (this (start (_resetStats sc) rootDir root)) d
               = []).
  { unfold start, processQueue.
    destruct (processQueue_loop _ _ _ _ _) as [[[q a] s] st]. reflexivity. }
  rewrite E0. cbn [app]. unfold hashed_to.
  rewrite (scan_trace_permutation string_dec _
             sched fuel (_resetStats sc) rootDir root
             eq_refl eq_refl eq_refl Hb Hf).
  cbn [_resetStats options]. rewrite flat_map_work_below.
  rewrite (flat_map_ext _ (fun _ => [])) by reflexivity.
  replace (flat_map (fun _ : Task => []) (tasks_under (root_task rootDir root)))
    with (@nil string) by (induction (tasks_under _); auto).
  cbn [app].
  rewrite (flat_map_ext _ _ (group_entry (options sc) d)), flat_map_if.
  unfold files_with_digest, found_files.
  destruct (enableHash (options sc)); cbn [andb].
  - now rewrite filter_filter.
  - now rewrite filter_false.
Qed.

(** ** Maps of the scanner that follow the completed operations *)

Lemma JsMap_set_fresh {V : Type} (m : JsMap.t V) k v :
  ~ In k (map fst m) -> JsMap.set m k v = m ++ [(k, v)].
Proof.
  induction m as [|[k' v'] m IH]; intros Hn; [reflexivity|].
  cbn [JsMap.set map fst In] in *.
  destruct (String.eqb_spec k' k) as [->|Hne]; [tauto|].
  cbn [app]. rewrite IH by tauto. reflexivity.
Qed.

Lemma set_all_app {V : Type} (m : JsMap.t V) l1 l2 :
  set_all m (l1 ++ l2) = set_all (set_all m l1) l2.
Proof. apply fold_left_app. Qed.

Lemma set_all_fresh {V : Type} (l : list (string * V)) : forall m,
  NoDup (map fst (m ++ l)) -> set_all m l = m ++ l.
Proof.
  induction l as [|[k v] l IH]; intros m Hn.
  - now rewrite app_nil_r.
  - cbn [set_all fold_left fst snd]. fold (set_all (JsMap.set m k v) l).
    assert (Hk : ~ In k (map fst m)).
    { rewrite map_app in Hn. cbn [map fst] in Hn.
      apply NoDup_remove_2 in Hn. rewrite in_app_iff in Hn. tauto. }
    rewrite (JsMap_set_fresh _ _ _ Hk), IH, <- app_assoc; [reflexivity|].
    now rewrite <- app_assoc.
Qed.

Lemma JsMap_get_In {V : Type} (m : JsMap.t V) k v :
  NoDup (map fst m) -> (JsMap.get m k = Some v <-> In (k, v) m).
Proof.
  induction m as [|[k' v'] m IH]; intros Hn.
  - split; [discriminate | intros []].
  - cbn [JsMap.get In map fst] in *. inversion Hn as [|? ? Hk Hn']; subst.
    destruct (String.eqb_spec k' k) as [->|Hne].
    + split.
      * intros E. inversion E. now left.
      * intros [E|Hi]; [now inversion E|].
        exfalso. apply Hk. now apply (in_map fst) in Hi.
    + rewrite (IH Hn'). split; [now right|].
      intros [E|Hi]; [inversion E; congruence | assumption].
Qed.

Section MapTracking.
Context {V : Type}.
Variable V_dec : forall a b : V, {a = b} + {a <> b}.
Variable m : Scanner -> JsMap.t V.
Variable entry : Options -> Event -> list (string * V).
Hypothesis entry_batch : forall o, entry o BatchSettled = [].
Hypothesis entry_task : forall o, entry o TaskSettled = [].
Hypothesis entry_idle : forall o, entry o Idle = [].
Hypothesis m_readdir : forall sc t,
  m (fst (fst (readdir_settled sc t)))
  = set_all (m sc) (entry (options sc) (ReaddirSettled t)).
Hypothesis m_job : forall sc j,
  m (fst (job_settled sc j))
  = set_all (m sc) (entry (options sc) (JobSettled j)).
Hypothesis m_pool : forall L, m (this (processQueue L)) = m (this L).
Hypothesis m_sort : forall sc, m (_sortFilesByCreateTime sc) = m sc.
Hypothesis m_reset : forall sc, m (_resetStats sc) = [].

Lemma mapped_step c L :
  m (this (step c L))
  = set_all (m (this L)) (entry (options (this L)) (event c L)).
Proof.
  destruct (step_cases c L) as
    [(Hr & -> & ->)
    |(pre & r & post & Hr &
      [(Hph & -> & ->)
      |[(fs & i & before & j & after & Hph & -> & ->)
       |[(fs & i & Hph & -> & ->)
        |(Hph & -> & ->)]]])]; cbn [resume this].
  - now rewrite entry_idle.
  - apply m_readdir.
  - apply m_job.
  - now rewrite entry_batch.
  - unfold task_settled. cbn [this]. rewrite m_pool, entry_task. reflexivity.
Qed.

Lemma mapped_run sched fuel : forall k L,
  m (this (run sched fuel k L))
  = set_all (m (this L))
      (flat_map (entry (options (this L))) (events sched fuel k L)).
Proof.
  induction fuel as [|fuel IH]; intros k L; [reflexivity|].
  cbn [run events flat_map].
  now rewrite IH, mapped_step, options_step, set_all_app.
Qed.

Lemma pair_dec (a b : string * V) : {a = b} + {a <> b}.
Proof. decide equality. apply string_dec. Defined.

Lemma mapped_scan sched fuel sc rootDir root result sc' :
  1 <= batchSize (options sc) ->
  NoDup (map fst (flat_map (entry (options sc))
                    (work_below (options sc) (root_task rootDir root)))) ->
  scanDirectory sched fuel sc rootDir root = Some (Resolved result sc') ->
  Permutation (m sc')
    (flat_map (entry (options sc))
       (work_below (options sc) (root_task rootDir root)))
  /\ NoDup (map fst (m sc')).
Proof.
  intros Hb Hn H. apply scanDirectory_resolved in H.
  destruct H as (Hf & -> & _ & _).
  rewrite m_sort, mapped_run, options_start. cbn [_resetStats options].
  unfold start. rewrite m_pool. cbn [this]. rewrite m_reset.
  pose proof (scan_trace_permutation pair_dec (entry (options sc))
                sched fuel (_resetStats sc) rootDir root
                (entry_batch _) (entry_task _) (entry_idle _) Hb Hf) as P.
  cbn [_resetStats options] in P. unfold start in P.
  assert (Hn' : NoDup (map fst
                  (flat_map (entry (options sc))
                     (events sched fuel 0
                        (processQueue
                           {| this := _resetStats sc;
                              queue := [ {| currentPath := rootDir;
                                            relativePath := "";
                                            behind := root |} ];
                              activePromises := 0; running := [];
                              finished := false |}))))).
  { eapply Permutation_NoDup; [|exact Hn].
    apply Permutation_map. symmetry. exact P. }
  rewrite set_all_fresh by exact Hn'. cbn [app]. split; assumption.
Qed.

End MapTracking.

Lemma FileInfo_eq_dec (a b : FileInfo) : {a = b} + {a <> b}.
Proof. decide equality; first [apply Z.eq_dec | apply string_dec]. Defined.

Lemma HashRecord_eq_dec (a b : HashRecord) : {a = b} + {a <> b}.
Proof.
  decide equality; [decide equality | apply string_dec].
Defined.

Lemma flat_map_nil {A B : Type} (l : list A) :
  flat_map (fun _ => @nil B) l = [].
Proof. induction l; auto. Qed.

Lemma fileMap_entries o t :
  flat_map (measure_list (fun _ => []) file_entry (fun _ _ => []))
    (work_below o t)
  = flat_map file_entry (files_under t).
Proof.
  rewrite flat_map_work_below. cbn [measure_list].
  rewrite flat_map_nil. cbn [app]. apply flat_map_ext. intros f.
  unfold job_events. cbn [flat_map measure_list].
  destruct (fstat f) as [st|]; [|now rewrite app_nil_r].
  destruct (enableHash o); cbn [flat_map measure_list app];
    now rewrite app_nil_r.
Qed.

Lemma fileMap_scan sched fuel sc rootDir root result sc' :
  1 <= batchSize (options sc) ->
  NoDup (map fst (expected_fileMap rootDir root)) ->
  scanDirectory sched fuel sc rootDir root = Some (Resolved result sc') ->
  Permutation (fileMap sc') (expected_fileMap rootDir root)
  /\ NoDup (map fst (fileMap sc')).
Proof.
  intros Hb Hn H. unfold expected_fileMap in *.
  rewrite <- (fileMap_entries (options sc)) in *.
  apply (mapped_scan FileInfo_eq_dec fileMap
           (fun _ => measure_list (fun _ => []) file_entry (fun _ _ => [])))
    with (sched := sched) (fuel := fuel) (result := result);
    try assumption; try reflexivity.
  - intros sc0 t. unfold readdir_settled.
    destruct (readdir (behind t)); reflexivity.
  - intros sc0 [f|f n]; cbn [job_settled measure_list].
    + unfold stat_settled, file_entry. destruct (fstat f); reflexivity.
    + unfold _calculateFileHash. destruct (awaited_digest _ _ _); reflexivity.
  - intros L. unfold processQueue.
    destruct (processQueue_loop _ _ _ _ _) as [[[q a] s] st]. reflexivity.
Qed.

Lemma hashMap_entries o t :
  flat_map (measure_list (fun _ => []) (fun _ => []) (hash_entry o))
    (work_below o t)
  = if enableHash o
    then flat_map (fun f => hash_entry o f (stat_size f))
           (filter stat_ok (files_under t))
    else [].
Proof.
  rewrite flat_map_work_below. cbn [measure_list].
  rewrite flat_map_nil. cbn [app].
  induction (files_under t) as [|f l IH].
  - destruct (enableHash o); reflexivity.
  - cbn [flat_map filter]. rewrite IH. unfold job_events, stat_ok, stat_size.
    cbn [flat_map measure_list app].
    destruct (fstat f) as [st|] eqn:Ef; destruct (enableHash o);
      cbn [flat_map measure_list app]; rewrite ?Ef, ?app_nil_r; reflexivity.
Qed.

Lemma hashMap_scan sched fuel sc rootDir root result sc' :
  1 <= batchSize (options sc) ->
  NoDup (map fst (expected_hashMap (options sc) rootDir root)) ->
  scanDirectory sched fuel sc rootDir root = Some (Resolved result sc') ->
  Permutation (hashMap sc') (expected_hashMap (options sc) rootDir root)
  /\ NoDup (map fst (hashMap sc')).
Proof.
  intros Hb Hn H. unfold expected_hashMap, found_files in *.
  rewrite <- (hashMap_entries (options sc)) in *.
  apply (mapped_scan HashRecord_eq_dec hashMap
           (fun o => measure_list (fun _ => []) (fun _ => []) (hash_entry o)))
    with (sched := sched) (fuel := fuel) (result := result);
    try assumption; try reflexivity.
  - intros sc0 t. unfold readdir_settled.
    destruct (readdir (behind t)); reflexivity.
  - intros sc0 [f|f n]; cbn [job_settled measure_list].
    + unfold stat_settled. destruct (fstat f); reflexivity.
    + unfold _calculateFileHash, hash_entry.
      destruct (awaited_digest _ _ _); reflexivity.
  - intros L. unfold processQueue.
    destruct (processQueue_loop _ _ _ _ _) as [[[q a] s] st]. reflexivity.
Qed.

(** ** The result of a scan is that of the tree, whatever the schedule *)

(** X1: when a scan with batches of at least one file resolves, whatever
    the order in which the pending operations completed, [totalFiles] and
    [stats.filesScanned] are the number of regular files whose [stat]
    succeeds in the directories that can be listed below the root, and
    [stats.directoriesScanned] is the number of directories that can be
    listed, the root included.  [totalSize] is the sum of the sizes of
    those files as long as the sizes, in absolute value, add up to at most
    [2^53]: the scanner adds them as doubles, which are exact up to
    there. *)
Theorem scan_totals_are_those_of_the_tree
    (sched : Schedule) (fuel : nat) (sc : Scanner) (rootDir : string)
    (root : Node) (result : ScanResult) (sc' : Scanner) :
  1 <= batchSize (options sc) ->
  scanDirectory sched fuel sc rootDir root = Some (Resolved result sc') ->
  res_totalFiles result = Z.of_nat (length (found_files rootDir root))
  /\ filesScanned (res_stats result)
     = Z.of_nat (length (found_files rootDir root))
  /\ directoriesScanned (res_stats result)
     = Z.of_nat (length (listed_directories rootDir root))
  /\ (total (fun f => Z.abs (stat_size f)) (found_files rootDir root)
      <= 2 ^ 53 ->
      res_totalSize result = total stat_size (found_files rootDir root)).
Proof.
  intros Hb H.
  destruct (totalFiles_scan _ _ _ _ _ _ _ Hb H) as [H1 H2].
  pose proof (totalSize_scan _ _ _ _ _ _ _ Hb H) as H3.
  pose proof (directoriesScanned_scan _ _ _ _ _ _ _ Hb H) as H4.
  apply scanDirectory_resolved in H. destruct H as (_ & _ & -> & _).
  cbn [_getScanResults res_totalFiles res_totalSize res_stats]. auto.
Qed.

Lemma scan_totals_are_those_of_the_tree_witness :
  exists result sc',
    scanDirectory shuffled 40 (new_scanner default_options) "root" mixed_tree
    = Some (Resolved result sc')
    /\ res_totalFiles result = 2
    /\ filesScanned (res_stats result) = 2
    /\ directoriesScanned (res_stats result) = 2
    /\ res_totalSize result = 7.
Proof.
  let v := eval vm_compute in
    (scanDirectory shuffled 40 (new_scanner default_options) "root"
       mixed_tree) in
  match v with
  | Some (Resolved ?r ?s) =>
      exists r, s;
      assert (H : scanDirectory shuffled 40 (new_scanner default_options)
                    "root" mixed_tree = Some (Resolved r s))
        by (vm_compute; reflexivity);
      split; [exact H|];
      destruct (scan_totals_are_those_of_the_tree shuffled 40
                  (new_scanner default_options) "root" mixed_tree r s)
        as (H1 & H2 & H3 & H4);
      [vm_compute; discriminate | exact H |];
      split; [exact H1|];
      split; [exact H2|];
      split; [exact H3|];
      apply H4; vm_compute; discriminate
  end.
Defined.

(** Beyond [2^53] the sum is rounded: a file of [2^53] bytes and a file of
    one byte give a total of [2^53]. *)
Example totalSize_is_rounded_beyond_2_53 :
  exists result sc',
    scanDirectory serial 10 (new_scanner default_options) "root" huge_files
    = Some (Resolved result sc')
    /\ res_totalFiles result = 2
    /\ res_totalSize result = 2 ^ 53
    /\ total stat_size (found_files "root" huge_files) = 2 ^ 53 + 1.
Proof.
  do 2 eexists. split; [vm_compute; reflexivity|].
  repeat split; vm_compute; reflexivity.
Qed.

(** X2: when a scan with batches of at least one file resolves,
    [stats.filesWithHash] is the number of files of the tree whose [stat]
    succeeds and whose digest is obtained, [stats.hashErrors] the number of
    those whose digest fails, and the two add up to [totalFiles]; with
    hashing off both are zero. *)
Theorem scan_hash_counters_are_those_of_the_tree
    (sched : Schedule) (fuel : nat) (sc : Scanner) (rootDir : string)
    (root : Node) (result : ScanResult) (sc' : Scanner) :
  1 <= batchSize (options sc) ->
  scanDirectory sched fuel sc rootDir root = Some (Resolved result sc') ->
  filesWithHash (res_stats result)
  = Z.of_nat (length (hashed_files (options sc) rootDir root))
  /\ hashErrors (res_stats result)
     = Z.of_nat (length (unhashed_files (options sc) rootDir root))
  /\ filesWithHash (res_stats result) + hashErrors (res_stats result)
     = if enableHash (options sc) then res_totalFiles result else 0.
Proof.
  intros Hb H.
  pose proof (filesWithHash_scan _ _ _ _ _ _ _ Hb H) as H1.
  pose proof (hashErrors_scan _ _ _ _ _ _ _ Hb H) as H2.
  destruct (totalFiles_scan _ _ _ _ _ _ _ Hb H) as [H3 _].
  apply scanDirectory_resolved in H. destruct H as (_ & _ & -> & _).
  cbn [_getScanResults res_totalFiles res_stats].
  split; [exact H1|]. split; [exact H2|].
  rewrite H1, H2, H3. unfold hashed_files, unhashed_files.
  destruct (enableHash (options sc)); [|reflexivity].
  rewrite <- Nat2Z.inj_add, filter_partition_length. reflexivity.
Qed.

Lemma scan_hash_counters_are_those_of_the_tree_witness :
  exists result sc',
    scanDirectory shuffled 40 (new_scanner hashing_options) "root" twins
    = Some (Resolved result sc')
    /\ filesWithHash (res_stats result) = 2
    /\ hashErrors (res_stats result) = 1
    /\ filesWithHash (res_stats result) + hashErrors (res_stats result)
       = res_totalFiles result.
Proof.
  let v := eval vm_compute in
    (scanDirectory shuffled 40 (new_scanner hashing_options) "root" twins) in
  match v with
  | Some (Resolved ?r ?s) =>
      exists r, s;
      assert (H : scanDirectory shuffled 40 (new_scanner hashing_options)
                    "root" twins = Some (Resolved r s))
        by (vm_compute; reflexivity);
      split; [exact H|];
      apply (scan_hash_counters_are_those_of_the_tree shuffled 40
               (new_scanner hashing_options) "root" twins r s);
      [vm_compute; discriminate | exact H]
  end.
Defined.

(** X3: when a scan with batches of at least one file resolves, the
    console has received, after what it held before and in some order,
    exactly one warning for each directory below the root that cannot be
    listed, one for each file whose [stat] fails and, with hashing on, one
    for each file whose digest fails; nothing else is warned. *)
Theorem scan_warnings_are_those_of_the_tree
    (sched : Schedule) (fuel : nat) (sc : Scanner) (rootDir : string)
    (root : Node) (result : ScanResult) (sc' : Scanner) :
  1 <= batchSize (options sc) ->
  scanDirectory sched fuel sc rootDir root = Some (Resolved result sc') ->
  Permutation (console sc')
    (console sc ++ expected_warnings (options sc) rootDir root).
Proof. apply console_scan. Qed.

Lemma scan_warnings_are_those_of_the_tree_witness :
  exists result sc',
    scanDirectory shuffled 40 (new_scanner default_options) "root" mixed_tree
    = Some (Resolved result sc')
    /\ Permutation (console sc')
         [CannotReadDirectory "root/locked"; CannotStatFile "gone.txt"].
Proof.
  let v := eval vm_compute in
    (scanDirectory shuffled 40 (new_scanner default_options) "root"
       mixed_tree) in
  match v with
  | Some (Resolved ?r ?s) =>
      exists r, s;
      assert (H : scanDirectory shuffled 40 (new_scanner default_options)
                    "root" mixed_tree = Some (Resolved r s))
        by (vm_compute; reflexivity);
      split; [exact H|];
      apply (scan_warnings_are_those_of_the_tree shuffled 40
               (new_scanner default_options) "root" mixed_tree r s);
      [vm_compute; discriminate | exact H]
  end.
Defined.

(** X4: when a scan with batches of at least one file resolves, the paths
    [getFilesByHash] returns for a digest are, in some order, exactly the
    paths of the files of the tree whose [stat] succeeds and whose digest
    is that one, each once; with hashing off the list is empty. *)
Theorem duplicate_index_groups_the_files_of_the_tree
    (sched : Schedule) (fuel : nat) (sc : Scanner) (rootDir : string)
    (root : Node) (result : ScanResult) (sc' : Scanner) (d : string) :
  1 <= batchSize (options sc) ->
  scanDirectory sched fuel sc rootDir root = Some (Resolved result sc') ->
  Permutation (getFilesByHash sc' d)
    (map itemRelativePath (files_with_digest (options sc) d rootDir root)).
Proof. apply groups_scan. Qed.

Lemma duplicate_index_groups_the_files_of_the_tree_witness :
  exists result sc',
    scanDirectory shuffled 40 (new_scanner hashing_options) "root" twins
    = Some (Resolved result sc')
    /\ Permutation (getFilesByHash sc' "47bce5c74f589f4867dbd57e9ca9f808")
         ["a.txt"; "sub/a2.txt"].
Proof.
  let v := eval vm_compute in
    (scanDirectory shuffled 40 (new_scanner hashing_options) "root" twins) in
  match v with
  | Some (Resolved ?r ?s) =>
      exists r, s;
      assert (H : scanDirectory shuffled 40 (new_scanner hashing_options)
                    "root" twins = Some (Resolved r s))
        by (vm_compute; reflexivity);
      split; [exact H|];
      assert (E : map itemRelativePath
                    (files_with_digest (options (new_scanner hashing_options))
                       "47bce5c74f589f4867dbd57e9ca9f808" "root" twins)
                  = ["a.txt"; "sub/a2.txt"]) by (vm_compute; reflexivity);
      rewrite <- E;
      apply (duplicate_index_groups_the_files_of_the_tree shuffled 40
               (new_scanner hashing_options) "root" twins r s);
      [vm_compute; discriminate | exact H]
  end.
Defined.

(** X5: when the files of the tree whose [stat] succeeds have pairwise
    different relative paths and a scan with batches of at least one file
    resolves, the file map holds exactly one entry for each of them, under
    its relative path and with the size and times [stat] returned, and
    nothing else; the listing [filesByCreateTime] holds the same entries,
    each once, under either sort algorithm. *)
Theorem file_listing_is_that_of_the_tree
    (sched : Schedule) (fuel : nat) (sc : Scanner) (rootDir : string)
    (root : Node) (result : ScanResult) (sc' : Scanner) :
  1 <= batchSize (options sc) ->
  NoDup (map fst (expected_fileMap rootDir root)) ->
  scanDirectory sched fuel sc rootDir root = Some (Resolved result sc') ->
  (forall p info,
     JsMap.get (fileMap sc') p = Some info
     <-> In (p, info) (expected_fileMap rootDir root))
  /\ Permutation (JsMap.values (fileMap sc'))
       (map snd (expected_fileMap rootDir root))
  /\ Permutation (filesByCreateTime sc')
       (map snd (expected_fileMap rootDir root)).
Proof.
  intros Hb Hn H.
  destruct (fileMap_scan _ _ _ _ _ _ _ Hb Hn H) as [P Hn'].
  assert (Pv : Permutation (JsMap.values (fileMap sc'))
                 (map snd (expected_fileMap rootDir root)))
    by (apply Permutation_map; exact P).
  split; [|split; [exact Pv|]].
  - intros p info. rewrite (JsMap_get_In _ _ _ Hn'). split; intros Hi.
    + eapply Permutation_in; eauto.
    + eapply Permutation_in; [symmetry|]; eauto.
  - apply scanDirectory_resolved in H. destruct H as (_ & E & _ & _).
    subst sc'. unfold _sortFilesByCreateTime in *.
    cbn [filesByCreateTime fileMap] in *.
    destruct (is_quick _); [exact Pv|].
    etransitivity; [|exact Pv]. apply Array_sort_perm.
Qed.

Lemma file_listing_is_that_of_the_tree_witness :
  exists result sc',
    scanDirectory shuffled 40 (new_scanner default_options) "root" mixed_tree
    = Some (Resolved result sc')
    /\ Permutation (map path (filesByCreateTime sc')) ["a.txt"; "sub/b.txt"].
Proof.
  let v := eval vm_compute in
    (scanDirectory shuffled 40 (new_scanner default_options) "root"
       mixed_tree) in
  match v with
  | Some (Resolved ?r ?s) =>
      exists r, s;
      assert (H : scanDirectory shuffled 40 (new_scanner default_options)
                    "root" mixed_tree = Some (Resolved r s))
        by (vm_compute; reflexivity);
      split; [exact H|];
      assert (Hn : NoDup (map fst (expected_fileMap "root" mixed_tree)))
        by (vm_compute; repeat constructor; simpl; intuition discriminate);
      assert (Hb : 1 <= batchSize (options (new_scanner default_options)))
        by (vm_compute; discriminate);
      exact (Permutation_map path
               (proj2 (proj2 (file_listing_is_that_of_the_tree shuffled 40
                                (new_scanner default_options) "root"
                                mixed_tree r s Hb Hn H))))
  end.
Defined.

(** X6: when the hashed files of the tree have pairwise different relative
    paths and a scan with batches of at least one file resolves,
    [getFileHash] returns a record for a path exactly when a file of the
    tree with that path was stat'ed and hashed; the record holds the digest
    of that file and the method its size selects ([full] up to
    [hashThreshold], [sampled] above).  With hashing off every path is
    answered [undefined]. *)
Theorem hash_map_is_that_of_the_tree
    (sched : Schedule) (fuel : nat) (sc : Scanner) (rootDir : string)
    (root : Node) (result : ScanResult) (sc' : Scanner) :
  1 <= batchSize (options sc) ->
  NoDup (map fst (expected_hashMap (options sc) rootDir root)) ->
  scanDirectory sched fuel sc rootDir root = Some (Resolved result sc') ->
  forall p r,
    getFileHash sc' p = Some r
    <-> In (p, r) (expected_hashMap (options sc) rootDir root).
Proof.
  intros Hb Hn H p r.
  destruct (hashMap_scan _ _ _ _ _ _ _ Hb Hn H) as [P Hn'].
  unfold getFileHash. rewrite (JsMap_get_In _ _ _ Hn'). split; intros Hi.
  - eapply Permutation_in; eauto.
  - eapply Permutation_in; [symmetry|]; eauto.
Qed.

Lemma hash_map_is_that_of_the_tree_witness :
  exists result sc',
    scanDirectory shuffled 40 (new_scanner hashing_options) "root" twins
    = Some (Resolved result sc')
    /\ getFileHash sc' "sub/a2.txt"
       = Some {| hash := "47bce5c74f589f4867dbd57e9ca9f808"; method := full |}.
Proof.
  let v := eval vm_compute in
    (scanDirectory shuffled 40 (new_scanner hashing_options) "root" twins) in
  match v with
  | Some (Resolved ?r ?s) =>
      exists r, s;
      assert (H : scanDirectory shuffled 40 (new_scanner hashing_options)
                    "root" twins = Some (Resolved r s))
        by (vm_compute; reflexivity);
      split; [exact H|];
      assert (Hn : NoDup (map fst (expected_hashMap
                                     (options (new_scanner hashing_options))
                                     "root" twins)))
        by (vm_compute; repeat constructor; simpl; intuition discriminate);
      assert (Hb : 1 <= batchSize (options (new_scanner hashing_options)))
        by (vm_compute; discriminate);
      apply (hash_map_is_that_of_the_tree shuffled 40
               (new_scanner hashing_options) "root" twins r s Hb Hn H);
      vm_compute; auto
  end.
Defined.

(** ** Batches *)

Lemma batch_at_bounded o fileStats i :
  0 <= i -> 0 <= batchSize o ->
  phase_ok (batch_at o fileStats i)
  /\ Z.of_nat (length (file_jobs (batch_at o fileStats i))) <= batchSize o.
Proof.
  intros Hi Hb. split; [now apply batch_at_ok|]. unfold batch_at.
  destruct (i <? Z.of_nat (length fileStats)); cbn [file_jobs length]; [|lia].
  rewrite length_map, js_slice_length by assumption. lia.
Qed.

Lemma batches_bounded_resume L sc q pre r post ph :
  batches_bounded L -> running L = pre ++ r :: post ->
  options sc = options (this L) ->
  phase_ok ph ->
  Z.of_nat (length (file_jobs ph)) <= batchSize (options (this L)) ->
  batches_bounded (resume L sc q pre (task r) ph post).
Proof.
  unfold batches_bounded, resume. cbn [running this phase].
  intros HB Hr Ho Hok Hle. rewrite Ho, Hr in *.
  eapply Forall_replace; [exact HB|]. cbn [phase]. auto.
Qed.

Lemma batches_bounded_turn L L' :
  0 <= batchSize (options (this L)) ->
  batches_bounded L -> turn L L' -> batches_bounded L'.
Proof.
  intros Hb HB H. destruct H as
    [pre r post sc pushed ph Hr Hph E
    |pre r post fs i b j a sc j' Hr Hph E
    |pre r post fs i Hr Hph
    |pre r post Hr Hph].
  - apply batches_bounded_resume; try assumption.
    + eapply options_readdir_settled; eauto.
    + eapply readdir_settled_ok; eauto.
    + unfold readdir_settled in E.
      destruct (readdir (behind (task r))); inversion E; subst;
        [apply batch_at_bounded; lia | cbn; lia].
  - assert (Hr' : Forall (fun r => phase_ok (phase r)
                     /\ Z.of_nat (length (file_jobs (phase r)))
                        <= batchSize (options (this L))) (pre ++ r :: post))
      by (rewrite <- Hr; exact HB).
    apply Forall_elt in Hr'. rewrite Hph in Hr'. destruct Hr' as [Hok Hle].
    apply batches_bounded_resume; try assumption.
    + eapply options_job_settled; eauto.
    + cbn [file_jobs] in *. rewrite !length_app in *. cbn [length] in *.
      destruct j'; cbn [after_job length]; lia.
  - assert (Hr' : Forall (fun r => phase_ok (phase r)
                     /\ Z.of_nat (length (file_jobs (phase r)))
                        <= batchSize (options (this L))) (pre ++ r :: post))
      by (rewrite <- Hr; exact HB).
    apply Forall_elt in Hr'. rewrite Hph in Hr'. destruct Hr' as [Hok Hle].
    cbn [phase_ok] in Hok.
    apply batches_bounded_resume; try assumption; try reflexivity;
      apply batch_at_bounded; lia.
  - unfold batches_bounded, task_settled. cbn [this running].
    rewrite options_processQueue. cbn [this]. unfold processQueue.
    destruct (processQueue_loop _ _ _ _ _) as [[[q a0] s] st] eqn:E.
    apply processQueue_loop_shape in E. destruct E as (adm & _ & -> & _).
    cbn [running]. apply Forall_app. split.
    + unfold batches_bounded in HB. rewrite Hr in HB.
      apply Forall_app in HB. destruct HB as [H1 H2].
      inversion H2; subst. apply Forall_app. auto.
    + apply Forall_forall. intros x Hx. apply in_map_iff in Hx.
      destruct Hx as (t & <- & _). cbn. lia.
Qed.

Lemma batches_bounded_start sc rootDir root :
  0 <= batchSize (options sc) -> batches_bounded (start sc rootDir root).
Proof.
  intros Hb. unfold batches_bounded, start. rewrite options_processQueue.
  cbn [this]. unfold processQueue.
  destruct (processQueue_loop _ _ _ _ _) as [[[q a0] s] st] eqn:E.
  apply processQueue_loop_shape in E. destruct E as (adm & _ & -> & _).
  cbn [running app]. apply Forall_forall. intros x Hx.
  apply in_map_iff in Hx. destruct Hx as (t & <- & _). cbn. lia.
Qed.

Lemma total_bounded {A : Type} (mu : A -> Z) (b : Z) l :
  Forall (fun x => mu x <= b) l -> total mu l <= Z.of_nat (length l) * b.
Proof.
  induction 1 as [|x l Hx _ IH]; [reflexivity|].
  rewrite total_cons. cbn [length]. lia.
Qed.

(** X7: throughout every scan with a non-negative pool size and batch
    size, under every schedule, each directory task waits for at most
    [batchSize] file operations ([stat] or digest) at a time, so that the
    file operations in flight never exceed [maxConcurrency * batchSize]:
    the pool bounds the directory tasks, not the file operations. *)
Theorem file_operations_in_flight_are_bounded
    (sc : Scanner) (rootDir : string) (root : Node) (L : Loop) :
  0 <= maxConcurrency (options sc) ->
  0 <= batchSize (options sc) ->
  turns (start (_resetStats sc) rootDir root) L ->
  (forall r, In r (running L) ->
     Z.of_nat (length (file_jobs (phase r))) <= batchSize (options sc))
  /\ jobs_in_flight L <= maxConcurrency (options sc) * batchSize (options sc).
Proof.
  intros Hm Hb HT.
  assert (H : options (this L) = options sc
              /\ batches_bounded L /\ pool_bounded L).
  { induction HT as [|L' L'' _ IH T].
    - split; [now rewrite options_start|]. split.
      + apply batches_bounded_start. exact Hb.
      + apply pool_bounded_start; cbn; [assumption | lia].
    - destruct IH as (Ho & HB & HP). split; [|split].
      + erewrite options_turn; eauto.
      + eapply batches_bounded_turn; eauto. now rewrite Ho.
      + eapply pool_bounded_turn; eauto. }
  destruct H as (Ho & HB & HP). unfold batches_bounded in HB.
  rewrite Ho in HB. split.
  - intros r Hr. rewrite Forall_forall in HB. now apply HB.
  - unfold jobs_in_flight.
    assert (HB' : Forall (fun r => Z.of_nat (length (file_jobs (phase r)))
                                   <= batchSize (options sc)) (running L)).
    { eapply Forall_impl; [|exact HB]. cbn. tauto. }
    apply total_bounded in HB'.
    destruct HP as (Ha & Hle & _). rewrite Ho in Hle. nia.
Qed.

Lemma file_operations_in_flight_are_bounded_witness :
  jobs_in_flight
    (run shuffled 3 0
       (start (_resetStats (new_scanner default_options)) "root" mixed_tree))
  <= 200 * 50.
Proof.
  apply (file_operations_in_flight_are_bounded
           (new_scanner default_options) "root" mixed_tree).
  - vm_compute. discriminate.
  - vm_compute. discriminate.
  - apply run_turns.
Defined.

(** ** The optional quick sort *)

Lemma StronglySorted_app {A : Type} (R : A -> A -> Prop) l1 l2 :
  StronglySorted R l1 -> StronglySorted R l2 ->
  (forall x y, In x l1 -> In y l2 -> R x y) ->
  StronglySorted R (l1 ++ l2).
Proof.
  induction 1 as [|x l1 H1 IH Hx]; intros H2 H12; [assumption|].
  cbn [app]. constructor.
  - apply IH; [assumption|]. intros a b Ha Hb. apply H12; [now right | assumption].
  - apply Forall_app. split; [assumption|].
    apply Forall_forall. intros y Hy. apply H12; [now left | assumption].
Qed.

Lemma StronglySorted_app_inv {A : Type} (R : A -> A -> Prop) l1 l2 :
  StronglySorted R (l1 ++ l2) ->
  StronglySorted R l1 /\ StronglySorted R l2
  /\ (forall x y, In x l1 -> In y l2 -> R x y).
Proof.
  induction l1 as [|a l1 IH]; cbn [app]; intros H.
  - repeat split; [constructor | assumption | intros x y []].
  - inversion H as [|? ? Hs Hf]; subst. destruct (IH Hs) as (H1 & H2 & H12).
    apply Forall_app in Hf. destruct Hf as [Hf1 Hf2].
    repeat split; [constructor; assumption | assumption|].
    intros x y [->|Hx] Hy; [|now apply H12].
    rewrite Forall_forall in Hf2. now apply Hf2.
Qed.

Lemma StronglySorted_same_key {A : Type} (key : A -> Z) (t : Z) l :
  Forall (fun x => key x = t) l -> StronglySorted (ordered_by key) l.
Proof.
  induction 1 as [|x l Hx Hl IH]; constructor; [assumption|].
  eapply Forall_impl; [|exact Hl]. intros y Hy. cbn beta in *.
  unfold ordered_by. lia.
Qed.

(** A list ordered by a key is determined by the order in which it lists
    the elements of each key. *)
Lemma sorted_stable_unique {A : Type} (key : A -> Z) : forall l1 l2,
  StronglySorted (ordered_by key) l1 ->
  StronglySorted (ordered_by key) l2 ->
  (forall t, filter (fun a => key a =? t) l1 = filter (fun a => key a =? t) l2) ->
  l1 = l2.
Proof.
  induction l1 as [|x l1 IH]; intros l2 H1 H2 E.
  - destruct l2 as [|y l2]; [reflexivity|].
    specialize (E (key y)). cbn [filter] in E. rewrite Z.eqb_refl in E.
    discriminate.
  - destruct l2 as [|y l2].
    + specialize (E (key x)). cbn [filter] in E. rewrite Z.eqb_refl in E.
      discriminate.
    + inversion H1 as [|? ? S1 F1]; subst. inversion H2 as [|? ? S2 F2]; subst.
      assert (Hxy : key x = key y).
      { assert (Hx : In x (y :: l2)).
        { pose proof (E (key x)) as Ex. cbn [filter] in Ex.
          rewrite Z.eqb_refl in Ex.
          assert (Hi : In x (filter (fun a => key a =? key x) (y :: l2))).
          { cbn [filter]. rewrite <- Ex. now left. }
          apply filter_In in Hi. tauto. }
        assert (Hy : In y (x :: l1)).
        { pose proof (E (key y)) as Ey. cbn [filter] in Ey.
          rewrite (Z.eqb_refl (key y)) in Ey.
          assert (Hi : In y (filter (fun a => key a =? key y) (x :: l1))).
          { cbn [filter]. rewrite Ey. now left. }
          apply filter_In in Hi. tauto. }
        rewrite Forall_forall in F1, F2. unfold ordered_by in *.
        destruct Hx as [->|Hx]; [reflexivity|].
        destruct Hy as [->|Hy]; [reflexivity|].
        specialize (F1 _ Hy). specialize (F2 _ Hx). lia. }
      pose proof (E (key x)) as Ex. cbn [filter] in Ex.
      rewrite Z.eqb_refl, <- Hxy, Z.eqb_refl in Ex.
      inversion Ex as [[Exy Et]]. subst y. f_equal.
      apply IH; try assumption. intros t.
      destruct (Z.eq_dec (key x) t) as [<-|Hne]; [assumption|].
      specialize (E t). cbn [filter] in E.
      apply Z.eqb_neq in Hne. now rewrite Hne in E.
Qed.

Lemma filter_length_le {A : Type} (p : A -> bool) l :
  (length (filter p l) <= length l)%nat.
Proof.
  induction l as [|x l IH]; [reflexivity|]. cbn [filter].
  destruct (p x); cbn [length]; lia.
Qed.

Lemma filter_length_lt {A : Type} (p : A -> bool) l x :
  In x l -> p x = false -> (length (filter p l) < length l)%nat.
Proof.
  induction l as [|y l IH]; [intros []|]. intros [->|Hi] Hx; cbn [filter].
  - rewrite Hx. pose proof (filter_length_le p l). cbn [length]. lia.
  - specialize (IH Hi Hx). destruct (p y); cbn [length]; lia.
Qed.

Lemma filter_key_filter {A : Type} (key : A -> Z) (p : A -> bool) t l :
  filter (fun a => key a =? t) (filter p l)
  = filter (fun a => p a && (key a =? t)) l.
Proof. apply filter_filter. Qed.

Lemma _quickSortByTime_depth_spec fuel : forall arr,
  (length arr <= fuel)%nat ->
  StronglySorted earlier (_quickSortByTime_depth fuel arr)
  /\ (forall t, filter (fun a => createTime a =? t)
                  (_quickSortByTime_depth fuel arr)
                = filter (fun a => createTime a =? t) arr)
  /\ (forall x, In x (_quickSortByTime_depth fuel arr) -> In x arr).
Proof.
  induction fuel as [|fuel IH]; intros arr Hlen.
  - destruct arr; [|cbn in Hlen; lia]. cbn. repeat split; auto. constructor.
  - cbn [_quickSortByTime_depth].
    destruct (length arr <=? 1)%nat eqn:E1.
    { apply Nat.leb_le in E1. repeat split; auto.
      destruct arr as [|a [|b arr]]; [constructor| |cbn in E1; lia].
      constructor; constructor. }
    apply Nat.leb_gt in E1.
    destruct (nth_error arr (length arr / 2)) as [pivot|] eqn:Ep.
    2:{ apply nth_error_None in Ep.
        pose proof (Nat.div_lt (length arr) 2 ltac:(lia) ltac:(lia)). lia. }
    apply nth_error_In in Ep.
    set (left := filter (fun file => byCreateTime file pivot <? 0) arr).
    set (right := filter (fun file => byCreateTime file pivot >? 0) arr).
    set (equal := filter (fun file => byCreateTime file pivot =? 0) arr).
    assert (Hl : (length left <= fuel)%nat).
    { pose proof (filter_length_lt (fun file => byCreateTime file pivot <? 0)
                    arr pivot Ep) as H.
      unfold left. unfold byCreateTime in *.
      rewrite Z.sub_diag in H. specialize (H eq_refl). lia. }
    assert (Hr : (length right <= fuel)%nat).
    { pose proof (filter_length_lt (fun file => byCreateTime file pivot >? 0)
                    arr pivot Ep) as H.
      unfold right. unfold byCreateTime in *.
      rewrite Z.sub_diag in H. specialize (H eq_refl). lia. }
    destruct (IH left Hl) as (SL & FL & IL).
    destruct (IH right Hr) as (SR & FR & IR).
    assert (Kl : forall x, In x left -> createTime x < createTime pivot).
    { intros x Hx. apply filter_In in Hx. destruct Hx as [_ Hx].
      unfold byCreateTime in Hx. apply Z.ltb_lt in Hx. lia. }
    assert (Kr : forall x, In x right -> createTime pivot < createTime x).
    { intros x Hx. apply filter_In in Hx. destruct Hx as [_ Hx].
      unfold byCreateTime in Hx. rewrite Z.gtb_ltb in Hx.
      apply Z.ltb_lt in Hx. lia. }
    assert (Ke : forall x, In x equal -> createTime x = createTime pivot).
    { intros x Hx. apply filter_In in Hx. destruct Hx as [_ Hx].
      unfold byCreateTime in Hx. apply Z.eqb_eq in Hx. lia. }
    split; [|split].
    + apply StronglySorted_app; [assumption| |].
      * apply StronglySorted_app; [|assumption|].
        -- apply (StronglySorted_same_key createTime (createTime pivot)).
           apply Forall_forall. exact Ke.
        -- intros x y Hx Hy. apply Ke in Hx. apply IR, Kr in Hy.
           unfold earlier, ordered_by. lia.
      * intros x y Hx Hy. apply IL, Kl in Hx. unfold earlier, ordered_by.
        apply in_app_iff in Hy. destruct Hy as [Hy|Hy].
        -- apply Ke in Hy. lia.
        -- apply IR, Kr in Hy. lia.
    + intros t. rewrite !filter_app, FL, FR. unfold left, right, equal.
      rewrite !filter_key_filter. unfold byCreateTime.
      destruct (Z.lt_trichotomy t (createTime pivot)) as [Ht|[Ht|Ht]].
      * rewrite (filter_ext _ (fun a => createTime a =? t)),
          (filter_ext (fun a => (createTime a - createTime pivot =? 0)
                                && (createTime a =? t)) (fun _ => false)),
          (filter_ext (fun a => (createTime a - createTime pivot >? 0)
                                && (createTime a =? t)) (fun _ => false)),
          !filter_false, !app_nil_r; [reflexivity| | |]; intros a;
          rewrite ?Z.gtb_ltb;
          destruct (Z.eqb_spec (createTime a) t);
          rewrite ?andb_false_r, ?andb_true_r; try reflexivity;
          [apply Z.ltb_ge | apply Z.eqb_neq | apply Z.ltb_lt]; lia.
      * rewrite (filter_ext (fun a => (createTime a - createTime pivot <? 0)
                                && (createTime a =? t)) (fun _ => false)),
          (filter_ext (fun a => (createTime a - createTime pivot =? 0)
                                && (createTime a =? t))
             (fun a => createTime a =? t)),
          (filter_ext (fun a => (createTime a - createTime pivot >? 0)
                                && (createTime a =? t)) (fun _ => false)),
          !filter_false, !app_nil_r; [reflexivity| | |]; intros a;
          rewrite ?Z.gtb_ltb;
          destruct (Z.eqb_spec (createTime a) t);
          rewrite ?andb_false_r, ?andb_true_r; try reflexivity;
          [apply Z.ltb_ge | apply Z.eqb_eq | apply Z.ltb_ge]; lia.
      * rewrite (filter_ext (fun a => (createTime a - createTime pivot <? 0)
                                && (createTime a =? t)) (fun _ => false)),
          (filter_ext (fun a => (createTime a - createTime pivot =? 0)
                                && (createTime a =? t)) (fun _ => false)),
          (filter_ext (fun a => (createTime a - createTime pivot >? 0)
                                && (createTime a =? t))
             (fun a => createTime a =? t)),
          !filter_false; [reflexivity| | |]; intros a;
          rewrite ?Z.gtb_ltb;
          destruct (Z.eqb_spec (createTime a) t);
          rewrite ?andb_false_r, ?andb_true_r; try reflexivity;
          [apply Z.ltb_lt | apply Z.eqb_neq | apply Z.ltb_ge]; lia.
    + intros x Hx. apply in_app_iff in Hx. destruct Hx as [Hx|Hx].
      * apply IL in Hx. apply filter_In in Hx. tauto.
      * apply in_app_iff in Hx. destruct Hx as [Hx|Hx].
        -- apply filter_In in Hx. tauto.
        -- apply IR in Hx. apply filter_In in Hx. tauto.
Qed.

Lemma _quickSortByTime_builtin arr :
  _quickSortByTime arr = Array_sort byCreateTime arr.
Proof.
  destruct (_quickSortByTime_depth_spec (length arr) arr (le_n _))
    as (S & F & _).
  apply (sorted_stable_unique createTime); [exact S| |].
  - apply (Array_sort_sorted createTime byCreateTime). reflexivity.
  - intros t. unfold _quickSortByTime. rewrite F. symmetry.
    apply (Array_sort_stable createTime byCreateTime). reflexivity.
Qed.

(** X8: [_quickSortByTime] returns, for every array, exactly the array the
    built-in sort produces (ordered by creation time, files of equal time
    in their original order); that array is dropped: under
    [sortAlgorithm: 'quick'] the listing [filesByCreateTime] is the values
    of the file map in insertion order, and it is ordered by creation time
    only if the files happened to be inserted in that order. *)
Theorem quick_sort_is_the_builtin_sort_and_is_dropped :
  (forall arr, _quickSortByTime arr = Array_sort byCreateTime arr)
  /\ (forall sc,
        filesByCreateTime (_sortFilesByCreateTime sc)
        = if is_quick (options sc) then JsMap.values (fileMap sc)
          else _quickSortByTime (JsMap.values (fileMap sc)))
  /\ (forall sc,
        StronglySorted earlier (filesByCreateTime (_sortFilesByCreateTime sc))
        <-> (is_quick (options sc) = true ->
             StronglySorted earlier (JsMap.values (fileMap sc)))).
Proof.
  split; [exact _quickSortByTime_builtin|]. split.
  - intros sc. unfold _sortFilesByCreateTime. cbn [filesByCreateTime].
    destruct (is_quick (options sc)); [reflexivity|].
    symmetry. apply _quickSortByTime_builtin.
  - intros sc. unfold _sortFilesByCreateTime. cbn [filesByCreateTime].
    destruct (is_quick (options sc)).
    + split; auto.
    + split; [discriminate|]. intros _.
      apply (Array_sort_sorted createTime byCreateTime). reflexivity.
Qed.

(** ** The largest files *)

Lemma StronglySorted_weaken {A : Type} (R R' : A -> A -> Prop) l :
  (forall a b, R a b -> R' a b) -> StronglySorted R l -> StronglySorted R' l.
Proof.
  intros H. induction 1 as [|x l _ IH Hx]; constructor; [assumption|].
  eapply Forall_impl; [|exact Hx]. auto.
Qed.

Lemma js_slice_prefix {A : Type} (l : list A) (count : Z) :
  js_slice l 0 count
  = firstn (Z.to_nat (js_index (Z.of_nat (length l)) count)) l.
Proof.
  unfold js_slice. cbv zeta.
  change (js_index (Z.of_nat (length l)) 0)
    with (Z.min 0 (Z.of_nat (length l))).
  rewrite (Z.min_l 0) by lia. now rewrite Z.sub_0_r.
Qed.

Lemma js_index_range len k : 0 <= len -> 0 <= js_index len k <= len.
Proof. unfold js_index. intros H. destruct (Z.ltb_spec k 0); lia. Qed.

(** X9: [getLargestFiles(count)] returns files of the file map ordered by
    decreasing size; for a non-negative [count] it returns
    [min(count, number of files)] of them, for a negative [count] all but
    the last [-count] of that order; every file it leaves out is no larger
    than every file it returns; together the returned and the left-out
    files are the values of the file map, which is not modified.  Without
    an argument [count] is 10. *)
Theorem getLargestFiles_returns_the_largest (sc : Scanner) (count : Z) :
  StronglySorted (fun a b => fsize b <= fsize a)
    (getLargestFiles sc (Some count))
  /\ Z.of_nat (length (getLargestFiles sc (Some count)))
     = (if count <? 0
        then Z.max (Z.of_nat (length (fileMap sc)) + count) 0
        else Z.min count (Z.of_nat (length (fileMap sc))))
  /\ (exists rest,
        Permutation (getLargestFiles sc (Some count) ++ rest)
          (JsMap.values (fileMap sc))
        /\ forall a b,
             In a (getLargestFiles sc (Some count)) -> In b rest ->
             fsize b <= fsize a)
  /\ getLargestFiles sc None = getLargestFiles sc (Some 10).
Proof.
  unfold getLargestFiles.
  set (sorted := Array_sort bySizeDescending (JsMap.values (fileMap sc))).
  assert (P : Permutation sorted (JsMap.values (fileMap sc)))
    by apply Array_sort_perm.
  assert (S : StronglySorted (ordered_by (fun a => - fsize a)) sorted).
  { apply (Array_sort_sorted (fun a => - fsize a) bySizeDescending).
    intros a b. unfold bySizeDescending. lia. }
  assert (Hlen : length sorted = length (fileMap sc)).
  { rewrite (Permutation_length P). unfold JsMap.values. apply length_map. }
  rewrite js_slice_prefix, Hlen.
  set (k := Z.to_nat (js_index (Z.of_nat (length (fileMap sc))) count)).
  rewrite <- (firstn_skipn k sorted) in S, P.
  apply StronglySorted_app_inv in S. destruct S as (S1 & _ & S12).
  split; [|split; [|split]].
  - eapply StronglySorted_weaken; [|exact S1]. unfold ordered_by.
    intros a b H; lia.
  - rewrite length_firstn, Hlen. subst k.
    pose proof (js_index_range (Z.of_nat (length (fileMap sc))) count
                  ltac:(lia)) as Hr.
    rewrite Nat2Z.inj_min, Z2Nat.id by lia.
    unfold js_index in *. destruct (Z.ltb_spec count 0); lia.
  - exists (skipn k sorted). split; [exact P|].
    intros a b Ha Hb. specialize (S12 a b Ha Hb). unfold ordered_by in S12.
    lia.
  - reflexivity.
Qed.

(** ** The duplicate index, the hash map and the file map agree *)

Lemma JsMap_set_In {V : Type} (m : JsMap.t V) k v g :
  In g (JsMap.set m k v) -> g = (k, v) \/ In g m.
Proof.
  induction m as [|[k' v'] m IH]; cbn [JsMap.set In].
  - intros [<-|[]]. now left.
  - destruct (String.eqb k' k); cbn [In].
    + intros [<-|H]; auto.
    + intros [<-|H]; auto. destruct (IH H); auto.
Qed.

Lemma JsMap_get_some_In {V : Type} (m : JsMap.t V) k v :
  JsMap.get m k = Some v -> In (k, v) m.
Proof.
  induction m as [|[k' v'] m IH]; cbn [JsMap.get In]; [discriminate|].
  destruct (String.eqb_spec k' k) as [->|Hne].
  - intros E. inversion E. now left.
  - intros E. right. now apply IH.
Qed.

Lemma JsMap_has_set {V : Type} (m : JsMap.t V) k v p :
  JsMap.has (JsMap.set m k v) p = true
  <-> k = p \/ JsMap.has m p = true.
Proof.
  unfold JsMap.has. destruct (string_dec k p) as [->|Hne].
  - rewrite JsMap_get_set_same. tauto.
  - rewrite JsMap_get_set_other by assumption.
    destruct (JsMap.get m p); split; auto. intros [E|E]; [congruence | exact E].
Qed.

Lemma indexed_paths_known_eq L :
  indexed_paths_known L <-> paths_known (this L) (running L).
Proof. reflexivity. Qed.

Lemma paths_known_jobs sc rs rs' :
  (forall r' j, In r' rs' -> In j (file_jobs (phase r')) ->
     awaited_path j = []
     \/ exists r, In r rs /\ In j (file_jobs (phase r))) ->
  paths_known sc rs -> paths_known sc rs'.
Proof.
  intros H (A & B & C). split; [exact A|]. split; [|exact C].
  intros r' j p Hr Hj Hp.
  destruct (H r' j Hr Hj) as [E|(r & Hr' & Hj')].
  - rewrite E in Hp. destruct Hp.
  - eapply B; eauto.
Qed.

Lemma batch_at_awaits_stats o fs i j :
  In j (file_jobs (batch_at o fs i)) -> awaited_path j = [].
Proof.
  unfold batch_at. destruct (i <? _); cbn [file_jobs]; [|intros []].
  intros Hj. apply in_map_iff in Hj. destruct Hj as (f & <- & _). reflexivity.
Qed.

Lemma paths_known_same sc sc' rs :
  fileMap sc' = fileMap sc -> hashMap sc' = hashMap sc ->
  duplicateFiles sc' = duplicateFiles sc ->
  paths_known sc rs -> paths_known sc' rs.
Proof.
  unfold paths_known, getFilesByHash. intros -> -> ->. auto.
Qed.

Lemma in_replace {A : Type} (pre post : list A) x y z :
  In z (pre ++ y :: post) -> z = y \/ In z (pre ++ x :: post).
Proof.
  rewrite !in_app_iff. cbn [In]. intros [H|[H|H]]; auto.
Qed.

Lemma paths_known_stat sc f pre r post fs i before after :
  phase r = Batches fs i (before ++ AwaitStat f :: after) ->
  paths_known sc (pre ++ r :: post) ->
  paths_known (fst (stat_settled sc f))
    (pre ++ {| task := task r;
               phase := Batches fs i
                          (before ++ after_job (snd (stat_settled sc f))
                                  ++ after) |} :: post).
Proof.
  intros Hph (A & B & C). unfold stat_settled.
  destruct (fstat f) as [st|] eqn:Ef; cbn [fst snd after_job app].
  - split; [|split].
    + intros g p Hg Hp. cbn [fileMap _addFileInfo with_stats duplicateFiles] in *.
      apply JsMap_has_set. right. eapply A; eauto.
    + intros r' j p Hr' Hj Hp. cbn [fileMap _addFileInfo with_stats].
      apply JsMap_has_set.
      apply (in_replace _ _ r) in Hr'. destruct Hr' as [->|Hr'].
      * cbn [phase file_jobs] in Hj.
        apply in_app_iff in Hj. destruct Hj as [Hj|Hj].
        -- right. apply (B r j p); [apply in_elt| |assumption].
           rewrite Hph. cbn [file_jobs]. apply in_app_iff. now left.
        -- apply in_app_iff in Hj. destruct Hj as [Hj|Hj].
           ++ left. destruct (enableHash (options sc)); [|destruct Hj].
              destruct Hj as [<-|[]]. cbn [awaited_path In] in Hp. tauto.
           ++ right. apply (B r j p); [apply in_elt| |assumption].
              rewrite Hph. cbn [file_jobs]. apply in_app_iff. right. now right.
      * right. eapply B; eauto.
    + exact C.
  - eapply paths_known_jobs; [|split; [exact A|split; [exact B|exact C]]].
    intros r' j Hr' Hj. right. apply (in_replace _ _ r) in Hr'.
    destruct Hr' as [->|Hr'].
    + exists r. split; [apply in_elt|]. rewrite Hph. cbn [phase file_jobs] in *.
      rewrite in_app_iff in *. cbn [In]. tauto.
    + eauto.
Qed.

Lemma paths_known_hash sc f n pre r post fs i before after :
  phase r = Batches fs i (before ++ AwaitHash f n :: after) ->
  paths_known sc (pre ++ r :: post) ->
  paths_known (_calculateFileHash sc f n)
    (pre ++ {| task := task r; phase := Batches fs i (before ++ after) |}
         :: post).
Proof.
  intros Hph HK.
  assert (HK' : paths_known sc
                  (pre ++ {| task := task r;
                             phase := Batches fs i (before ++ after) |}
                       :: post)).
  { eapply paths_known_jobs; [|exact HK].
    intros r' j Hr' Hj. right. apply (in_replace _ _ r) in Hr'.
    destruct Hr' as [->|Hr'].
    + exists r. split; [apply in_elt|]. rewrite Hph. cbn [phase file_jobs] in *.
      rewrite in_app_iff in *. cbn [In]. tauto.
    + eauto. }
  assert (Hf : JsMap.has (fileMap sc) (itemRelativePath f) = true).
  { destruct HK as (_ & B & _). apply (B r (AwaitHash f n)).
    - apply in_elt.
    - rewrite Hph. cbn [file_jobs]. apply in_elt.
    - now left. }
  unfold _calculateFileHash.
  destruct (awaited_digest (options sc) f n) as [h|] eqn:Ed.
  2:{ eapply paths_known_same; [| | |exact HK']; reflexivity. }
  destruct HK' as (A & B & C).
  set (sc1 := {| options := options sc; fileMap := fileMap sc;
                 filesByCreateTime := filesByCreateTime sc;
                 hashMap := JsMap.set (hashMap sc) (itemRelativePath f)
                              {| hash := h;
                                 method := if n <=? hashThreshold (options sc)
                                           then full else sampled |};
                 duplicateFiles := duplicateFiles sc;
                 totalFiles := totalFiles sc; totalSize := totalSize sc;
                 stats := _; console := console sc |}).
  split; [|split].
  - intros g p Hg Hp.
    change (fileMap (_checkDuplicateFiles sc1 (itemRelativePath f) h))
      with (fileMap sc).
    unfold _checkDuplicateFiles in Hg. cbn [duplicateFiles] in Hg.
    change (duplicateFiles sc1) with (duplicateFiles sc) in Hg.
    apply JsMap_set_In in Hg. destruct Hg as [->|Hg].
    + cbn [snd] in Hp. apply in_app_iff in Hp. destruct Hp as [Hp|Hp].
      * destruct (JsMap.has (duplicateFiles sc) h) eqn:Eh.
        -- destruct (JsMap.get (duplicateFiles sc) h) as [l|] eqn:Eg;
             [|destruct Hp].
           apply JsMap_get_some_In in Eg. eapply A; eauto.
        -- rewrite JsMap_get_set_same in Hp. destruct Hp.
      * destruct Hp as [<-|[]]. exact Hf.
    + destruct (JsMap.has (duplicateFiles sc) h); [eapply A; eauto|].
      apply JsMap_set_In in Hg. destruct Hg as [->|Hg];
        [destruct Hp | eapply A; eauto].
  - intros r' j p Hr' Hj Hp.
    change (fileMap (_checkDuplicateFiles sc1 (itemRelativePath f) h))
      with (fileMap sc). eapply B; eauto.
  - intros p r0 Hg. rewrite _checkDuplicateFiles_group.
    change (hashMap (_checkDuplicateFiles sc1 (itemRelativePath f) h))
      with (JsMap.set (hashMap sc) (itemRelativePath f)
              {| hash := h;
                 method := if n <=? hashThreshold (options sc)
                           then full else sampled |}) in Hg.
    change (getFilesByHash sc1 (hash r0)) with (getFilesByHash sc (hash r0)).
    destruct (string_dec (itemRelativePath f) p) as [<-|Hne].
    + rewrite JsMap_get_set_same in Hg. inversion Hg; subst r0.
      cbn [hash]. rewrite String.eqb_refl. split.
      * apply in_app_iff. right. now left.
      * eapply awaited_digest_format; eauto.
    + rewrite JsMap_get_set_other in Hg by assumption.
      destruct (C p r0 Hg) as [Hi Hl]. split; [|exact Hl].
      destruct (String.eqb h (hash r0)); [apply in_app_iff; now left|exact Hi].
Qed.

Lemma paths_known_turn L L' :
  indexed_paths_known L -> turn L L' -> indexed_paths_known L'.
Proof.
  rewrite !indexed_paths_known_eq. intros HK H. destruct H as
    [pre r post sc pushed ph Hr Hph E
    |pre r post fs i b j a sc j' Hr Hph E
    |pre r post fs i Hr Hph
    |pre r post Hr Hph]; rewrite Hr in HK.
  - cbn [resume this running].
    assert (Hsame : fileMap sc = fileMap (this L)
                    /\ hashMap sc = hashMap (this L)
                    /\ duplicateFiles sc = duplicateFiles (this L)
                    /\ forall j, In j (file_jobs ph) -> awaited_path j = []).
    { unfold readdir_settled in E.
      destruct (readdir (behind (task r))); inversion E; subst;
        repeat split; try (intros j []).
      apply batch_at_awaits_stats. }
    destruct Hsame as (E1 & E2 & E3 & E4).
    eapply paths_known_same; eauto.
    eapply paths_known_jobs; [|exact HK].
    intros r' j Hr' Hj. apply (in_replace _ _ r) in Hr'.
    destruct Hr' as [->|Hr']; [left; now apply E4 | right; eauto].
  - cbn [resume this running]. destruct j as [f|f n]; cbn [job_settled] in E.
    + pose proof (paths_known_stat _ f _ _ _ _ _ _ _ Hph HK) as H.
      rewrite E in H. exact H.
    + inversion E; subst. cbn [after_job app].
      eapply paths_known_hash; eauto.
  - cbn [resume this running].
    eapply paths_known_jobs; [|exact HK].
    intros r' j Hr' Hj. apply (in_replace _ _ r) in Hr'.
    destruct Hr' as [->|Hr']; [left | right; eauto].
    cbn [phase] in Hj. eapply batch_at_awaits_stats; eauto.
  - destruct (task_settled_keeps L (pre ++ post))
      as (E1 & E2 & E3 & _).
    eapply paths_known_same; eauto.
    eapply paths_known_jobs; [|exact HK].
    intros r' j Hr' Hj. unfold task_settled in Hr'. cbn [running] in Hr'.
    unfold processQueue in Hr'.
    destruct (processQueue_loop _ _ _ _ _) as [[[q a0] s] st] eqn:E.
    apply processQueue_loop_shape in E. destruct E as (adm & _ & -> & _).
    cbn [running] in Hr'. apply in_app_iff in Hr'. destruct Hr' as [Hr'|Hr'].
    + right. exists r'. split; [|assumption].
      rewrite in_app_iff in *. cbn [In]. tauto.
    + apply in_map_iff in Hr'. destruct Hr' as (t & <- & _). destruct Hj.
Qed.

Lemma paths_known_start sc rootDir root :
  indexed_paths_known (start (_resetStats sc) rootDir root).
Proof.
  unfold indexed_paths_known, start, processQueue.
  destruct (processQueue_loop _ _ _ _ _) as [[[q a0] s] st] eqn:E.
  apply processQueue_loop_shape in E. destruct E as (adm & _ & -> & _).
  cbn [this running with_stats _resetStats fileMap hashMap duplicateFiles app].
  split; [intros g p []|]. split.
  - intros r j p Hr Hj. apply in_map_iff in Hr. destruct Hr as (t & <- & _).
    destruct Hj.
  - intros p r. discriminate.
Qed.

Lemma paths_known_turns sc rootDir root L :
  turns (start (_resetStats sc) rootDir root) L -> indexed_paths_known L.
Proof.
  induction 1 as [|L' L'' _ IH T]; [apply paths_known_start|].
  eapply paths_known_turn; eauto.
Qed.

Lemma all_some_map {A B : Type} (f : A -> option B) (g : A -> B) l :
  (forall x, In x l -> f x = Some (g x)) ->
  all_some (map f l) = Some (map g l).
Proof.
  induction l as [|x l IH]; intros H; [reflexivity|].
  cbn [map all_some]. rewrite (H x (or_introl eq_refl)), IH; [reflexivity|].
  intros y Hy. apply H. now right.
Qed.

(** The entry [getAllDuplicateFiles] builds for a path of the file map. *)
Lemma duplicate_entry_known sc p :
  JsMap.has (fileMap sc) p = true ->
  exists info,
    JsMap.get (fileMap sc) p = Some info
    /\ duplicate_entry sc p = Some {| dpath := p; dsize := fsize info |}.
Proof.
  unfold JsMap.has, duplicate_entry.
  destruct (JsMap.get (fileMap sc) p) as [info|]; [|discriminate].
  intros _. exists info. auto.
Qed.

Lemma duplicate_paths_groups m :
  duplicate_paths m
  = total (fun g => Z.of_nat (length (snd g)))
      (filter (fun g => (1 <? length (snd g))%nat) m).
Proof.
  induction m as [|g m IH]; [reflexivity|].
  cbn [duplicate_paths fold_right filter]. fold (duplicate_paths m).
  rewrite IH. unfold group_weight.
  destruct (Nat.leb_spec 2 (length (snd g)));
    destruct (Nat.ltb_spec 1 (length (snd g))); try lia;
    rewrite ?total_cons; reflexivity.
Qed.

(** X10: at every moment of every scan [getAllDuplicateFiles] returns
    without throwing: every path of the duplicate index is a path of the
    file map.  It reports exactly the digests that have at least two
    paths, in the order of the duplicate index, each with its paths in
    the order of insertion and the size the file map records for each;
    the paths it reports are as many as [stats.duplicateCount]. *)
Theorem getAllDuplicateFiles_reports_the_groups
    (sc : Scanner) (rootDir : string) (root : Node) (L : Loop) :
  turns (start (_resetStats sc) rootDir root) L ->
  exists groups,
    getAllDuplicateFiles (this L) = Some groups
    /\ map (fun g => (dhash g, map dpath (dfiles g))) groups
       = duplicate_groups (this L)
    /\ Forall (fun g => (2 <= length (dfiles g))%nat) groups
    /\ total (fun g => Z.of_nat (length (dfiles g))) groups
       = duplicateCount (stats (this L))
    /\ (forall g e, In g groups -> In e (dfiles g) ->
          exists info,
            JsMap.get (fileMap (this L)) (dpath e) = Some info
            /\ dsize e = fsize info).
Proof.
  intros HT.
  assert (Hc : count_consistent (this L)).
  { induction HT as [|L' L'' _ IH T].
    - apply count_consistent_start.
    - eapply count_consistent_turn; eauto. }
  destruct (paths_known_turns _ _ _ _ HT) as (A & _ & _).
  set (entry := fun p =>
         {| dpath := p;
            dsize := match JsMap.get (fileMap (this L)) p with
                     | Some info => fsize info
                     | None => 0
                     end |}).
  set (group := fun g : string * list string =>
         {| dhash := fst g; dfiles := map entry (snd g) |}).
  assert (Hin : forall g, In g (duplicate_groups (this L)) ->
                In g (duplicateFiles (this L))).
  { intros g Hg. unfold duplicate_groups in Hg. apply filter_In in Hg. tauto. }
  assert (He : forall g, In g (duplicate_groups (this L)) ->
               all_some (map (duplicate_entry (this L)) (snd g))
               = Some (map entry (snd g))).
  { intros g Hg. apply all_some_map. intros p Hp.
    destruct (duplicate_entry_known (this L) p (A g p (Hin g Hg) Hp))
      as (info & E1 & E2).
    rewrite E2. unfold entry. now rewrite E1. }
  exists (map group (duplicate_groups (this L))).
  split; [|split; [|split; [|split]]].
  - unfold getAllDuplicateFiles. apply all_some_map.
    intros g Hg. now rewrite (He g Hg).
  - rewrite map_map. unfold group. cbn [dhash dfiles].
    rewrite <- (map_id (duplicate_groups (this L))) at 2.
    apply map_ext. intros [h files]. cbn [fst snd]. f_equal.
    rewrite map_map. unfold entry. cbn [dpath]. apply map_id.
  - apply Forall_forall. intros g Hg. apply in_map_iff in Hg.
    destruct Hg as (g0 & <- & Hg0). unfold group. cbn [dfiles].
    rewrite length_map. unfold duplicate_groups in Hg0.
    apply filter_In in Hg0. destruct Hg0 as [_ Hl].
    apply Nat.ltb_lt in Hl. lia.
  - rewrite total_map. unfold group. cbn [dfiles].
    rewrite (total_ext _ (fun g => Z.of_nat (length (snd g))))
      by (intros g; now rewrite length_map).
    unfold count_consistent in Hc. rewrite Hc, duplicate_paths_groups.
    reflexivity.
  - intros g e Hg Hi. apply in_map_iff in Hg.
    destruct Hg as (g0 & <- & Hg0). unfold group in Hi. cbn [dfiles] in Hi.
    apply in_map_iff in Hi. destruct Hi as (p & <- & Hp).
    destruct (duplicate_entry_known (this L) p (A g0 p (Hin g0 Hg0) Hp))
      as (info & E1 & _).
    exists info. unfold entry. cbn [dpath dsize]. rewrite E1. auto.
Qed.

Lemma getAllDuplicateFiles_reports_the_groups_witness :
  exists groups,
    getAllDuplicateFiles
      (this (run shuffled 40 0
               (start (_resetStats (new_scanner hashing_options)) "root"
                  twins)))
    = Some groups
    /\ map (fun g => (dhash g, map dpath (dfiles g))) groups
       = [("47bce5c74f589f4867dbd57e9ca9f808", ["a.txt"; "sub/a2.txt"])].
Proof.
  destruct (getAllDuplicateFiles_reports_the_groups
              (new_scanner hashing_options) "root" twins _
              (run_turns shuffled 40 0
                 (start (_resetStats (new_scanner hashing_options)) "root"
                    twins)))
    as (groups & H1 & H2 & _).
  exists groups. split; [exact H1|]. rewrite H2. vm_compute. reflexivity.
Defined.

(** X11: at every moment of every scan, a path for which [getFileHash]
    returns a record is listed by [getFilesByHash] under the digest of
    that record, is a path of the file map, and its digest has 32
    characters. *)
Theorem hashed_paths_are_indexed_under_their_digest
    (sc : Scanner) (rootDir : string) (root : Node) (L : Loop)
    (p : string) (r : HashRecord) :
  turns (start (_resetStats sc) rootDir root) L ->
  getFileHash (this L) p = Some r ->
  In p (getFilesByHash (this L) (hash r))
  /\ JsMap.has (fileMap (this L)) p = true
  /\ String.length (hash r) = 32%nat.
Proof.
  intros HT Hg. destruct (paths_known_turns _ _ _ _ HT) as (A & _ & C).
  destruct (C p r Hg) as [Hi Hl]. split; [exact Hi|]. split; [|exact Hl].
  unfold getFilesByHash in Hi.
  destruct (JsMap.get (duplicateFiles (this L)) (hash r)) as [files|] eqn:E;
    [|destruct Hi].
  apply JsMap_get_some_In in E. exact (A _ p E Hi).
Qed.

Lemma hashed_paths_are_indexed_under_their_digest_witness :
  In "a.txt"
    (getFilesByHash
       (this (run shuffled 40 0
                (start (_resetStats (new_scanner hashing_options)) "root"
                   twins)))
       "47bce5c74f589f4867dbd57e9ca9f808").
Proof.
  apply (hashed_paths_are_indexed_under_their_digest
           (new_scanner hashing_options) "root" twins
           (run shuffled 40 0
              (start (_resetStats (new_scanner hashing_options)) "root"
                 twins))
           "a.txt"
           {| hash := "47bce5c74f589f4867dbd57e9ca9f808"; method := full |}).
  - apply run_turns.
  - vm_compute. reflexivity.
Defined.

(** ** [calculateFastHash]: which changes it detects *)

Lemma fnv1a64_app a b seed :
  FastHash.fnv1a64 (a ++ b) seed
  = FastHash.fnv1a64 b (FastHash.fnv1a64 a seed).
Proof. apply fold_left_app. Qed.

Lemma fnv1a64_in_range buffer seed :
  0 <= seed < 2 ^ 64 -> 0 <= FastHash.fnv1a64 buffer seed < 2 ^ 64.
Proof.
  intros Hs. destruct buffer as [|b buffer]; [exact Hs|].
  apply fnv1a64_range. discriminate.
Qed.

Lemma fnv_step_byte_injective x b c :
  0 <= x < 2 ^ 64 -> FastHash.fnv_step x b = FastHash.fnv_step x c -> b = c.
Proof.
  intros Hx. unfold FastHash.fnv_step, FastHash.asUintN64.
  pose proof (byte_to_Z_range b) as Hb. pose proof (byte_to_Z_range c) as Hc.
  pose proof (lxor_byte_below x _ Hx Hb).
  pose proof (lxor_byte_below x _ Hx Hc).
  destruct (lxor_byte_delta x _ ltac:(lia) Hb) as [_ Hu].
  destruct (lxor_byte_delta x _ ltac:(lia) Hc) as [_ Hv].
  set (u := Z.lxor x (byte_to_Z b)) in *.
  set (v := Z.lxor x (byte_to_Z c)) in *.
  intros Heq.
  pose proof (Z.div_mod (u * FastHash.FNV_PRIME) (2 ^ 64) ltac:(lia)).
  pose proof (Z.div_mod (v * FastHash.FNV_PRIME) (2 ^ 64) ltac:(lia)).
  destruct (prime_cancel (u - v)
              (u * FastHash.FNV_PRIME / 2 ^ 64
               - v * FastHash.FNV_PRIME / 2 ^ 64) ltac:(lia))
    as (k & Hk).
  assert (k = 0) by lia.
  assert (Huv : u = v) by lia. subst u v.
  apply lxor_byte_inj in Huv. now apply byte_to_Z_inj.
Qed.

Lemma fnv1a64_seed_injective buffer : forall x y,
  0 <= x < 2 ^ 64 -> 0 <= y < 2 ^ 64 ->
  FastHash.fnv1a64 buffer x = FastHash.fnv1a64 buffer y -> x = y.
Proof.
  induction buffer as [|b buffer IH]; intros x y Hx Hy H; [exact H|].
  cbn [FastHash.fnv1a64 fold_left] in H.
  apply IH in H; try apply fnv_step_range.
  eapply fnv_step_injective; eauto.
Qed.

(** FNV-1a never maps two buffers that differ in exactly one byte to the
    same value. *)
Lemma fnv1a64_one_byte x y seed :
  0 <= seed < 2 ^ 64 -> one_byte_apart x y ->
  FastHash.fnv1a64 x seed <> FastHash.fnv1a64 y seed.
Proof.
  intros Hs (pre & post & b1 & b2 & Hne & -> & ->) H.
  rewrite !fnv1a64_app in H. cbn [FastHash.fnv1a64 fold_left] in H.
  fold (FastHash.fnv1a64 pre seed) in H.
  apply fnv1a64_seed_injective in H; try apply fnv_step_range.
  apply fnv_step_byte_injective in H; [contradiction|].
  now apply fnv1a64_in_range.
Qed.

Lemma one_byte_apart_app_l z x y :
  one_byte_apart x y -> one_byte_apart (z ++ x) (z ++ y).
Proof.
  intros (pre & post & b1 & b2 & Hne & -> & ->).
  exists (z ++ pre), post, b1, b2. now rewrite !app_assoc.
Qed.

Lemma one_byte_apart_app_r z x y :
  one_byte_apart x y -> one_byte_apart (x ++ z) (y ++ z).
Proof.
  intros (pre & post & b1 & b2 & Hne & -> & ->).
  exists pre, (post ++ z), b1, b2. now rewrite <- !app_assoc.
Qed.

(** A window of a buffer in which one byte is replaced. *)
Lemma window_inside {A : Type} (pre post : list A) b s l :
  (s <= length pre < s + l)%nat ->
  firstn l (skipn s (pre ++ b :: post))
  = skipn s pre ++ b :: firstn (l - (length pre - s) - 1) post.
Proof.
  intros H. rewrite skipn_app.
  replace (s - length pre)%nat with 0%nat by lia. cbn [skipn].
  rewrite firstn_app, length_skipn.
  rewrite firstn_all2 by (rewrite length_skipn; lia).
  destruct (l - (length pre - s))%nat as [|k] eqn:E; [lia|].
  cbn [firstn]. now rewrite Nat.sub_1_r.
Qed.

Lemma window_outside {A : Type} (pre post : list A) b1 b2 s l :
  ~ (s <= length pre < s + l)%nat ->
  firstn l (skipn s (pre ++ b1 :: post))
  = firstn l (skipn s (pre ++ b2 :: post)).
Proof.
  intros H. rewrite !skipn_app.
  destruct (Nat.le_gt_cases s (length pre)) as [Hle|Hgt].
  - replace (s - length pre)%nat with 0%nat by lia. cbn [skipn].
    rewrite !firstn_app, length_skipn.
    replace (l - (length pre - s))%nat with 0%nat by lia. reflexivity.
  - replace (s - length pre)%nat with (S (s - length pre - 1)) by lia.
    reflexivity.
Qed.

Lemma slice_inside pre post b1 b2 start len :
  b1 <> b2 -> 0 <= start -> 0 <= len ->
  start <= Z.of_nat (length pre) < start + len ->
  one_byte_apart (slice (pre ++ b1 :: post) start len)
    (slice (pre ++ b2 :: post) start len).
Proof.
  intros Hne Hs Hl H. unfold slice.
  rewrite !window_inside by lia. repeat eexists. exact Hne.
Qed.

Lemma slice_outside pre post b1 b2 start len :
  0 <= start -> 0 <= len ->
  ~ (start <= Z.of_nat (length pre) < start + len) ->
  slice (pre ++ b1 :: post) start len = slice (pre ++ b2 :: post) start len.
Proof.
  intros Hs Hl H. unfold slice. apply window_outside. lia.
Qed.

Lemma slice_length_same pre post (b1 b2 : byte) start len :
  length (slice (pre ++ b1 :: post) start len)
  = length (slice (pre ++ b2 :: post) start len).
Proof.
  unfold slice. rewrite !length_firstn, !length_skipn, !length_app.
  reflexivity.
Qed.

Lemma read_block_inside pre post b1 b2 position :
  b1 <> b2 -> 0 <= position ->
  position <= Z.of_nat (length pre) < position + FastHash.BLOCK_SIZE ->
  one_byte_apart (FastHash.read_block (pre ++ b1 :: post) position)
    (FastHash.read_block (pre ++ b2 :: post) position).
Proof.
  intros Hne Hp H. unfold FastHash.read_block. cbv zeta.
  rewrite (slice_length_same pre post b1 b2).
  apply one_byte_apart_app_r. apply slice_inside; try assumption.
  unfold FastHash.BLOCK_SIZE. lia.
Qed.

Lemma read_block_outside pre post b1 b2 position :
  0 <= position ->
  ~ (position <= Z.of_nat (length pre) < position + FastHash.BLOCK_SIZE) ->
  FastHash.read_block (pre ++ b1 :: post) position
  = FastHash.read_block (pre ++ b2 :: post) position.
Proof.
  intros Hp H. unfold FastHash.read_block. cbv zeta.
  rewrite (slice_length_same pre post b1 b2).
  rewrite (slice_outside pre post b1 b2); [reflexivity|assumption| |assumption].
  unfold FastHash.BLOCK_SIZE. lia.
Qed.

Lemma sample_one_byte pre post b1 b2 :
  b1 <> b2 ->
  if sampled_offset (Z.of_nat (length (pre ++ b1 :: post)))
       (Z.of_nat (length pre))
  then one_byte_apart (FastHash.sample (pre ++ b1 :: post))
         (FastHash.sample (pre ++ b2 :: post))
  else FastHash.sample (pre ++ b1 :: post)
       = FastHash.sample (pre ++ b2 :: post).
Proof.
  intros Hne. unfold sampled_offset, FastHash.sample. cbv zeta.
  assert (El : length (pre ++ b2 :: post) = length (pre ++ b1 :: post))
    by (rewrite !length_app; reflexivity).
  rewrite El.
  set (n := Z.of_nat (length (pre ++ b1 :: post))).
  assert (Hi : 0 <= Z.of_nat (length pre) < n).
  { unfold n. rewrite length_app. cbn [length]. lia. }
  destruct (n <? FastHash.THRESHOLD) eqn:E.
  - apply slice_inside; try assumption; lia.
  - apply Z.ltb_ge in E. unfold FastHash.THRESHOLD, FastHash.BLOCK_SIZE in *.
    change (2 * 1024 / 2) with 1024.
    set (i := Z.of_nat (length pre)) in *.
    assert (Hm : 4096 <= n / 2 - 1024).
    { pose proof (Z.div_le_mono (10 * 1024) n 2 ltac:(lia) E) as H.
      change (10 * 1024 / 2) with 5120 in H. lia. }
    assert (Hm' : n / 2 - 1024 + 2 * 1024 < n - 2 * 1024).
    { pose proof (Z.mul_div_le n 2 ltac:(lia)). lia. }
    assert (O : forall position,
              0 <= position ->
              ~ (position <= i < position + 2 * 1024) ->
              FastHash.read_block (pre ++ b1 :: post) position
              = FastHash.read_block (pre ++ b2 :: post) position).
    { intros position Hp Hn. apply read_block_outside; [assumption|].
      unfold FastHash.BLOCK_SIZE. fold i. exact Hn. }
    assert (I : forall position,
              0 <= position -> position <= i < position + 2 * 1024 ->
              one_byte_apart (FastHash.read_block (pre ++ b1 :: post) position)
                (FastHash.read_block (pre ++ b2 :: post) position)).
    { intros position Hp Hn. apply read_block_inside; assumption. }
    clearbody n i. clear El.
    destruct (Z.ltb_spec i (2 * 1024)) as [H1|H1]; cbn [orb].
    { rewrite (O (n / 2 - 1024)), (O (n - 2 * 1024)) by lia.
      apply one_byte_apart_app_r, I; lia. }
    rewrite (O 0) by lia.
    destruct (Z.leb_spec (n / 2 - 1024) i) as [H2|H2];
      destruct (Z.ltb_spec i (n / 2 - 1024 + 2 * 1024)) as [H3|H3];
      cbn [andb orb].
    + rewrite (O (n - 2 * 1024)) by lia.
      apply one_byte_apart_app_l, one_byte_apart_app_r, I; lia.
    + rewrite (O (n / 2 - 1024)) by lia.
      destruct (Z.leb_spec (n - 2 * 1024) i) as [H4|H4].
      * apply one_byte_apart_app_l, one_byte_apart_app_l, I; lia.
      * rewrite (O (n - 2 * 1024)) by lia. reflexivity.
    + rewrite (O (n / 2 - 1024)) by lia.
      destruct (Z.leb_spec (n - 2 * 1024) i) as [H4|H4]; [lia|].
      rewrite (O (n - 2 * 1024)) by lia. reflexivity.
    + lia.
Qed.

Lemma Some_injective {A : Type} (a b : A) : Some a = Some b -> a = b.
Proof. congruence. Qed.

Lemma basis_in_range : 0 <= FastHash.FNV_OFFSET_BASIS < 2 ^ 64.
Proof. unfold FastHash.FNV_OFFSET_BASIS. lia. Qed.

Lemma calculateFastHash_defined (content : Buffer) :
  Z.of_nat (length content) < 2 ^ 64 ->
  FastHash.calculateFastHash (Some content)
  = Some (FastHash.render
            (FastHash.hashVal (FastHash.sample content)
               (Z.of_nat (length content)))).
Proof.
  intros H. unfold FastHash.calculateFastHash. cbv zeta.
  apply Z.ltb_lt in H. now rewrite H.
Qed.

Lemma calculateFastHash_same_sample (content1 content2 : Buffer) :
  FastHash.sample content1 = FastHash.sample content2 ->
  length content1 = length content2 ->
  FastHash.calculateFastHash (Some content1)
  = FastHash.calculateFastHash (Some content2).
Proof.
  intros Hs Hl. unfold FastHash.calculateFastHash. cbv zeta.
  now rewrite Hs, Hl.
Qed.

Lemma hashVal_eq (s : Buffer) (n : Z) :
  FastHash.hashVal s n
  = FastHash.fnv1a64 (le_bytes 8 n)
      (FastHash.fnv1a64 s FastHash.FNV_OFFSET_BASIS).
Proof. unfold FastHash.hashVal. reflexivity. Qed.

Lemma digest_one_byte (s1 s2 : Buffer) (n : Z) :
  one_byte_apart s1 s2 ->
  FastHash.render (FastHash.hashVal s1 n)
  <> FastHash.render (FastHash.hashVal s2 n).
Proof.
  intros Ha E.
  apply render_injective in E; try apply hashVal_range.
  rewrite !hashVal_eq in E.
  exact (fnv1a64_one_byte s1 s2 FastHash.FNV_OFFSET_BASIS basis_in_range Ha
           (fnv1a64_seed_injective (le_bytes 8 n)
              (FastHash.fnv1a64 s1 FastHash.FNV_OFFSET_BASIS)
              (FastHash.fnv1a64 s2 FastHash.FNV_OFFSET_BASIS)
              (fnv1a64_seed_range s1) (fnv1a64_seed_range s2) E)).
Qed.

Lemma calculateFastHash_one_byte (content1 content2 : Buffer) :
  one_byte_apart (FastHash.sample content1) (FastHash.sample content2) ->
  length content1 = length content2 ->
  Z.of_nat (length content1) < 2 ^ 64 ->
  FastHash.calculateFastHash (Some content1)
  <> FastHash.calculateFastHash (Some content2).
Proof.
  intros Ha Hl Hlen E.
  pose proof (calculateFastHash_defined content1 Hlen) as E1.
  assert (Hlen2 : Z.of_nat (length content2) < 2 ^ 64)
    by (rewrite <- Hl; exact Hlen).
  pose proof (calculateFastHash_defined content2 Hlen2) as E2.
  rewrite <- Hl in E2.
  assert (E3 : Some (FastHash.render
                       (FastHash.hashVal (FastHash.sample content1)
                          (Z.of_nat (length content1))))
               = Some (FastHash.render
                         (FastHash.hashVal (FastHash.sample content2)
                            (Z.of_nat (length content1)))))
    by (rewrite <- E1, <- E2; exact E).
  exact (digest_one_byte _ _ _ Ha (Some_injective _ _ E3)).
Qed.

(** X13: for two files of the same length below [2^64] that differ in
    exactly one byte, [calculateFastHash] returns the same digest if and
    only if the offset of that byte is not one it reads: a change of one
    byte is always detected in a file below the threshold, and in a larger
    file exactly when it lies in the head, middle or tail block. *)
Theorem calculateFastHash_detects_a_changed_byte_iff_sampled
    (pre post : Buffer) (b1 b2 : byte) :
  b1 <> b2 ->
  Z.of_nat (length (pre ++ b1 :: post)) < 2 ^ 64 ->
  (FastHash.calculateFastHash (Some (pre ++ b1 :: post))
   = FastHash.calculateFastHash (Some (pre ++ b2 :: post))
   <-> sampled_offset (Z.of_nat (length (pre ++ b1 :: post)))
         (Z.of_nat (length pre)) = false).
Proof.
  intros Hne Hlen.
  assert (El : length (pre ++ b1 :: post) = length (pre ++ b2 :: post))
    by (rewrite !length_app; reflexivity).
  pose proof (sample_one_byte pre post b1 b2 Hne) as H.
  set (sampled := sampled_offset (Z.of_nat (length (pre ++ b1 :: post)))
                    (Z.of_nat (length pre))) in *.
  clearbody sampled. destruct sampled.
  - split; [|discriminate]. intros E. exfalso. revert E.
    now apply calculateFastHash_one_byte.
  - split; [reflexivity|]. intros _.
    now apply calculateFastHash_same_sample.
Qed.

Lemma calculateFastHash_detects_a_changed_byte_iff_sampled_witness :
  FastHash.calculateFastHash (Some ([] ++ "a"%byte :: ["c"%byte]))
  = FastHash.calculateFastHash (Some ([] ++ "b"%byte :: ["c"%byte]))
  <-> sampled_offset 2 0 = false.
Proof.
  apply (calculateFastHash_detects_a_changed_byte_iff_sampled
           [] ["c"%byte] "a"%byte "b"%byte).
  - discriminate.
  - vm_compute. reflexivity.
Defined.

(** X12: two files whose sampled bytes are the same and whose sizes
    differ, both below [2^48] bytes, never get the same digest from
    [calculateFastHash]: the pass over the eight bytes of the size
    separates them. *)
Theorem calculateFastHash_size_mixing_separates_sizes
    (content1 content2 : Buffer) :
  FastHash.sample content1 = FastHash.sample content2 ->
  length content1 <> length content2 ->
  Z.of_nat (length content1) < 2 ^ 48 ->
  Z.of_nat (length content2) < 2 ^ 48 ->
  FastHash.calculateFastHash (Some content1)
  <> FastHash.calculateFastHash (Some content2).
Proof.
  intros Hs Hl H1 H2 E.
  destruct (FastHash.calculateFastHash (Some content1)) as [d|] eqn:E1.
  2:{ rewrite calculateFastHash_defined in E1 by lia. discriminate E1. }
  symmetry in E.
  exact (calculateFastHash_separates_sizes content1 content2 d d
           Hs Hl H1 H2 E1 E eq_refl).
Qed.

Lemma calculateFastHash_size_mixing_separates_sizes_witness :
  FastHash.calculateFastHash (Some (Buffer_alloc 10240))
  <> FastHash.calculateFastHash (Some (Buffer_alloc 10241)).
Proof.
  apply (calculateFastHash_size_mixing_separates_sizes
           (Buffer_alloc 10240) (Buffer_alloc 10241)).
  - vm_compute. reflexivity.
  - intros H. apply (f_equal Z.of_nat) in H. vm_compute in H. discriminate H.
  - vm_compute. reflexivity.
  - vm_compute. reflexivity.
Defined.

(** ** The hash engine of the scanner: when it fails, what it misses *)

Lemma createReadStream_some content start len :
  createReadStream (Some content) start len
  = if (0 <=? start) && (1 <=? len) then Some (slice content start len)
    else None.
Proof.
  unfold createReadStream. cbn [option_map].
  destruct (Z.leb_spec 0 start); destruct (Z.leb_spec start (start + len - 1));
    destruct (Z.leb_spec 1 len); cbn [andb]; try reflexivity; lia.
Qed.

Lemma createReadStream_none start len : createReadStream None start len = None.
Proof. unfold createReadStream. destruct (_ && _); reflexivity. Qed.

Lemma _calculateSampledHash_fails ss content arrival fileSize :
  1 <= fileSize ->
  (_calculateSampledHash ss content arrival fileSize = None
   <-> content = None \/ ss < 1 \/ fileSize / 2 < ss / 2).
Proof.
  intros Hs. unfold _calculateSampledHash, positions, window.
  cbn [map fst snd].
  destruct (Z.geb_spec 0 fileSize) as [H0|H0]; [lia|].
  destruct content as [c|].
  2:{ rewrite createReadStream_none. split; auto. }
  rewrite !createReadStream_some.
  split.
  - intros H. right.
    destruct (Z.lt_ge_cases ss 1) as [|H1]; [now left|]. right.
    destruct (Z.lt_ge_cases (fileSize / 2) (ss / 2)) as [|H2]; [assumption|].
    exfalso. revert H.
    assert (Hd : 0 <= fileSize / 2 < fileSize).
    { split; [apply Z.div_pos; lia | apply Z.div_lt; lia]. }
    destruct (Z.leb_spec 0 0); [|lia].
    destruct (Z.leb_spec 1 (Z.min ss fileSize)); [|lia]. cbn [andb].
    destruct (Z.geb_spec (fileSize / 2 - ss / 2) fileSize);
      destruct (Z.geb_spec (Z.max 0 (fileSize - ss)) fileSize); try lia;
      repeat match goal with
             | |- context [?a <=? ?b] => destruct (Z.leb_spec a b); try lia
             end; cbn [andb]; discriminate.
  - intros [H|[H|H]]; [discriminate| |].
    + destruct (Z.leb_spec 1 (Z.min ss fileSize)); [lia|].
      rewrite andb_false_r. reflexivity.
    + destruct ((0 <=? 0) && (1 <=? Z.min ss fileSize)); [|reflexivity].
      assert (Hd : 0 <= fileSize / 2 < fileSize).
      { split; [apply Z.div_pos; lia | apply Z.div_lt; lia]. }
      destruct (Z.geb_spec (fileSize / 2 - ss / 2) fileSize); [lia|].
      destruct (Z.leb_spec 0 (fileSize / 2 - ss / 2)); [lia|].
      cbn [andb]. reflexivity.
Qed.

(** X14: the digest [_calculateFileHash] awaits for a file of at least one
    byte fails exactly when the file cannot be
    read or, for a file above [hashThreshold], when [hashSampleSize] is
    below 1 or half the file size (rounded down) is below half the sample
    size (rounded down): the middle window then starts before the
    beginning of the file and [createReadStream] throws.  Under options
    with [1 <= hashSampleSize <= hashThreshold + 1], the defaults among
    them, only an unreadable file fails. *)
Theorem digest_fails_exactly_when
    (o : Options) (f : FileStat) (fileSize : Z) :
  1 <= fileSize ->
  (awaited_digest o f fileSize = None
   <-> fcontent f = None
       \/ (hashThreshold o < fileSize
           /\ (hashSampleSize o < 1
               \/ fileSize / 2 < hashSampleSize o / 2)))
  /\ (1 <= hashSampleSize o <= hashThreshold o + 1 ->
      (awaited_digest o f fileSize = None <-> fcontent f = None)).
Proof.
  intros Hs.
  assert (H : awaited_digest o f fileSize = None
              <-> fcontent f = None
                  \/ (hashThreshold o < fileSize
                      /\ (hashSampleSize o < 1
                          \/ fileSize / 2 < hashSampleSize o / 2))).
  { unfold awaited_digest.
    destruct (Z.leb_spec fileSize (hashThreshold o)) as [Ht|Ht].
    - unfold _calculateFullHash. destruct (fcontent f); cbn [option_map].
      + split; [discriminate|]. intros [H|[H _]]; [discriminate | lia].
      + split; auto.
    - rewrite (_calculateSampledHash_fails _ _ _ _ Hs). tauto. }
  split; [exact H|]. intros Hss. rewrite H. split; [|auto].
  intros [Hn|(Ht & [Hlt|Hlt])]; [assumption|lia|].
  exfalso.
  pose proof (Z.div_le_mono (hashSampleSize o) fileSize 2 ltac:(lia)
                ltac:(lia)). lia.
Qed.

Lemma digest_fails_exactly_when_witness :
  awaited_digest small_threshold_options
    (readable "short.bin" (repeat "x"%byte 100)) 100 = None.
Proof.
  apply (proj1 (digest_fails_exactly_when small_threshold_options
                  (readable "short.bin" (repeat "x"%byte 100)) 100
                  ltac:(lia))).
  right. split; [vm_compute; reflexivity|]. right. vm_compute. reflexivity.
Defined.




(** ** [calculateFastHash] against its description *)

Lemma read_block_full content position :
  0 <= position ->
  position + FastHash.BLOCK_SIZE <= Z.of_nat (length content) ->
  FastHash.read_block content position
  = firstn 2048 (skipn (Z.to_nat position) content).
Proof.
  intros Hp Hl. unfold FastHash.read_block, slice, FastHash.BLOCK_SIZE in *.
  cbv zeta. change (Z.to_nat (2 * 1024)) with 2048%nat.
  rewrite length_firstn, length_skipn.
  replace (2 * 1024 - Z.of_nat (Nat.min 2048 (length content - Z.to_nat position)))
    with 0 by lia.
  unfold Buffer_alloc. cbn [Z.to_nat repeat]. apply app_nil_r.
Qed.

Lemma sample_described content :
  FastHash.sample content = described_bytes content.
Proof.
  unfold FastHash.sample, described_bytes. cbv zeta.
  set (n := Z.of_nat (length content)).
  destruct (Z.ltb_spec n FastHash.THRESHOLD) as [H|H].
  - unfold slice. cbn [Z.to_nat skipn]. apply firstn_all2. lia.
  - unfold FastHash.THRESHOLD in H.
    assert (Hm : 4096 <= n / 2 - 1024 /\ n / 2 - 1024 + 2048 <= n).
    { pose proof (Z.div_le_mono (10 * 1024) n 2 ltac:(lia) H) as H1.
      change (10 * 1024 / 2) with 5120 in H1.
      pose proof (Z.mul_div_le n 2 ltac:(lia)). lia. }
    change (FastHash.BLOCK_SIZE / 2) with 1024.
    rewrite !read_block_full by (unfold FastHash.BLOCK_SIZE; fold n; lia).
    change (FastHash.BLOCK_SIZE) with 2048.
    cbn [Z.to_nat skipn]. f_equal. f_equal.
    apply firstn_all2. rewrite length_skipn. lia.
Qed.

(** X16: [calculateFastHash] computes what its description says: for
    every file below [2^64] bytes the digest is FNV-1a 64, started from the
    offset basis, of the whole file (below the threshold) or of its first,
    middle and last 2 KiB (from the threshold on: 6144 bytes, every read
    is complete and no byte of padding enters), followed by the size as
    eight little-endian bytes; the two passes of the code are one pass
    over the concatenation. *)
Theorem calculateFastHash_is_the_described_digest (content : Buffer) :
  Z.of_nat (length content) < 2 ^ 64 ->
  FastHash.calculateFastHash (Some content) = Some (described_digest content)
  /\ Z.of_nat (length (described_bytes content))
     = (if Z.of_nat (length content) <? FastHash.THRESHOLD
        then Z.of_nat (length content) else 6144).
Proof.
  intros Hlen. split.
  - rewrite (calculateFastHash_defined content Hlen).
    unfold described_digest. rewrite hashVal_eq, fnv1a64_app.
    now rewrite sample_described.
  - unfold described_bytes. cbv zeta.
    set (n := Z.of_nat (length content)).
    destruct (Z.ltb_spec n FastHash.THRESHOLD) as [H|H]; [reflexivity|].
    unfold FastHash.THRESHOLD in H.
    assert (Hm : 4096 <= n / 2 - 1024 /\ n / 2 - 1024 + 2048 <= n).
    { pose proof (Z.div_le_mono (10 * 1024) n 2 ltac:(lia) H) as H1.
      change (10 * 1024 / 2) with 5120 in H1.
      pose proof (Z.mul_div_le n 2 ltac:(lia)). lia. }
    rewrite !length_app, !length_firstn, !length_skipn.
    subst n. lia.
Qed.

Lemma calculateFastHash_is_the_described_digest_witness :
  FastHash.calculateFastHash (Some (ascii_bytes "abc"))
  = Some (described_digest (ascii_bytes "abc")).
Proof.
  apply (calculateFastHash_is_the_described_digest (ascii_bytes "abc")).
  vm_compute. reflexivity.
Defined.

(** ** Directories found by the root wait for the root to finish *)

Lemma singleton_split {A : Type} (pre post : list A) (r x : A) :
  [x] = pre ++ r :: post -> pre = [] /\ r = x /\ post = [].
Proof.
  destruct pre as [|a pre]; simpl; intros H.
  - now inversion H.
  - inversion H as [[H1 H2]]. now destruct pre.
Qed.

Lemma batch_at_not_Readdir o fileStats i :
  batch_at o fileStats i <> Readdir.
Proof. unfold batch_at. destruct (i <? _); discriminate. Qed.

Lemma root_alone_start sc rootDir root :
  1 <= maxConcurrency (options sc) ->
  root_alone rootDir root (start (_resetStats sc) rootDir root).
Proof.
  intros Hm. exists Readdir.
  unfold start, processQueue.
  cbn [this queue activePromises running processQueue_loop].
  replace (0 <? maxConcurrency (options (_resetStats sc))) with true
    by (symmetry; apply Z.ltb_lt; exact (Z.lt_le_trans 0 1 _ eq_refl Hm)).
  cbn [this queue activePromises running app stats with_stats counted
       maxConcurrent _resetStats].
  repeat split. left. split; reflexivity.
Qed.

Lemma root_alone_step rootDir root c L :
  root_alone rootDir root L ->
  event c L <> TaskSettled ->
  root_alone rootDir root (step c L).
Proof.
  intros (ph & Hr & Ha & Hmax & Hq) He.
  destruct (step_cases c L) as
    [(Hr' & _ & _)
    |(pre & r & post & Hr' &
      [(Hph & _ & ->)
      |[(fs & i & before & j & after & Hph & _ & ->)
       |[(fs & i & Hph & _ & ->)
        |(Hph & E & _)]]])];
    [rewrite Hr in Hr'; discriminate| | | |exact (False_ind _ (He E))].
  - rewrite Hr in Hr'. apply singleton_split in Hr' as (-> & -> & ->).
    cbn [task phase] in *. subst ph.
    destruct Hq as [[_ Hq]|[Hq _]]; [|contradiction].
    unfold root_alone, readdir_settled, root_subdirectories.
    cbn [behind root_task].
    destruct (readdir root) as [items|]; cbn [fst snd].
    + eexists. unfold resume.
      cbn [running activePromises this queue app].
      repeat split; [exact Ha|exact Hmax|].
      right. split; [apply batch_at_not_Readdir|now rewrite Hq].
    + eexists. unfold resume.
      cbn [running activePromises this queue app].
      repeat split; [exact Ha|exact Hmax|].
      right. split; [discriminate|now rewrite Hq].
  - rewrite Hr in Hr'. apply singleton_split in Hr' as (-> & -> & ->).
    cbn [task phase] in *. subst ph.
    destruct Hq as [[Hq _]|[_ Hq]]; [discriminate|].
    eexists. unfold resume. cbn [running activePromises this queue app].
    repeat split; [exact Ha| |right; split; [discriminate|exact Hq]].
    destruct (job_settled (this L) j) as [sc' j'] eqn:Ej. cbn [fst].
    now rewrite (stats_job_settled_maxConcurrent _ _ _ _ Ej).
  - rewrite Hr in Hr'. apply singleton_split in Hr' as (-> & -> & ->).
    cbn [task phase] in *. subst ph.
    destruct Hq as [[Hq _]|[_ Hq]]; [discriminate|].
    eexists. unfold resume. cbn [running activePromises this queue app].
    repeat split; [exact Ha|exact Hmax|].
    right. split; [apply batch_at_not_Readdir|exact Hq].
Qed.

Lemma root_alone_run rootDir root sched fuel : forall k L,
  root_alone rootDir root L ->
  ~ In TaskSettled (events sched fuel k L) ->
  root_alone rootDir root (run sched fuel k L).
Proof.
  induction fuel as [|fuel IH]; intros k L HL He; [exact HL|].
  cbn [run]. cbn [events] in He. apply IH.
  - apply root_alone_step; [exact HL|].
    intros E. apply He. left. exact E.
  - intros H. apply He. right. exact H.
Qed.

(** X17: the directories a task finds are queued but [processQueue] is
    only called when a task completes.  So as long as no task has
    completed, that is until the root directory's own files have all been
    stat-ed and hashed, the root task is the only one running, whatever
    [maxConcurrency] is: one promise is active, the recorded peak is 1, and
    once the listing has arrived all the subdirectories of the root wait
    in the queue. *)
Theorem subdirectories_wait_for_the_root_task (sched : Schedule)
    (fuel : nat) (sc : Scanner) (rootDir : string) (root : Node) :
  1 <= maxConcurrency (options sc) ->
  ~ In TaskSettled
       (events sched fuel 0 (start (_resetStats sc) rootDir root)) ->
  let L := run sched fuel 0 (start (_resetStats sc) rootDir root) in
  map task (running L) = [root_task rootDir root]
  /\ activePromises L = 1
  /\ maxConcurrent (stats (this L)) = 1
  /\ ((map phase (running L) = [Readdir] /\ queue L = [])
      \/ (~ In Readdir (map phase (running L))
          /\ queue L = root_subdirectories rootDir root)).
Proof.
  intros Hm He L.
  destruct (root_alone_run rootDir root sched fuel 0 _
              (root_alone_start sc rootDir root Hm) He)
    as (ph & Hr & Ha & Hmax & Hq).
  fold L in Hr, Ha, Hmax, Hq. rewrite Hr. cbn [map task phase].
  repeat split; [exact Ha|exact Hmax|].
  destruct Hq as [[-> Hq]|[Hph Hq]]; [left; now split|right].
  split; [|exact Hq]. intros [H|[]]. now apply Hph.
Qed.

Lemma subdirectories_wait_for_the_root_task_witness :
  map task
    (running
       (run shuffled 3 0
          (start (_resetStats (new_scanner default_options)) "root"
             mixed_tree)))
  = [root_task "root" mixed_tree]
  /\ queue
       (run shuffled 3 0
          (start (_resetStats (new_scanner default_options)) "root"
             mixed_tree))
     = root_subdirectories "root" mixed_tree
  /\ root_subdirectories "root" mixed_tree <> [].
Proof.
  set (L := run shuffled 3 0
              (start (_resetStats (new_scanner default_options)) "root"
                 mixed_tree)).
  destruct (subdirectories_wait_for_the_root_task shuffled 3
              (new_scanner default_options) "root" mixed_tree)
    as (Hr & Ha & _ & Hq).
  - vm_compute. discriminate.
  - intros H. vm_compute in H.
    repeat (destruct H as [H|H]; [discriminate H|]). exact H.
  - fold L in Hr, Ha, Hq.
    assert (Hne : root_subdirectories "root" mixed_tree <> [])
      by (vm_compute; discriminate).
    assert (Hp : map phase (running L) <> [Readdir])
      by (vm_compute; discriminate).
    destruct Hq as [[Hq _]|[_ Hq]]; [contradiction|].
    repeat split; assumption.
Defined.

(** ** The duplicate counter of a finished scan *)

Lemma JsMap_keys_set {V : Type} (m : JsMap.t V) k v d :
  In d (JsMap.keys (JsMap.set m k v)) -> d = k \/ In d (JsMap.keys m).
Proof.
  unfold JsMap.keys. rewrite !in_map_iff.
  intros ([k' v'] & <- & H). apply JsMap_set_In in H.
  destruct H as [H|H]; [inversion H; now left|].
  right. exists (k', v'). now split.
Qed.

Lemma JsMap_keys_distinct_set {V : Type} (m : JsMap.t V) k v :
  NoDup (JsMap.keys m) -> NoDup (JsMap.keys (JsMap.set m k v)).
Proof.
  induction m as [|[k' v'] m IH]; cbn [JsMap.set JsMap.keys map fst].
  - intros _. constructor; [intros []|constructor].
  - intros H. inversion H as [|x l Hn Hd]; subst.
    destruct (String.eqb_spec k' k) as [->|Hne];
      cbn [JsMap.keys map fst].
    + now constructor.
    + constructor; [|now apply IH].
      intros Hin. apply JsMap_keys_set in Hin.
      destruct Hin as [->|Hin]; [now apply Hne | now apply Hn].
Qed.

Lemma JsMap_get_key {V : Type} (m : JsMap.t V) k v :
  JsMap.get m k = Some v -> In k (JsMap.keys m).
Proof.
  intros H. apply JsMap_get_some_In in H.
  unfold JsMap.keys. apply in_map_iff. exists (k, v). now split.
Qed.

Lemma keys_distinct_job sc j :
  keys_distinct sc -> keys_distinct (fst (job_settled sc j)).
Proof.
  intros H. destruct j as [f|f fileSize]; cbn [job_settled fst].
  - unfold stat_settled. destruct (fstat f); exact H.
  - unfold _calculateFileHash.
    destruct (awaited_digest (options sc) f fileSize) as [h|]; [|exact H].
    unfold keys_distinct, _checkDuplicateFiles in *.
    cbn [duplicateFiles] in *.
    apply JsMap_keys_distinct_set.
    destruct (JsMap.has (duplicateFiles sc) h); [exact H|].
    now apply JsMap_keys_distinct_set.
Qed.

Lemma keys_distinct_readdir sc t :
  keys_distinct sc -> keys_distinct (fst (fst (readdir_settled sc t))).
Proof.
  unfold keys_distinct, readdir_settled.
  destruct (readdir (behind t)); simpl; auto.
Qed.

Lemma keys_distinct_turn L L' :
  keys_distinct (this L) -> turn L L' -> keys_distinct (this L').
Proof.
  intros H T. destruct T as
    [pre r post sc pushed ph Hr Hph E
    |pre r post fs i b j a sc j' Hr Hph E
    |pre r post fs i Hr Hph
    |pre r post Hr Hph]; cbn [this resume].
  - change sc with (fst (fst (sc, pushed, ph))). rewrite <- E.
    now apply keys_distinct_readdir.
  - change sc with (fst (sc, j')). rewrite <- E.
    now apply keys_distinct_job.
  - exact H.
  - unfold keys_distinct in *.
    destruct (task_settled_keeps L (pre ++ post)) as (_ & _ & Hd & _).
    now rewrite Hd.
Qed.

Lemma keys_distinct_start sc rootDir root :
  keys_distinct (this (start (_resetStats sc) rootDir root)).
Proof.
  unfold start, processQueue, keys_distinct.
  destruct (processQueue_loop _ _ _ _ _) as [[[q a] s] st].
  cbn. constructor.
Qed.

Lemma keys_distinct_turns sc rootDir root L :
  turns (start (_resetStats sc) rootDir root) L -> keys_distinct (this L).
Proof.
  intros HT. induction HT as [|L' L'' _ IH T].
  - apply keys_distinct_start.
  - eapply keys_distinct_turn; eauto.
Qed.

Lemma count_consistent_turns sc rootDir root L :
  turns (start (_resetStats sc) rootDir root) L -> count_consistent (this L).
Proof.
  intros HT. induction HT as [|L' L'' _ IH T].
  - apply count_consistent_start.
  - eapply count_consistent_turn; eauto.
Qed.

Lemma total_ext_in {A : Type} (mu nu : A -> Z) l :
  (forall x, In x l -> mu x = nu x) -> total mu l = total nu l.
Proof.
  induction l as [|x l IH]; [reflexivity|]. intros H.
  rewrite !total_cons, IH, (H x) by (intros; apply H; now right) || now left.
  reflexivity.
Qed.

(** The sum over the groups is a sum over the digests that have one. *)
Lemma duplicate_paths_keys (m : JsMap.t (list string)) :
  NoDup (JsMap.keys m) ->
  duplicate_paths m
  = total (fun d => group_weight (group_of m d)) (JsMap.keys m).
Proof.
  induction m as [|[k v] m IH]; [reflexivity|].
  cbn [JsMap.keys map fst]. intros H. inversion H as [|x l Hn Hd]; subst.
  cbn [duplicate_paths fold_right snd]. fold (duplicate_paths m).
  rewrite total_cons, (IH Hd). f_equal.
  - unfold group_of. cbn [JsMap.get]. now rewrite String.eqb_refl.
  - apply total_ext_in. intros d Hin. unfold group_of. cbn [JsMap.get].
    destruct (String.eqb_spec k d) as [->|Hne]; [contradiction|reflexivity].
Qed.

Lemma total_one_key (K : list string) (d0 : string) (G : string -> Z) :
  NoDup K -> In d0 K ->
  total (fun d => indicator (String.eqb d0 d) * G d) K = G d0.
Proof.
  induction K as [|k K IH]; [intros _ []|].
  intros H Hin. inversion H as [|x l Hn Hd]; subst.
  rewrite total_cons. destruct (String.eqb_spec d0 k) as [->|Hne].
  - rewrite (total_ext_in _ (fun _ => 0)), total_zero.
    + unfold indicator. lia.
    + intros d Hd'. destruct (String.eqb_spec k d) as [->|_];
        [contradiction|reflexivity].
  - destruct Hin as [->|Hin]; [contradiction|].
    rewrite (IH Hd Hin). unfold indicator. lia.
Qed.

(** Counting by digest and counting by file give the same total. *)
Lemma total_by_key {X : Type} (K : list string) (key : X -> option string)
    (G : string -> Z) (l : list X) :
  NoDup K ->
  (forall x d, In x l -> key x = Some d -> In d K) ->
  total (fun d =>
           Z.of_nat (length (filter (fun x =>
             match key x with
             | Some h => String.eqb h d
             | None => false
             end) l)) * G d) K
  = total (fun x => match key x with Some d => G d | None => 0 end) l.
Proof.
  intros HK. induction l as [|x l IH]; intros Hc.
  - cbn [filter length total fold_right].
    rewrite (total_ext _ (fun _ => 0)) by reflexivity. apply total_zero.
  - rewrite total_cons, <- IH by (intros; eapply Hc; eauto; now right).
    destruct (key x) as [d0|] eqn:Ek.
    + rewrite <- (total_one_key K d0 G HK (Hc x d0 (or_introl eq_refl) Ek)).
      rewrite <- total_plus. apply total_ext. intros d.
      cbn [filter]. rewrite Ek.
      destruct (String.eqb d0 d); cbn [length indicator]; lia.
    + apply total_ext. intros d. cbn [filter]. now rewrite Ek.
Qed.

Lemma duplicateCount_scan sched fuel sc rootDir root result sc' :
  1 <= batchSize (options sc) ->
  scanDirectory sched fuel sc rootDir root = Some (Resolved result sc') ->
  duplicateCount (stats sc')
  = Z.of_nat (length (duplicated_files (options sc) rootDir root)).
Proof.
  intros Hb H.
  pose proof (fun d => groups_scan _ _ _ _ _ _ _ d Hb H) as Hg.
  assert (Hn : forall d,
             length (group_of (duplicateFiles sc') d)
             = length (files_with_digest (options sc) d rootDir root)).
  { intros d. specialize (Hg d). apply Permutation_length in Hg.
    rewrite length_map in Hg. exact Hg. }
  apply scanDirectory_resolved in H. destruct H as (_ & E & _ & _).
  assert (Hk : keys_distinct sc' /\ count_consistent sc').
  { subst sc'.
    pose proof (run_turns sched fuel 0 (start (_resetStats sc) rootDir root))
      as HT.
    split.
    - exact (keys_distinct_turns _ _ _ _ HT).
    - unfold count_consistent.
      change (duplicateCount (stats (_sortFilesByCreateTime ?s)))
        with (duplicateCount (stats s)).
      change (duplicateFiles (_sortFilesByCreateTime ?s))
        with (duplicateFiles s).
      exact (count_consistent_turns _ _ _ _ HT). }
  destruct Hk as [Hk Hc]. unfold count_consistent in Hc. rewrite Hc.
  rewrite (duplicate_paths_keys _ Hk).
  unfold duplicated_files. unfold files_with_digest in Hn.
  destruct (enableHash (options sc)) eqn:Eh.
  - rewrite <- total_indicator.
    rewrite (total_ext _
      (fun f => match digest_of (options sc) f with
                | Some d =>
                    indicator
                      (2 <=? length (filter (has_digest (options sc) d)
                                       (found_files rootDir root)))%nat
                | None => 0
                end)).
    2: { intros f. unfold shares_digest, files_with_digest.
         destruct (digest_of (options sc) f); [|reflexivity].
         now rewrite Eh. }
    rewrite <- (total_by_key (JsMap.keys (duplicateFiles sc'))
                  (digest_of (options sc))
                  (fun d => indicator
                              (2 <=? length (filter (has_digest (options sc) d)
                                               (found_files rootDir root)))%nat)
                  (found_files rootDir root) Hk).
    + apply total_ext. intros d. unfold group_weight. rewrite (Hn d).
      unfold has_digest.
      destruct (2 <=? _)%nat; unfold indicator; lia.
    + intros f d Hin Ed.
      assert (Hf : In f (filter (has_digest (options sc) d)
                           (found_files rootDir root))).
      { apply filter_In. split; [exact Hin|].
        unfold has_digest. rewrite Ed. apply String.eqb_refl. }
      specialize (Hn d). unfold group_of in Hn.
      destruct (JsMap.get (duplicateFiles sc') d) as [g|] eqn:Eg.
      * eapply JsMap_get_key; eauto.
      * destruct (filter _ _); [destruct Hf|discriminate Hn].
  - cbn [length]. rewrite (total_ext _ (fun _ => 0)); [apply total_zero|].
    intros d. unfold group_weight. rewrite (Hn d). reflexivity.
Qed.

(** X18: when a scan with batches of at least one file resolves,
    [stats.duplicateCount] is the number of files whose [stat] succeeds
    and whose digest, as obtained in this scan, is also the digest of
    another such file.  Given the digests the files obtain (the digest of
    a sampled file varies with the order in which its three streams
    deliver, which the tree records for the scan), the counter does not
    depend on the order in which the operations of the traversal
    completed; with hashing off it is zero. *)
Theorem duplicate_count_counts_the_shared_digests
    (sched : Schedule) (fuel : nat) (sc : Scanner) (rootDir : string)
    (root : Node) (result : ScanResult) (sc' : Scanner) :
  1 <= batchSize (options sc) ->
  scanDirectory sched fuel sc rootDir root = Some (Resolved result sc') ->
  duplicateCount (res_stats result)
  = Z.of_nat (length (duplicated_files (options sc) rootDir root))
  /\ (enableHash (options sc) = false ->
      duplicateCount (res_stats result) = 0).
Proof.
  intros Hb H.
  pose proof (duplicateCount_scan _ _ _ _ _ _ _ Hb H) as E.
  apply scanDirectory_resolved in H. destruct H as (_ & _ & -> & _).
  cbn [_getScanResults res_stats]. split; [exact E|].
  intros Hh. rewrite E. unfold duplicated_files. now rewrite Hh.
Qed.

Lemma duplicate_count_counts_the_shared_digests_witness :
  exists result sc',
    scanDirectory shuffled 40 (new_scanner hashing_options) "root" twins
    = Some (Resolved result sc')
    /\ duplicateCount (res_stats result) = 2
    /\ map itemRelativePath (duplicated_files hashing_options "root" twins)
       = ["a.txt"; "sub/a2.txt"].
Proof.
  let v := eval vm_compute in
    (scanDirectory shuffled 40 (new_scanner hashing_options) "root" twins) in
  match v with
  | Some (Resolved ?r ?s) =>
      exists r, s;
      assert (H : scanDirectory shuffled 40 (new_scanner hashing_options)
                    "root" twins = Some (Resolved r s))
        by (vm_compute; reflexivity);
      split; [exact H|];
      destruct (duplicate_count_counts_the_shared_digests shuffled 40
                  (new_scanner hashing_options) "root" twins r s)
        as [E _];
      [vm_compute; discriminate | exact H |];
      split; [rewrite E|]; vm_compute; reflexivity
  end.
Defined.

(** The digests of a scan are not those of the files alone: two copies of
    one file above the threshold count as duplicates when their streams
    deliver in the same order, and do not when they deliver in different
    orders. *)
Example duplicate_count_varies_with_the_arrival :
  (exists result sc',
     scanDirectory serial 12 (new_scanner tiny_sample_options) "root"
       (two_copies HMT HMT) = Some (Resolved result sc')
     /\ duplicateCount (res_stats result) = 2)
  /\ (exists result sc',
        scanDirectory serial 12 (new_scanner tiny_sample_options) "root"
          (two_copies HMT HTM) = Some (Resolved result sc')
        /\ duplicateCount (res_stats result) = 0).
Proof.
  split; do 2 eexists; (split; [vm_compute; reflexivity|]);
    vm_compute; reflexivity.
Qed.

(** ** Which bytes are hashed (C5) *)

Lemma slice_bytes_at (content : Buffer) (start len : Z) :
  0 <= start -> bytes_at content start len (slice content start len).
Proof.
  intros Hs. unfold bytes_at, slice. split.
  - rewrite length_firstn, length_skipn. lia.
  - intros k Hk. rewrite length_firstn in Hk.
    rewrite nth_error_firstn, nth_error_skipn.
    destruct (Nat.ltb_spec k (Z.to_nat len)) as [_|Hge]; [reflexivity|lia].
Qed.

(** A window is determined by its offset and its length. *)
Lemma bytes_at_unique (content : Buffer) (start len : Z) (w1 w2 : Buffer) :
  bytes_at content start len w1 -> bytes_at content start len w2 -> w1 = w2.
Proof.
  intros [L1 B1] [L2 B2]. apply nth_error_ext. intros k.
  assert (El : length w1 = length w2) by lia.
  destruct (Nat.lt_ge_cases k (length w1)) as [Hk|Hk].
  - rewrite B1, B2 by lia. reflexivity.
  - transitivity (@None byte); [|symmetry]; apply nth_error_None; lia.
Qed.

Lemma skipn_bytes_at (content : Buffer) (start len : Z) :
  0 <= start -> Z.of_nat (length content) - start <= len ->
  bytes_at content start len (skipn (Z.to_nat start) content).
Proof.
  intros Hs Hl. unfold bytes_at. split.
  - rewrite length_skipn. lia.
  - intros k _. apply nth_error_skipn.
Qed.

(** The windows of a non-empty file above the threshold whose middle
    window starts inside the file. *)
Lemma windows_of_sampled ss (content : Buffer) fileSize :
  1 <= fileSize -> 1 <= ss -> ss / 2 <= fileSize / 2 ->
  map (window (Some content) fileSize) (positions ss fileSize)
  = [ Some (slice content 0 (Z.min ss fileSize));
      Some (slice content (fileSize / 2 - ss / 2) ss);
      Some (slice content (Z.max 0 (fileSize - ss)) (Z.min ss fileSize)) ].
Proof.
  intros Hf Hs Hm. unfold positions, window, createReadStream.
  cbn [map fst snd option_map]. rewrite !Z.geb_leb.
  assert (Hh : fileSize / 2 < fileSize)
    by (apply Z.div_lt_upper_bound; lia).
  assert (0 <= ss / 2) by (apply Z.div_pos; lia).
  repeat match goal with
         | |- context [?a <=? ?b] =>
             destruct (Z.leb_spec a b); try lia
         end;
  reflexivity.
Qed.

(** Counterexample to C5 as stated.  In the scanner, a readable file of
    100 bytes under a threshold of 10 bytes and a sample size of 2048 is
    above the threshold, yet no window of it is sampled and no method is
    recorded: the middle window would start before the file and the hash
    fails.  In [calculateFastHash], a file of exactly [THRESHOLD] bytes is
    not read in full: 6144 of its 10240 bytes are hashed, and changing
    the byte at offset 3000 changes nothing. *)
Lemma C5_some_files_are_neither_read_whole_nor_sampled :
  (hashThreshold small_threshold_options < 100
   /\ fcontent (readable "short.bin" (repeat "x"%byte 100))
      = Some (repeat "x"%byte 100)
   /\ awaited_digest small_threshold_options
        (readable "short.bin" (repeat "x"%byte 100)) 100 = None
   /\ getFileHash
        (_calculateFileHash (new_scanner small_threshold_options)
           (readable "short.bin" (repeat "x"%byte 100)) 100) "short.bin"
      = None
   /\ hashErrors
        (stats (_calculateFileHash (new_scanner small_threshold_options)
                  (readable "short.bin" (repeat "x"%byte 100)) 100)) = 1)
  /\ (Z.of_nat (length (at_threshold x00)) = FastHash.THRESHOLD
      /\ Z.of_nat (length (FastHash.sample (at_threshold x00))) = 6144
      /\ at_threshold x00 <> at_threshold x01
      /\ FastHash.calculateFastHash (Some (at_threshold x00))
         = FastHash.calculateFastHash (Some (at_threshold x01))).
Proof.
  split.
  - split; [reflexivity|]. split; [reflexivity|].
    repeat split; vm_compute; reflexivity.
  - split; [vm_compute; reflexivity|].
    split; [vm_compute; reflexivity|].
    split.
    + intros E. apply (f_equal (fun b => nth_error b 3000)) in E.
      vm_compute in E. discriminate E.
    + apply calculateFastHash_same_sample; vm_compute; reflexivity.
Qed.

(** C5, amended: for a readable file, [_calculateFileHash] hashes the
    entire contents and records method [full] when the size is at most
    [hashThreshold].  For a non-empty file above [hashThreshold], when
    [hashSampleSize] is at least 1 and the middle window starts inside the
    file, it hashes three windows of the contents (head, middle and tail,
    each given here by its offset and the bytes of the file at its
    offsets) and records method [sampled]; what is hashed is the bytes
    of the three windows and nothing else, in the order in which the
    three streams deliver their chunks: for windows of at most 64 KiB, the
    three windows whole in one of the six orders.  [calculateFastHash]
    hashes the entire contents below [THRESHOLD] (strictly) and, from
    [THRESHOLD] on, the head, middle and tail blocks of 2 KiB.  In the
    four-file scenario under the default configuration the two 1 KiB
    files are hashed with method [full] and the 50 KiB file with method
    [sampled]. *)
Theorem C5_full_up_to_threshold_sampled_above
    (sc : Scanner) (f : FileStat) (content : Buffer) (fileSize : Z) :
  fcontent f = Some content ->
  (fileSize <= hashThreshold (options sc) ->
   getFileHash (_calculateFileHash sc f fileSize) (itemRelativePath f)
   = Some {| hash := MD5.digest_hex content; method := full |})
  /\ (hashThreshold (options sc) < fileSize ->
      1 <= fileSize ->
      1 <= hashSampleSize (options sc) ->
      hashSampleSize (options sc) / 2 <= fileSize / 2 ->
      exists h m t,
        bytes_at content 0 (Z.min (hashSampleSize (options sc)) fileSize) h
        /\ bytes_at content (fileSize / 2 - hashSampleSize (options sc) / 2)
             (hashSampleSize (options sc)) m
        /\ bytes_at content (Z.max 0 (fileSize - hashSampleSize (options sc)))
             (Z.min (hashSampleSize (options sc)) fileSize) t
        /\ getFileHash (_calculateFileHash sc f fileSize) (itemRelativePath f)
           = Some {| hash := MD5.digest_hex (delivered (farrival f) h m t);
                     method := sampled |}
        /\ length (delivered (farrival f) h m t)
           = (length h + length m + length t)%nat
        /\ (hashSampleSize (options sc) <= highWaterMark ->
            exists ws,
              Permutation ws [h; m; t]
              /\ delivered (farrival f) h m t = List.concat ws))
  /\ (Z.of_nat (length content) < FastHash.THRESHOLD ->
      FastHash.sample content = content)
  /\ (FastHash.THRESHOLD <= Z.of_nat (length content) ->
      exists h m t,
        bytes_at content 0 FastHash.BLOCK_SIZE h
        /\ bytes_at content
             (Z.of_nat (length content) / 2 - FastHash.BLOCK_SIZE / 2)
             FastHash.BLOCK_SIZE m
        /\ bytes_at content (Z.of_nat (length content) - FastHash.BLOCK_SIZE)
             FastHash.BLOCK_SIZE t
        /\ FastHash.sample content = h ++ m ++ t
        /\ Z.of_nat (length (FastHash.sample content))
           = 3 * FastHash.BLOCK_SIZE)
  /\ (exists result sc',
        scanDirectory serial 40 (new_scanner hashing_options) "root" four_files
        = Some (Resolved result sc')
        /\ res_totalFiles result = 4
        /\ option_map method (getFileHash sc' "a.bin") = Some full
        /\ option_map method (getFileHash sc' "sub/a_copy.bin") = Some full
        /\ option_map method (getFileHash sc' "c.bin") = Some sampled).
Proof.
  intros Hc.
  assert (Hrec : forall h,
             awaited_digest (options sc) f fileSize = Some h ->
             getFileHash (_calculateFileHash sc f fileSize)
               (itemRelativePath f)
             = Some {| hash := h;
                       method := if fileSize <=? hashThreshold (options sc)
                                 then full else sampled |}).
  { intros h Hd.
    change (_calculateFileHash sc f fileSize)
      with (fst (job_settled sc (AwaitHash f fileSize))).
    rewrite getFileHash_job, Hd, String.eqb_refl. reflexivity. }
  split; [|split; [|split; [|split]]].
  - intros Hle.
    rewrite (Hrec (MD5.digest_hex content)).
    + apply Z.leb_le in Hle. now rewrite Hle.
    + unfold awaited_digest. apply Z.leb_le in Hle. rewrite Hle, Hc.
      reflexivity.
  - intros Hgt Hf Hs Hm.
    set (ss := hashSampleSize (options sc)) in *.
    assert (Hmid : 0 <= fileSize / 2 - ss / 2) by lia.
    exists (slice content 0 (Z.min ss fileSize)),
           (slice content (fileSize / 2 - ss / 2) ss),
           (slice content (Z.max 0 (fileSize - ss)) (Z.min ss fileSize)).
    split; [apply slice_bytes_at; lia|].
    split; [apply slice_bytes_at; exact Hmid|].
    split; [apply slice_bytes_at; lia|].
    split; [|split].
    + rewrite (Hrec (MD5.digest_hex
                       (delivered (farrival f)
                          (slice content 0 (Z.min ss fileSize))
                          (slice content (fileSize / 2 - ss / 2) ss)
                          (slice content (Z.max 0 (fileSize - ss))
                             (Z.min ss fileSize))))).
      * apply Z.leb_gt in Hgt. now rewrite Hgt.
      * unfold awaited_digest. apply Z.leb_gt in Hgt. rewrite Hgt, Hc.
        apply sampled_digest. fold ss.
        now apply windows_of_sampled.
    + apply delivered_length.
    + intros Hw. apply delivered_whole;
        unfold slice; rewrite length_firstn; lia.
  - intros Hlt. rewrite sample_described. unfold described_bytes.
    apply Z.ltb_lt in Hlt. now rewrite Hlt.
  - intros Hge. rewrite sample_described. unfold described_bytes.
    cbv zeta. set (n := Z.of_nat (length content)).
    destruct (Z.ltb_spec n FastHash.THRESHOLD) as [Hlt|_]; [lia|].
    unfold FastHash.THRESHOLD, FastHash.BLOCK_SIZE in *.
    change (2 * 1024 / 2) with 1024. change (2 * 1024) with 2048.
    assert (Hm : 4096 <= n / 2 - 1024 /\ n / 2 - 1024 + 2048 <= n).
    { pose proof (Z.div_le_mono (10 * 1024) n 2 ltac:(lia) Hge) as H1.
      change (10 * 1024 / 2) with 5120 in H1.
      pose proof (Z.mul_div_le n 2 ltac:(lia)). lia. }
    exists (firstn 2048 content),
           (firstn 2048 (skipn (Z.to_nat (n / 2 - 1024)) content)),
           (skipn (Z.to_nat (n - 2048)) content).
    split; [exact (slice_bytes_at content 0 2048 ltac:(lia))|].
    split; [exact (slice_bytes_at content (n / 2 - 1024) 2048 ltac:(lia))|].
    split; [apply skipn_bytes_at; fold n; lia|].
    split; [reflexivity|].
    rewrite !length_app, !length_firstn, !length_skipn. fold n. lia.
  - destruct four_files_scenario
      as (result & sc' & H0 & H1 & H2 & H3 & _ & H4 & _).
    exists result, sc'. auto.
Qed.

Lemma C5_full_up_to_threshold_sampled_above_witness :
  fcontent letters = Some (ascii_bytes "abcdefghijklmnopqrst")
  /\ getFileHash
       (_calculateFileHash (new_scanner tiny_sample_options) letters 20)
       "letters.txt"
     = Some {| hash := MD5.digest_hex (ascii_bytes "qrstijklabcd");
               method := sampled |}.
Proof.
  split; [reflexivity|].
  destruct (proj1 (proj2 (C5_full_up_to_threshold_sampled_above
                            (new_scanner tiny_sample_options) letters
                            (ascii_bytes "abcdefghijklmnopqrst") 20
                            eq_refl)))
    as (h & m & t & Hh & Hm & Ht & Hr & _);
    [vm_compute; reflexivity | vm_compute; discriminate
    | vm_compute; discriminate | vm_compute; discriminate |].
  assert (Eh : h = ascii_bytes "abcd").
  { apply (bytes_at_unique _ _ _ _ _ Hh). split; [reflexivity|].
    intros k Hk. do 4 (destruct k as [|k]; [reflexivity|]).
    cbn [length ascii_bytes] in Hk. vm_compute in Hk. lia. }
  assert (Em : m = ascii_bytes "ijkl").
  { apply (bytes_at_unique _ _ _ _ _ Hm). split; [reflexivity|].
    intros k Hk. do 4 (destruct k as [|k]; [reflexivity|]).
    vm_compute in Hk. lia. }
  assert (Et : t = ascii_bytes "qrst").
  { apply (bytes_at_unique _ _ _ _ _ Ht). split; [reflexivity|].
    intros k Hk. do 4 (destruct k as [|k]; [reflexivity|]).
    vm_compute in Hk. lia. }
  refine (eq_trans Hr _). rewrite Eh, Em, Et. reflexivity.
Defined.
